(** * Browservice session protocol engine: a shallow embedding of
    [src/session.cpp] and the properties of its request handling.

    The session object is a record, every [void] method of [Session] is a
    command of type [Cmd] (state passing, an effect trace, and [None] when
    a [REQUIRE] fails and the process aborts).  Collaborators behind the
    session (browser, compressor, widgets, the HTTP request) appear as
    effects in the trace.  Every operation of the session-owning loop is
    given the reading of steady_clock it runs at; the clock does not move
    while one operation runs. *)

From Stdlib Require Import ZArith Lia List Bool Ascii String.
From stdpp Require Import base option gmap.
Import ListNotations.
Local Open Scope string_scope.
Local Open Scope list_scope.
Local Open Scope Z_scope.

(** ** Strings, the path grammar and number parsing *)

Definition slash : ascii := Ascii.ascii_of_nat 47.

(** The pieces of a path between its '/' characters, in order; a path with
    n slashes has n+1 pieces. *)
Fixpoint split_slash (s : string) : list string :=
  match s with
  | EmptyString => [EmptyString]
  | String c rest =>
      if Ascii.eqb c slash then EmptyString :: split_slash rest
      else match split_slash rest with
           | piece :: pieces => String c piece :: pieces
           | [] => [String c EmptyString]
           end
  end.

Fixpoint string_forall (p : ascii -> bool) (s : string) : bool :=
  match s with
  | EmptyString => true
  | String c rest => p c && string_forall p rest
  end.

Definition nonempty (s : string) : bool :=
  match s with EmptyString => false | _ => true end.

Definition is_digit (c : ascii) : bool :=
  let n := Z.of_nat (nat_of_ascii c) in (48 <=? n) && (n <=? 57).

Definition is_upper (c : ascii) : bool :=
  let n := Z.of_nat (nat_of_ascii c) in (65 <=? n) && (n <=? 90).

(** [0-9]+ *)
Definition digits1 (s : string) : bool := nonempty s && string_forall is_digit s.

(** [A-Z0-9_-]+ *)
Definition is_event_char (c : ascii) : bool :=
  is_upper c || is_digit c || Ascii.eqb c "_"%char || Ascii.eqb c "-"%char.

Definition event_token (s : string) : bool :=
  nonempty s && string_forall is_event_char s.

(** The character class of '.' in an ECMAScript regex: no line terminator. *)
Definition is_dot_char (c : ascii) : bool :=
  negb (Ascii.eqb c (Ascii.ascii_of_nat 10) || Ascii.eqb c (Ascii.ascii_of_nat 13)).

(** The last group of imagePathRegex, zero or more "[A-Z0-9_-]+/", at the end of a path, read off the pieces that follow
    the sixth number: every piece but the last is a token, the last piece is
    empty (the path ends in '/').  The result is the text of the group. *)
Fixpoint event_batch (pieces : list string) : option string :=
  match pieces with
  | [] => None
  | [last] => if nonempty last then None else Some EmptyString
  | ev :: rest =>
      if event_token ev then
        match event_batch rest with
        | Some batch => Some (String.append ev (String slash batch))
        | None => None
        end
      else None
  end.

(** regex_match(path, mainPathRegex): "/[0-9]+/" *)
Definition mainPathRegex (path : string) : bool :=
  match split_slash path with
  | [e0; id; e1] => negb (nonempty e0) && digits1 id && negb (nonempty e1)
  | _ => false
  end.

(** "/[0-9]+/prev/" *)
Definition prevPathRegex (path : string) : bool :=
  match split_slash path with
  | [e0; id; w; e1] =>
      negb (nonempty e0) && digits1 id && String.eqb w "prev" && negb (nonempty e1)
  | _ => false
  end.

(** "/[0-9]+/next/" *)
Definition nextPathRegex (path : string) : bool :=
  match split_slash path with
  | [e0; id; w; e1] =>
      negb (nonempty e0) && digits1 id && String.eqb w "next" && negb (nonempty e1)
  | _ => false
  end.

(** The submatches 1..7 of imagePathRegex. *)
Record ImageMatch := {
  m_mainIdx : string;
  m_imgIdx : string;
  m_immediate : string;
  m_width : string;
  m_height : string;
  m_startEventIdx : string;
  m_events : string
}.

(** "/[0-9]+/image/([0-9]+)/([0-9]+)/([01])/([0-9]+)/([0-9]+)/([0-9]+)/"
    followed by the group of zero or more "[A-Z0-9_-]+/". *)
Definition imagePathRegex (path : string) : option ImageMatch :=
  match split_slash path with
  | e0 :: id :: w :: g1 :: g2 :: g3 :: g4 :: g5 :: g6 :: rest =>
      if negb (nonempty e0) && digits1 id && String.eqb w "image"
         && digits1 g1 && digits1 g2
         && (String.eqb g3 "0" || String.eqb g3 "1")
         && digits1 g4 && digits1 g5 && digits1 g6
      then match event_batch rest with
           | Some batch => Some (Build_ImageMatch g1 g2 g3 g4 g5 g6 batch)
           | None => None
           end
      else None
  | _ => None
  end.

(** "/[0-9]+/iframe/([0-9]+)/[0-9]+/": submatch 1. *)
Definition iframePathRegex (path : string) : option string :=
  match split_slash path with
  | [e0; id; w; g1; tok; e1] =>
      if negb (nonempty e0) && digits1 id && String.eqb w "iframe"
         && digits1 g1 && digits1 tok && negb (nonempty e1)
      then Some g1 else None
  | _ => None
  end.

(** "/[0-9]+/download/([0-9]+)/.*": submatch 1; the tail may hold further
    slashes and any character that '.' matches. *)
Definition downloadPathRegex (path : string) : option string :=
  match split_slash path with
  | e0 :: id :: w :: g1 :: tail1 :: tail =>
      if negb (nonempty e0) && digits1 id && String.eqb w "download"
         && digits1 g1 && forallb (string_forall is_dot_char) (tail1 :: tail)
      then Some g1 else None
  | _ => None
  end.

(** "/[0-9]+/close/([0-9]+)/": submatch 1. *)
Definition closePathRegex (path : string) : option string :=
  match split_slash path with
  | [e0; id; w; g1; e1] =>
      if negb (nonempty e0) && digits1 id && String.eqb w "close"
         && digits1 g1 && negb (nonempty e1)
      then Some g1 else None
  | _ => None
  end.

Definition digit_value (c : ascii) : Z := Z.of_nat (nat_of_ascii c) - 48.

Fixpoint decimal_value (acc : Z) (s : string) : Z :=
  match s with
  | EmptyString => acc
  | String c rest => decimal_value (10 * acc + digit_value c) rest
  end.

Definition uint64_max : Z := 2 ^ 64 - 1.
Definition int_max : Z := 2 ^ 31 - 1.

(** Modelled from the spec: [parseString<T>] is declared outside src/.  On
    the digit strings the path grammar captures it yields the decimal value
    when that value fits the target type, and nothing otherwise (a
    "matched-but-invalid captured index"). *)
Definition parseString (max : Z) (s : string) : option Z :=
  if digits1 s then
    let v := decimal_value 0 s in
    if v <=? max then Some v else None
  else None.

Definition parseString_uint64 : string -> option Z := parseString uint64_max.
Definition parseString_int : string -> option Z := parseString int_max.

(** ** The session object *)

Inductive State := Pending | Open | Closing | Closed.

Definition State_eqb (a b : State) : bool :=
  match a, b with
  | Pending, Pending | Open, Open | Closing, Closing | Closed, Closed => true
  | _, _ => false
  end.

(** steady_clock time points are counted in nanoseconds;
    duration_cast<milliseconds> truncates. *)
Definition ticks_per_ms : Z := 1000000.

Definition elapsed_ms (now since : Z) : Z := Z.quot (now - since) ticks_per_ms.

(** Modelled from the spec: the [Timeout] class is declared outside src/.
    A timeout is a reschedulable one-shot timer with a fixed delay in
    milliseconds: [set] arms it to fire its callback once the delay has
    passed, [clear(false)] disarms it without running the callback.  Which
    callback a timeout runs follows from the member that holds it. *)
Record Timeout := { delayMs : Z; expiresAt : option Z }.

Definition Timeout_create (ms : Z) : Timeout :=
  {| delayMs := ms; expiresAt := None |}.

Definition Timeout_set (now : Z) (t : Timeout) : Timeout :=
  {| delayMs := delayMs t; expiresAt := Some (now + delayMs t * ticks_per_ms) |}.

Definition Timeout_clear (t : Timeout) : Timeout :=
  {| delayMs := delayMs t; expiresAt := None |}.

Definition Timeout_due (now : Z) (t : Timeout) : bool :=
  match expiresAt t with
  | Some at_ => at_ <=? now
  | None => false
  end.

(** An image buffer or a view into one; only its dimensions matter here. *)
Record ImageSlice := { width : Z; height : Z }.

Definition createImage (w h : Z) : ImageSlice := {| width := w; height := h |}.

(** subRect(0, w, 0, h) *)
Definition subRect (w h : Z) (img : ImageSlice) : ImageSlice :=
  {| width := w; height := h |}.

Record CompletedDownload := { file_name : string }.

(** The closures pushed to [iframeQueue_], by the place that builds them. *)
Inductive Iframe :=
| PopupIframe (popupSessionID : Z)
| ClipboardIframe
| DownloadIframe (file : CompletedDownload).

(** The members of [Session] that the request handling reads or writes.
    [browser_] records whether the handle is non-null. *)
Record Session := {
  id_ : Z;
  isPopup_ : bool;
  allowPNG_ : bool;
  prePrevVisited_ : bool;
  preMainVisited_ : bool;
  prevNextClicked_ : bool;
  curMainIdx_ : Z;
  curImgIdx_ : Z;
  curEventIdx_ : Z;
  curDownloadIdx_ : Z;
  state_ : State;
  closeOnOpen_ : bool;
  inactivityTimeoutLong_ : Timeout;
  inactivityTimeoutShort_ : Timeout;
  lastSecurityStatusUpdateTime_ : Z;
  lastNavigateOperationTime_ : Z;
  paddedRootViewport_ : ImageSlice;
  rootViewport_ : ImageSlice;
  widthSignal_ : Z;
  heightSignal_ : Z;
  downloads_ : gmap Z (CompletedDownload * Timeout);
  iframeQueue_ : list Iframe;
  browser_ : bool
}.

(** Assignment to one member. *)
Definition set_prePrevVisited_ (v : bool) (s : Session) : Session :=
  {| id_ := id_ s; isPopup_ := isPopup_ s; allowPNG_ := allowPNG_ s;
     prePrevVisited_ := v; preMainVisited_ := preMainVisited_ s;
     prevNextClicked_ := prevNextClicked_ s; curMainIdx_ := curMainIdx_ s;
     curImgIdx_ := curImgIdx_ s; curEventIdx_ := curEventIdx_ s;
     curDownloadIdx_ := curDownloadIdx_ s; state_ := state_ s;
     closeOnOpen_ := closeOnOpen_ s;
     inactivityTimeoutLong_ := inactivityTimeoutLong_ s;
     inactivityTimeoutShort_ := inactivityTimeoutShort_ s;
     lastSecurityStatusUpdateTime_ := lastSecurityStatusUpdateTime_ s;
     lastNavigateOperationTime_ := lastNavigateOperationTime_ s;
     paddedRootViewport_ := paddedRootViewport_ s; rootViewport_ := rootViewport_ s;
     widthSignal_ := widthSignal_ s; heightSignal_ := heightSignal_ s;
     downloads_ := downloads_ s; iframeQueue_ := iframeQueue_ s;
     browser_ := browser_ s |}.

Definition set_preMainVisited_ (v : bool) (s : Session) : Session :=
  {| id_ := id_ s; isPopup_ := isPopup_ s; allowPNG_ := allowPNG_ s;
     prePrevVisited_ := prePrevVisited_ s; preMainVisited_ := v;
     prevNextClicked_ := prevNextClicked_ s; curMainIdx_ := curMainIdx_ s;
     curImgIdx_ := curImgIdx_ s; curEventIdx_ := curEventIdx_ s;
     curDownloadIdx_ := curDownloadIdx_ s; state_ := state_ s;
     closeOnOpen_ := closeOnOpen_ s;
     inactivityTimeoutLong_ := inactivityTimeoutLong_ s;
     inactivityTimeoutShort_ := inactivityTimeoutShort_ s;
     lastSecurityStatusUpdateTime_ := lastSecurityStatusUpdateTime_ s;
     lastNavigateOperationTime_ := lastNavigateOperationTime_ s;
     paddedRootViewport_ := paddedRootViewport_ s; rootViewport_ := rootViewport_ s;
     widthSignal_ := widthSignal_ s; heightSignal_ := heightSignal_ s;
     downloads_ := downloads_ s; iframeQueue_ := iframeQueue_ s;
     browser_ := browser_ s |}.

Definition set_prevNextClicked_ (v : bool) (s : Session) : Session :=
  {| id_ := id_ s; isPopup_ := isPopup_ s; allowPNG_ := allowPNG_ s;
     prePrevVisited_ := prePrevVisited_ s; preMainVisited_ := preMainVisited_ s;
     prevNextClicked_ := v; curMainIdx_ := curMainIdx_ s; curImgIdx_ := curImgIdx_ s;
     curEventIdx_ := curEventIdx_ s; curDownloadIdx_ := curDownloadIdx_ s;
     state_ := state_ s; closeOnOpen_ := closeOnOpen_ s;
     inactivityTimeoutLong_ := inactivityTimeoutLong_ s;
     inactivityTimeoutShort_ := inactivityTimeoutShort_ s;
     lastSecurityStatusUpdateTime_ := lastSecurityStatusUpdateTime_ s;
     lastNavigateOperationTime_ := lastNavigateOperationTime_ s;
     paddedRootViewport_ := paddedRootViewport_ s; rootViewport_ := rootViewport_ s;
     widthSignal_ := widthSignal_ s; heightSignal_ := heightSignal_ s;
     downloads_ := downloads_ s; iframeQueue_ := iframeQueue_ s;
     browser_ := browser_ s |}.

Definition set_curMainIdx_ (v : Z) (s : Session) : Session :=
  {| id_ := id_ s; isPopup_ := isPopup_ s; allowPNG_ := allowPNG_ s;
     prePrevVisited_ := prePrevVisited_ s; preMainVisited_ := preMainVisited_ s;
     prevNextClicked_ := prevNextClicked_ s; curMainIdx_ := v;
     curImgIdx_ := curImgIdx_ s; curEventIdx_ := curEventIdx_ s;
     curDownloadIdx_ := curDownloadIdx_ s; state_ := state_ s;
     closeOnOpen_ := closeOnOpen_ s;
     inactivityTimeoutLong_ := inactivityTimeoutLong_ s;
     inactivityTimeoutShort_ := inactivityTimeoutShort_ s;
     lastSecurityStatusUpdateTime_ := lastSecurityStatusUpdateTime_ s;
     lastNavigateOperationTime_ := lastNavigateOperationTime_ s;
     paddedRootViewport_ := paddedRootViewport_ s; rootViewport_ := rootViewport_ s;
     widthSignal_ := widthSignal_ s; heightSignal_ := heightSignal_ s;
     downloads_ := downloads_ s; iframeQueue_ := iframeQueue_ s;
     browser_ := browser_ s |}.

Definition set_curImgIdx_ (v : Z) (s : Session) : Session :=
  {| id_ := id_ s; isPopup_ := isPopup_ s; allowPNG_ := allowPNG_ s;
     prePrevVisited_ := prePrevVisited_ s; preMainVisited_ := preMainVisited_ s;
     prevNextClicked_ := prevNextClicked_ s; curMainIdx_ := curMainIdx_ s;
     curImgIdx_ := v; curEventIdx_ := curEventIdx_ s;
     curDownloadIdx_ := curDownloadIdx_ s; state_ := state_ s;
     closeOnOpen_ := closeOnOpen_ s;
     inactivityTimeoutLong_ := inactivityTimeoutLong_ s;
     inactivityTimeoutShort_ := inactivityTimeoutShort_ s;
     lastSecurityStatusUpdateTime_ := lastSecurityStatusUpdateTime_ s;
     lastNavigateOperationTime_ := lastNavigateOperationTime_ s;
     paddedRootViewport_ := paddedRootViewport_ s; rootViewport_ := rootViewport_ s;
     widthSignal_ := widthSignal_ s; heightSignal_ := heightSignal_ s;
     downloads_ := downloads_ s; iframeQueue_ := iframeQueue_ s;
     browser_ := browser_ s |}.

Definition set_curEventIdx_ (v : Z) (s : Session) : Session :=
  {| id_ := id_ s; isPopup_ := isPopup_ s; allowPNG_ := allowPNG_ s;
     prePrevVisited_ := prePrevVisited_ s; preMainVisited_ := preMainVisited_ s;
     prevNextClicked_ := prevNextClicked_ s; curMainIdx_ := curMainIdx_ s;
     curImgIdx_ := curImgIdx_ s; curEventIdx_ := v;
     curDownloadIdx_ := curDownloadIdx_ s; state_ := state_ s;
     closeOnOpen_ := closeOnOpen_ s;
     inactivityTimeoutLong_ := inactivityTimeoutLong_ s;
     inactivityTimeoutShort_ := inactivityTimeoutShort_ s;
     lastSecurityStatusUpdateTime_ := lastSecurityStatusUpdateTime_ s;
     lastNavigateOperationTime_ := lastNavigateOperationTime_ s;
     paddedRootViewport_ := paddedRootViewport_ s; rootViewport_ := rootViewport_ s;
     widthSignal_ := widthSignal_ s; heightSignal_ := heightSignal_ s;
     downloads_ := downloads_ s; iframeQueue_ := iframeQueue_ s;
     browser_ := browser_ s |}.

Definition set_curDownloadIdx_ (v : Z) (s : Session) : Session :=
  {| id_ := id_ s; isPopup_ := isPopup_ s; allowPNG_ := allowPNG_ s;
     prePrevVisited_ := prePrevVisited_ s; preMainVisited_ := preMainVisited_ s;
     prevNextClicked_ := prevNextClicked_ s; curMainIdx_ := curMainIdx_ s;
     curImgIdx_ := curImgIdx_ s; curEventIdx_ := curEventIdx_ s; curDownloadIdx_ := v;
     state_ := state_ s; closeOnOpen_ := closeOnOpen_ s;
     inactivityTimeoutLong_ := inactivityTimeoutLong_ s;
     inactivityTimeoutShort_ := inactivityTimeoutShort_ s;
     lastSecurityStatusUpdateTime_ := lastSecurityStatusUpdateTime_ s;
     lastNavigateOperationTime_ := lastNavigateOperationTime_ s;
     paddedRootViewport_ := paddedRootViewport_ s; rootViewport_ := rootViewport_ s;
     widthSignal_ := widthSignal_ s; heightSignal_ := heightSignal_ s;
     downloads_ := downloads_ s; iframeQueue_ := iframeQueue_ s;
     browser_ := browser_ s |}.

Definition set_state_ (v : State) (s : Session) : Session :=
  {| id_ := id_ s; isPopup_ := isPopup_ s; allowPNG_ := allowPNG_ s;
     prePrevVisited_ := prePrevVisited_ s; preMainVisited_ := preMainVisited_ s;
     prevNextClicked_ := prevNextClicked_ s; curMainIdx_ := curMainIdx_ s;
     curImgIdx_ := curImgIdx_ s; curEventIdx_ := curEventIdx_ s;
     curDownloadIdx_ := curDownloadIdx_ s; state_ := v;
     closeOnOpen_ := closeOnOpen_ s;
     inactivityTimeoutLong_ := inactivityTimeoutLong_ s;
     inactivityTimeoutShort_ := inactivityTimeoutShort_ s;
     lastSecurityStatusUpdateTime_ := lastSecurityStatusUpdateTime_ s;
     lastNavigateOperationTime_ := lastNavigateOperationTime_ s;
     paddedRootViewport_ := paddedRootViewport_ s; rootViewport_ := rootViewport_ s;
     widthSignal_ := widthSignal_ s; heightSignal_ := heightSignal_ s;
     downloads_ := downloads_ s; iframeQueue_ := iframeQueue_ s;
     browser_ := browser_ s |}.

Definition set_closeOnOpen_ (v : bool) (s : Session) : Session :=
  {| id_ := id_ s; isPopup_ := isPopup_ s; allowPNG_ := allowPNG_ s;
     prePrevVisited_ := prePrevVisited_ s; preMainVisited_ := preMainVisited_ s;
     prevNextClicked_ := prevNextClicked_ s; curMainIdx_ := curMainIdx_ s;
     curImgIdx_ := curImgIdx_ s; curEventIdx_ := curEventIdx_ s;
     curDownloadIdx_ := curDownloadIdx_ s; state_ := state_ s; closeOnOpen_ := v;
     inactivityTimeoutLong_ := inactivityTimeoutLong_ s;
     inactivityTimeoutShort_ := inactivityTimeoutShort_ s;
     lastSecurityStatusUpdateTime_ := lastSecurityStatusUpdateTime_ s;
     lastNavigateOperationTime_ := lastNavigateOperationTime_ s;
     paddedRootViewport_ := paddedRootViewport_ s; rootViewport_ := rootViewport_ s;
     widthSignal_ := widthSignal_ s; heightSignal_ := heightSignal_ s;
     downloads_ := downloads_ s; iframeQueue_ := iframeQueue_ s;
     browser_ := browser_ s |}.

Definition set_inactivityTimeoutLong_ (v : Timeout) (s : Session) : Session :=
  {| id_ := id_ s; isPopup_ := isPopup_ s; allowPNG_ := allowPNG_ s;
     prePrevVisited_ := prePrevVisited_ s; preMainVisited_ := preMainVisited_ s;
     prevNextClicked_ := prevNextClicked_ s; curMainIdx_ := curMainIdx_ s;
     curImgIdx_ := curImgIdx_ s; curEventIdx_ := curEventIdx_ s;
     curDownloadIdx_ := curDownloadIdx_ s; state_ := state_ s;
     closeOnOpen_ := closeOnOpen_ s; inactivityTimeoutLong_ := v;
     inactivityTimeoutShort_ := inactivityTimeoutShort_ s;
     lastSecurityStatusUpdateTime_ := lastSecurityStatusUpdateTime_ s;
     lastNavigateOperationTime_ := lastNavigateOperationTime_ s;
     paddedRootViewport_ := paddedRootViewport_ s; rootViewport_ := rootViewport_ s;
     widthSignal_ := widthSignal_ s; heightSignal_ := heightSignal_ s;
     downloads_ := downloads_ s; iframeQueue_ := iframeQueue_ s;
     browser_ := browser_ s |}.

Definition set_inactivityTimeoutShort_ (v : Timeout) (s : Session) : Session :=
  {| id_ := id_ s; isPopup_ := isPopup_ s; allowPNG_ := allowPNG_ s;
     prePrevVisited_ := prePrevVisited_ s; preMainVisited_ := preMainVisited_ s;
     prevNextClicked_ := prevNextClicked_ s; curMainIdx_ := curMainIdx_ s;
     curImgIdx_ := curImgIdx_ s; curEventIdx_ := curEventIdx_ s;
     curDownloadIdx_ := curDownloadIdx_ s; state_ := state_ s;
     closeOnOpen_ := closeOnOpen_ s;
     inactivityTimeoutLong_ := inactivityTimeoutLong_ s; inactivityTimeoutShort_ := v;
     lastSecurityStatusUpdateTime_ := lastSecurityStatusUpdateTime_ s;
     lastNavigateOperationTime_ := lastNavigateOperationTime_ s;
     paddedRootViewport_ := paddedRootViewport_ s; rootViewport_ := rootViewport_ s;
     widthSignal_ := widthSignal_ s; heightSignal_ := heightSignal_ s;
     downloads_ := downloads_ s; iframeQueue_ := iframeQueue_ s;
     browser_ := browser_ s |}.

Definition set_lastSecurityStatusUpdateTime_ (v : Z) (s : Session) : Session :=
  {| id_ := id_ s; isPopup_ := isPopup_ s; allowPNG_ := allowPNG_ s;
     prePrevVisited_ := prePrevVisited_ s; preMainVisited_ := preMainVisited_ s;
     prevNextClicked_ := prevNextClicked_ s; curMainIdx_ := curMainIdx_ s;
     curImgIdx_ := curImgIdx_ s; curEventIdx_ := curEventIdx_ s;
     curDownloadIdx_ := curDownloadIdx_ s; state_ := state_ s;
     closeOnOpen_ := closeOnOpen_ s;
     inactivityTimeoutLong_ := inactivityTimeoutLong_ s;
     inactivityTimeoutShort_ := inactivityTimeoutShort_ s;
     lastSecurityStatusUpdateTime_ := v;
     lastNavigateOperationTime_ := lastNavigateOperationTime_ s;
     paddedRootViewport_ := paddedRootViewport_ s; rootViewport_ := rootViewport_ s;
     widthSignal_ := widthSignal_ s; heightSignal_ := heightSignal_ s;
     downloads_ := downloads_ s; iframeQueue_ := iframeQueue_ s;
     browser_ := browser_ s |}.

Definition set_lastNavigateOperationTime_ (v : Z) (s : Session) : Session :=
  {| id_ := id_ s; isPopup_ := isPopup_ s; allowPNG_ := allowPNG_ s;
     prePrevVisited_ := prePrevVisited_ s; preMainVisited_ := preMainVisited_ s;
     prevNextClicked_ := prevNextClicked_ s; curMainIdx_ := curMainIdx_ s;
     curImgIdx_ := curImgIdx_ s; curEventIdx_ := curEventIdx_ s;
     curDownloadIdx_ := curDownloadIdx_ s; state_ := state_ s;
     closeOnOpen_ := closeOnOpen_ s;
     inactivityTimeoutLong_ := inactivityTimeoutLong_ s;
     inactivityTimeoutShort_ := inactivityTimeoutShort_ s;
     lastSecurityStatusUpdateTime_ := lastSecurityStatusUpdateTime_ s;
     lastNavigateOperationTime_ := v; paddedRootViewport_ := paddedRootViewport_ s;
     rootViewport_ := rootViewport_ s; widthSignal_ := widthSignal_ s;
     heightSignal_ := heightSignal_ s; downloads_ := downloads_ s;
     iframeQueue_ := iframeQueue_ s; browser_ := browser_ s |}.

Definition set_paddedRootViewport_ (v : ImageSlice) (s : Session) : Session :=
  {| id_ := id_ s; isPopup_ := isPopup_ s; allowPNG_ := allowPNG_ s;
     prePrevVisited_ := prePrevVisited_ s; preMainVisited_ := preMainVisited_ s;
     prevNextClicked_ := prevNextClicked_ s; curMainIdx_ := curMainIdx_ s;
     curImgIdx_ := curImgIdx_ s; curEventIdx_ := curEventIdx_ s;
     curDownloadIdx_ := curDownloadIdx_ s; state_ := state_ s;
     closeOnOpen_ := closeOnOpen_ s;
     inactivityTimeoutLong_ := inactivityTimeoutLong_ s;
     inactivityTimeoutShort_ := inactivityTimeoutShort_ s;
     lastSecurityStatusUpdateTime_ := lastSecurityStatusUpdateTime_ s;
     lastNavigateOperationTime_ := lastNavigateOperationTime_ s;
     paddedRootViewport_ := v; rootViewport_ := rootViewport_ s;
     widthSignal_ := widthSignal_ s; heightSignal_ := heightSignal_ s;
     downloads_ := downloads_ s; iframeQueue_ := iframeQueue_ s;
     browser_ := browser_ s |}.

Definition set_rootViewport_ (v : ImageSlice) (s : Session) : Session :=
  {| id_ := id_ s; isPopup_ := isPopup_ s; allowPNG_ := allowPNG_ s;
     prePrevVisited_ := prePrevVisited_ s; preMainVisited_ := preMainVisited_ s;
     prevNextClicked_ := prevNextClicked_ s; curMainIdx_ := curMainIdx_ s;
     curImgIdx_ := curImgIdx_ s; curEventIdx_ := curEventIdx_ s;
     curDownloadIdx_ := curDownloadIdx_ s; state_ := state_ s;
     closeOnOpen_ := closeOnOpen_ s;
     inactivityTimeoutLong_ := inactivityTimeoutLong_ s;
     inactivityTimeoutShort_ := inactivityTimeoutShort_ s;
     lastSecurityStatusUpdateTime_ := lastSecurityStatusUpdateTime_ s;
     lastNavigateOperationTime_ := lastNavigateOperationTime_ s;
     paddedRootViewport_ := paddedRootViewport_ s; rootViewport_ := v;
     widthSignal_ := widthSignal_ s; heightSignal_ := heightSignal_ s;
     downloads_ := downloads_ s; iframeQueue_ := iframeQueue_ s;
     browser_ := browser_ s |}.

Definition set_widthSignal_ (v : Z) (s : Session) : Session :=
  {| id_ := id_ s; isPopup_ := isPopup_ s; allowPNG_ := allowPNG_ s;
     prePrevVisited_ := prePrevVisited_ s; preMainVisited_ := preMainVisited_ s;
     prevNextClicked_ := prevNextClicked_ s; curMainIdx_ := curMainIdx_ s;
     curImgIdx_ := curImgIdx_ s; curEventIdx_ := curEventIdx_ s;
     curDownloadIdx_ := curDownloadIdx_ s; state_ := state_ s;
     closeOnOpen_ := closeOnOpen_ s;
     inactivityTimeoutLong_ := inactivityTimeoutLong_ s;
     inactivityTimeoutShort_ := inactivityTimeoutShort_ s;
     lastSecurityStatusUpdateTime_ := lastSecurityStatusUpdateTime_ s;
     lastNavigateOperationTime_ := lastNavigateOperationTime_ s;
     paddedRootViewport_ := paddedRootViewport_ s; rootViewport_ := rootViewport_ s;
     widthSignal_ := v; heightSignal_ := heightSignal_ s; downloads_ := downloads_ s;
     iframeQueue_ := iframeQueue_ s; browser_ := browser_ s |}.

Definition set_heightSignal_ (v : Z) (s : Session) : Session :=
  {| id_ := id_ s; isPopup_ := isPopup_ s; allowPNG_ := allowPNG_ s;
     prePrevVisited_ := prePrevVisited_ s; preMainVisited_ := preMainVisited_ s;
     prevNextClicked_ := prevNextClicked_ s; curMainIdx_ := curMainIdx_ s;
     curImgIdx_ := curImgIdx_ s; curEventIdx_ := curEventIdx_ s;
     curDownloadIdx_ := curDownloadIdx_ s; state_ := state_ s;
     closeOnOpen_ := closeOnOpen_ s;
     inactivityTimeoutLong_ := inactivityTimeoutLong_ s;
     inactivityTimeoutShort_ := inactivityTimeoutShort_ s;
     lastSecurityStatusUpdateTime_ := lastSecurityStatusUpdateTime_ s;
     lastNavigateOperationTime_ := lastNavigateOperationTime_ s;
     paddedRootViewport_ := paddedRootViewport_ s; rootViewport_ := rootViewport_ s;
     widthSignal_ := widthSignal_ s; heightSignal_ := v; downloads_ := downloads_ s;
     iframeQueue_ := iframeQueue_ s; browser_ := browser_ s |}.

Definition set_downloads_ (v : gmap Z (CompletedDownload * Timeout)) (s : Session) : Session :=
  {| id_ := id_ s; isPopup_ := isPopup_ s; allowPNG_ := allowPNG_ s;
     prePrevVisited_ := prePrevVisited_ s; preMainVisited_ := preMainVisited_ s;
     prevNextClicked_ := prevNextClicked_ s; curMainIdx_ := curMainIdx_ s;
     curImgIdx_ := curImgIdx_ s; curEventIdx_ := curEventIdx_ s;
     curDownloadIdx_ := curDownloadIdx_ s; state_ := state_ s;
     closeOnOpen_ := closeOnOpen_ s;
     inactivityTimeoutLong_ := inactivityTimeoutLong_ s;
     inactivityTimeoutShort_ := inactivityTimeoutShort_ s;
     lastSecurityStatusUpdateTime_ := lastSecurityStatusUpdateTime_ s;
     lastNavigateOperationTime_ := lastNavigateOperationTime_ s;
     paddedRootViewport_ := paddedRootViewport_ s; rootViewport_ := rootViewport_ s;
     widthSignal_ := widthSignal_ s; heightSignal_ := heightSignal_ s;
     downloads_ := v; iframeQueue_ := iframeQueue_ s; browser_ := browser_ s |}.

Definition set_iframeQueue_ (v : list Iframe) (s : Session) : Session :=
  {| id_ := id_ s; isPopup_ := isPopup_ s; allowPNG_ := allowPNG_ s;
     prePrevVisited_ := prePrevVisited_ s; preMainVisited_ := preMainVisited_ s;
     prevNextClicked_ := prevNextClicked_ s; curMainIdx_ := curMainIdx_ s;
     curImgIdx_ := curImgIdx_ s; curEventIdx_ := curEventIdx_ s;
     curDownloadIdx_ := curDownloadIdx_ s; state_ := state_ s;
     closeOnOpen_ := closeOnOpen_ s;
     inactivityTimeoutLong_ := inactivityTimeoutLong_ s;
     inactivityTimeoutShort_ := inactivityTimeoutShort_ s;
     lastSecurityStatusUpdateTime_ := lastSecurityStatusUpdateTime_ s;
     lastNavigateOperationTime_ := lastNavigateOperationTime_ s;
     paddedRootViewport_ := paddedRootViewport_ s; rootViewport_ := rootViewport_ s;
     widthSignal_ := widthSignal_ s; heightSignal_ := heightSignal_ s;
     downloads_ := downloads_ s; iframeQueue_ := v; browser_ := browser_ s |}.

Definition set_browser_ (v : bool) (s : Session) : Session :=
  {| id_ := id_ s; isPopup_ := isPopup_ s; allowPNG_ := allowPNG_ s;
     prePrevVisited_ := prePrevVisited_ s; preMainVisited_ := preMainVisited_ s;
     prevNextClicked_ := prevNextClicked_ s; curMainIdx_ := curMainIdx_ s;
     curImgIdx_ := curImgIdx_ s; curEventIdx_ := curEventIdx_ s;
     curDownloadIdx_ := curDownloadIdx_ s; state_ := state_ s;
     closeOnOpen_ := closeOnOpen_ s;
     inactivityTimeoutLong_ := inactivityTimeoutLong_ s;
     inactivityTimeoutShort_ := inactivityTimeoutShort_ s;
     lastSecurityStatusUpdateTime_ := lastSecurityStatusUpdateTime_ s;
     lastNavigateOperationTime_ := lastNavigateOperationTime_ s;
     paddedRootViewport_ := paddedRootViewport_ s; rootViewport_ := rootViewport_ s;
     widthSignal_ := widthSignal_ s; heightSignal_ := heightSignal_ s;
     downloads_ := downloads_ s; iframeQueue_ := iframeQueue_ s; browser_ := v |}.

(** ** Effects and commands *)

Inductive Page :=
| PreMainHTML (id : Z)
| MainHTML (id mainIdx : Z)
| PrePrevHTML (id : Z)
| PrevHTML (id : Z)
| NextHTML (id : Z)
| PopupIframeHTML (popupSessionID : Z)
| ClipboardIframeHTML
| DownloadIframeHTML (id downloadIdx : Z) (name : string).

Inductive LogLine :=
| LogOpening
| LogOpenFailed
| LogBrowserCreated
| LogCloseRequested
| LogCloseDeferred
| LogSessionClosed
| LogInactivityTimeout (shortened : bool)
| LogEventsSkipped (count : Z)
| LogCouldNotParseEvent (event : string)
| LogOpeningPopup
| LogPopupAborted.

(** What a method does outside the session object, in program order.
    [Transition] records an assignment to [state_] with the value it
    replaces, so that the states a callback passes through stay visible.
    [ProcessEvent idx ev ok] is the call processEvent(rootWidget_, ev) made
    under sequence number [idx], with the value it returned. *)
Inductive Effect :=
| SendTextResponse (status : Z) (text : string)
| SendHTMLResponse (status : Z) (page : Page)
| ServeFile (file : CompletedDownload)
| SendCompressedImageNow
| SendCompressedImageWait
| CompressorFlush
| UpdateImage (w h : Z)
| SetQuality (quality : Z)
| CloseBrowser
| GoBack
| Reload
| GoForward
| LoadURL (url : string)
| SetViewport (w h : Z)
| Render
| SendLoseFocusEvent
| SendMouseLeaveEvent
| ProcessEvent (eventIdx : Z) (event : string) (ok : bool)
| SetSecurityStatus
| WidgetCall (call : string)
| PostSessionClosed (id : Z)
| PopupSessionOpen (popupSessionID : Z)
| Log (line : LogLine)
| Transition (from to : State).

(** A method body: the session after it and what it did, or [None] when a
    REQUIRE failed (the process aborts). *)
Definition Cmd : Type := Session -> option (Session * list Effect).

Definition ret : Cmd := fun s => Some (s, []).

Definition andThen (c1 c2 : Cmd) : Cmd := fun s =>
  match c1 s with
  | Some (s1, t1) =>
      match c2 s1 with
      | Some (s2, t2) => Some (s2, t1 ++ t2)
      | None => None
      end
  | None => None
  end.

Notation "c1 >> c2" := (andThen c1 c2) (at level 62, right associativity).

Definition emit (e : Effect) : Cmd := fun s => Some (s, [e]).

Definition update (f : Session -> Session) : Cmd := fun s => Some (f s, []).

Definition REQUIRE (p : Session -> bool) : Cmd := fun s =>
  if p s then Some (s, []) else None.

Definition when (p : Session -> bool) (c : Cmd) : Cmd := fun s =>
  if p s then c s else ret s.

Definition ifElse (p : Session -> bool) (c1 c2 : Cmd) : Cmd := fun s =>
  if p s then c1 s else c2 s.

(** state_ = st *)
Definition setState (st : State) : Cmd := fun s =>
  Some (set_state_ st s, [Transition (state_ s) st]).

Definition incr64 (x : Z) : Z := (x + 1) mod 2 ^ 64.

Definition isLive (s : Session) : bool :=
  State_eqb (state_ s) Pending || State_eqb (state_ s) Open.

(** ** Requests and routing *)

Record HTTPRequest := { method : string; path : string }.

(** The parsed submatches of an image-poll path. *)
Record ImageArgs := {
  a_mainIdx : Z;
  a_imgIdx : Z;
  a_immediate : Z;
  a_width : Z;
  a_height : Z;
  a_startEventIdx : Z;
  a_events : string
}.

(** regex_match(path, match, imagePathRegex) followed by the six
    parseString calls; [None] when the path does not match or a number
    does not parse, in which case the handler falls through. *)
Definition imageRoute (p : string) : option ImageArgs :=
  match imagePathRegex p with
  | Some m =>
      match parseString_uint64 (m_mainIdx m), parseString_uint64 (m_imgIdx m),
            parseString_int (m_immediate m), parseString_int (m_width m),
            parseString_int (m_height m), parseString_uint64 (m_startEventIdx m) with
      | Some mainIdx, Some imgIdx, Some immediate, Some w, Some h, Some startEventIdx =>
          Some (Build_ImageArgs mainIdx imgIdx immediate w h startEventIdx (m_events m))
      | _, _, _, _, _, _ => None
      end
  | None => None
  end.

Definition indexRoute (regex : string -> option string) (p : string) : option Z :=
  match regex p with
  | Some g1 => parseString_uint64 g1
  | None => None
  end.

(** The branch of handleHTTPRequest a request ends in.  The tests are made
    in the order of the source; a branch whose regex matches but whose
    number does not parse is left for the next test. *)
Inductive Route :=
| RouteImage (a : ImageArgs)
| RouteIframe (mainIdx : Z)
| RouteDownload (downloadIdx : Z)
| RouteClose (mainIdx : Z)
| RouteMain
| RoutePrev
| RouteNext
| RouteInvalid.

Definition route (request : HTTPRequest) : Route :=
  if String.eqb (method request) "GET" then
    match imageRoute (path request) with
    | Some a => RouteImage a
    | None =>
    match indexRoute iframePathRegex (path request) with
    | Some mainIdx => RouteIframe mainIdx
    | None =>
    match indexRoute downloadPathRegex (path request) with
    | Some downloadIdx => RouteDownload downloadIdx
    | None =>
    match indexRoute closePathRegex (path request) with
    | Some mainIdx => RouteClose mainIdx
    | None =>
    if mainPathRegex (path request) then RouteMain
    else if prevPathRegex (path request) then RoutePrev
    else if nextPathRegex (path request) then RouteNext
    else RouteInvalid
    end end end end
  else RouteInvalid.


(** ** The methods of Session *)

(** What the session code takes from declarations outside src/
    (session.hpp, widget.hpp, event.hpp): the two signal moduli, the two
    values of the width signal, the cursor codes, and processEvent, which
    parses one event text and forwards the input to the widget tree; it
    returns false when the text does not parse, and then forwards nothing. *)
Class Externals := {
  WidthSignalModulus : Z;
  HeightSignalModulus : Z;
  WidthSignalNoNewIframe : Z;
  WidthSignalNewIframe : Z;
  NormalCursor : Z;
  CursorTypeCount : Z;
  processEvent : string -> bool
}.

Section SessionMethods.

Context {ext : Externals}.

(** Session::Session: the members right after the constructor. *)
Definition Session_new (now id : Z) (allowPNG isPopup : bool) : Session :=
  let padded :=
    createImage (800 + WidthSignalModulus - 1) (600 + HeightSignalModulus - 1) in
  {| id_ := id; isPopup_ := isPopup; allowPNG_ := allowPNG;
     prePrevVisited_ := false; preMainVisited_ := false; prevNextClicked_ := false;
     curMainIdx_ := 0; curImgIdx_ := 0; curEventIdx_ := 0; curDownloadIdx_ := 0;
     state_ := Pending; closeOnOpen_ := false;
     inactivityTimeoutLong_ := Timeout_create 30000;
     inactivityTimeoutShort_ := Timeout_create 4000;
     lastSecurityStatusUpdateTime_ := now; lastNavigateOperationTime_ := now;
     paddedRootViewport_ := padded; rootViewport_ := subRect 800 600 padded;
     widthSignal_ := WidthSignalNoNewIframe; heightSignal_ := NormalCursor;
     downloads_ := ∅; iframeQueue_ := []; browser_ := false |}.

(** Session::close *)
Definition close : Cmd := fun s =>
  match state_ s with
  | Open =>
      (emit (Log LogCloseRequested) >>
       setState Closing >>
       REQUIRE browser_ >>
       emit CloseBrowser >>
       emit CompressorFlush) s
  | Pending =>
      (emit (Log LogCloseDeferred) >>
       update (set_closeOnOpen_ true)) s
  | _ => ret s
  end.

(** Session::updateInactivityTimeout_ *)
Definition updateInactivityTimeout_ (now : Z) (shortened : bool) : Cmd :=
  update (fun s => set_inactivityTimeoutLong_ (Timeout_clear (inactivityTimeoutLong_ s)) s) >>
  update (fun s => set_inactivityTimeoutShort_ (Timeout_clear (inactivityTimeoutShort_ s)) s) >>
  when isLive
    (if shortened
     then update (fun s =>
            set_inactivityTimeoutShort_ (Timeout_set now (inactivityTimeoutShort_ s)) s)
     else update (fun s =>
            set_inactivityTimeoutLong_ (Timeout_set now (inactivityTimeoutLong_ s)) s)).

(** The callback that updateInactivityTimeout_ hands to the timeout, run
    when the armed timeout falls due. *)
Definition inactivityTimeoutReached (shortened : bool) : Cmd :=
  when isLive (emit (Log (LogInactivityTimeout shortened)) >> close).

(** Session::updateSecurityStatus_; the status itself is read off the
    browser. *)
Definition updateSecurityStatus_ (now : Z) : Cmd :=
  update (set_lastSecurityStatusUpdateTime_ now) >>
  emit SetSecurityStatus.

(** Session::updateRootViewportSize_ *)
Definition updateRootViewportSize_ (w h : Z) : Cmd :=
  let w := Z.max (Z.min w 4096) 64 in
  let h := Z.max (Z.min h 4096) 64 in
  when (fun s => negb (width (rootViewport_ s) =? w) || negb (height (rootViewport_ s) =? h))
    (update (set_paddedRootViewport_
               (createImage (w + WidthSignalModulus - 1) (h + HeightSignalModulus - 1))) >>
     update (fun s => set_rootViewport_ (subRect w h (paddedRootViewport_ s)) s) >>
     emit (SetViewport w h)).

(** while(x % modulus != signal) --x;  the C++ remainder truncates.  The
    loop is cut off after [fuel] decrements. *)
Fixpoint signalLoop (fuel : nat) (modulus signal x : Z) : option Z :=
  if Z.rem x modulus =? signal then Some x
  else match fuel with
       | O => None
       | S fuel' => signalLoop fuel' modulus signal (x - 1)
       end.

(** Session::sendViewportToCompressor_.  Each loop gets as many decrements
    as its modulus: the remainders of that many consecutive values cover
    every signal the REQUIREs let through, so a loop that is cut off would
    not have ended either ([None] stands for that too). *)
Definition sendViewportToCompressor_ : Cmd :=
  REQUIRE (fun s => (0 <=? widthSignal_ s) && (widthSignal_ s <? WidthSignalModulus)) >>
  REQUIRE (fun s => (0 <=? heightSignal_ s) && (heightSignal_ s <? HeightSignalModulus)) >>
  fun s =>
    match signalLoop (Z.to_nat WidthSignalModulus) WidthSignalModulus
                     (widthSignal_ s) (width (paddedRootViewport_ s)),
          signalLoop (Z.to_nat HeightSignalModulus) HeightSignalModulus
                     (heightSignal_ s) (height (paddedRootViewport_ s)) with
    | Some w, Some h => emit (UpdateImage w h) s
    | _, _ => None
    end.

(** The body of the inner loop of handleEvents_ for one character, with the
    event text read so far; [eventIdx] is the sequence number of the event
    being read. *)
Fixpoint handleEvents_loop (rest event : string) (eventIdx : Z) : Cmd :=
  match rest with
  | EmptyString => ret
  | String c rest' =>
      let event' := String.append event (String c EmptyString) in
      if Ascii.eqb c slash then
        fun s =>
          if eventIdx =? curEventIdx_ s then
            (emit (ProcessEvent eventIdx event' (processEvent event')) >>
             (if processEvent event' then ret
              else emit (Log (LogCouldNotParseEvent event'))) >>
             update (set_curEventIdx_ (incr64 eventIdx)) >>
             handleEvents_loop rest' EmptyString (incr64 eventIdx)) s
          else handleEvents_loop rest' EmptyString (incr64 eventIdx) s
      else handleEvents_loop rest' event' eventIdx
  end.

(** Session::handleEvents_ *)
Definition handleEvents_ (startIdx : Z) (events : string) : Cmd :=
  when (fun s => curEventIdx_ s <? startIdx)
    (fun s =>
       (emit (Log (LogEventsSkipped (startIdx - curEventIdx_ s))) >>
        update (set_curEventIdx_ startIdx)) s) >>
  handleEvents_loop events EmptyString startIdx.

(** Session::setWidthSignal_ *)
Definition setWidthSignal_ (newWidthSignal : Z) : Cmd :=
  when (fun s => negb (newWidthSignal =? widthSignal_ s))
    (update (set_widthSignal_ newWidthSignal) >> sendViewportToCompressor_).

(** Session::setHeightSignal_ *)
Definition setHeightSignal_ (newHeightSignal : Z) : Cmd :=
  when (fun s => negb (newHeightSignal =? heightSignal_ s))
    (update (set_heightSignal_ newHeightSignal) >> sendViewportToCompressor_).

(** Session::addIframe_ *)
Definition addIframe_ (iframe : Iframe) : Cmd :=
  update (fun s => set_iframeQueue_ (iframeQueue_ s ++ [iframe]) s) >>
  setWidthSignal_ WidthSignalNewIframe.

(** Session::navigate_ *)
Definition navigate_ (now direction : Z) : Cmd :=
  REQUIRE (fun _ => (-1 <=? direction) && (direction <=? 1)) >>
  fun s =>
    if elapsed_ms now (lastNavigateOperationTime_ s) <=? 200 then ret s
    else
      (update (set_lastNavigateOperationTime_ now) >>
       when browser_
         ((if direction =? -1 then emit GoBack else ret) >>
          (if direction =? 0 then emit Reload else ret) >>
          (if direction =? 1 then emit GoForward else ret))) s.

(** Running a queued iframe closure on the request that polls for it. *)
Definition runIframe (now : Z) (iframe : Iframe) : Cmd :=
  match iframe with
  | PopupIframe popupSessionID =>
      emit (SendHTMLResponse 200 (PopupIframeHTML popupSessionID))
  | ClipboardIframe =>
      emit (SendHTMLResponse 200 ClipboardIframeHTML)
  | DownloadIframe file =>
      update (fun s => set_curDownloadIdx_ (incr64 (curDownloadIdx_ s)) s) >>
      REQUIRE (fun s =>
        match downloads_ s !! curDownloadIdx_ s with Some _ => false | None => true end) >>
      update (fun s =>
        set_downloads_
          (<[curDownloadIdx_ s := (file, Timeout_set now (Timeout_create 10000))]>
             (downloads_ s)) s) >>
      fun s =>
        emit (SendHTMLResponse 200
                (DownloadIframeHTML (id_ s) (curDownloadIdx_ s) (file_name file))) s
  end.

(** The callback of a download's timeout, run when it falls due. *)
Definition downloadTimeoutReached (downloadIdx : Z) : Cmd :=
  update (fun s => set_downloads_ (delete downloadIdx (downloads_ s)) s).

(** The image-poll branch of handleHTTPRequest, after the numbers parsed. *)
Definition imageRequest (now : Z) (a : ImageArgs) : Cmd := fun s =>
  if negb (a_mainIdx a =? curMainIdx_ s) || (a_imgIdx a <=? curImgIdx_ s) then
    emit (SendTextResponse 400 "ERROR: Outdated request") s
  else
    (updateInactivityTimeout_ now false >>
     handleEvents_ (a_startEventIdx a) (a_events a) >>
     update (set_curImgIdx_ (a_imgIdx a)) >>
     updateRootViewportSize_ (a_width a) (a_height a) >>
     (if a_immediate a =? 0 then emit SendCompressedImageWait
      else emit SendCompressedImageNow)) s.

(** The iframe-poll branch. *)
Definition iframeRequest (now mainIdx : Z) : Cmd := fun s =>
  if negb (mainIdx =? curMainIdx_ s) then
    emit (SendTextResponse 400 "ERROR: Outdated request") s
  else
    match iframeQueue_ s with
    | [] => emit (SendTextResponse 200 "OK") s
    | iframe :: queue =>
        (updateInactivityTimeout_ now false >>
         update (set_iframeQueue_ queue) >>
         when (fun s => match iframeQueue_ s with [] => true | _ => false end)
           (setWidthSignal_ WidthSignalNoNewIframe) >>
         runIframe now iframe) s
    end.

(** The download branch. *)
Definition downloadRequest (downloadIdx : Z) : Cmd := fun s =>
  match downloads_ s !! downloadIdx with
  | None => emit (SendTextResponse 400 "ERROR: Outdated download index") s
  | Some (file, _) => emit (ServeFile file) s
  end.

(** The close branch. *)
Definition closeRequest (now mainIdx : Z) : Cmd := fun s =>
  if negb (mainIdx =? curMainIdx_ s) then
    emit (SendTextResponse 400 "ERROR: Outdated request") s
  else
    (update (fun s => set_curMainIdx_ (incr64 (curMainIdx_ s)) s) >>
     update (set_curImgIdx_ 0) >>
     update (set_curEventIdx_ 0) >>
     updateInactivityTimeout_ now true >>
     emit (SendTextResponse 200 "OK")) s.

(** The main-page branch. *)
Definition mainRequest (now : Z) : Cmd :=
  updateInactivityTimeout_ now false >>
  ifElse preMainVisited_
    (update (fun s => set_curMainIdx_ (incr64 (curMainIdx_ s)) s) >>
     when (fun s => (1 <? curMainIdx_ s) && negb (prevNextClicked_ s))
       (navigate_ now 0) >>
     update (set_prevNextClicked_ false) >>
     emit SendLoseFocusEvent >>
     emit SendMouseLeaveEvent >>
     update (set_curImgIdx_ 0) >>
     update (set_curEventIdx_ 0) >>
     fun s => emit (SendHTMLResponse 200 (MainHTML (id_ s) (curMainIdx_ s))) s)
    ((fun s => emit (SendHTMLResponse 200 (PreMainHTML (id_ s))) s) >>
     update (set_preMainVisited_ true)).

(** The prev branch. *)
Definition prevRequest (now : Z) : Cmd :=
  updateInactivityTimeout_ now false >>
  when (fun s => (0 <? curMainIdx_ s) && negb (prevNextClicked_ s))
    (update (set_prevNextClicked_ true) >> navigate_ now (-1)) >>
  ifElse prePrevVisited_
    (fun s => emit (SendHTMLResponse 200 (PrevHTML (id_ s))) s)
    ((fun s => emit (SendHTMLResponse 200 (PrePrevHTML (id_ s))) s) >>
     update (set_prePrevVisited_ true)).

(** The next branch. *)
Definition nextRequest (now : Z) : Cmd :=
  updateInactivityTimeout_ now false >>
  when (fun s => (0 <? curMainIdx_ s) && negb (prevNextClicked_ s))
    (update (set_prevNextClicked_ true) >> navigate_ now 1) >>
  fun s => emit (SendHTMLResponse 200 (NextHTML (id_ s))) s.

(** The branches of handleHTTPRequest, by the route of the request. *)
Definition dispatch (now : Z) (r : Route) : Cmd :=
  match r with
  | RouteImage a => imageRequest now a
  | RouteIframe mainIdx => iframeRequest now mainIdx
  | RouteDownload downloadIdx => downloadRequest downloadIdx
  | RouteClose mainIdx => closeRequest now mainIdx
  | RouteMain => mainRequest now
  | RoutePrev => prevRequest now
  | RouteNext => nextRequest now
  | RouteInvalid =>
      emit (SendTextResponse 400 "ERROR: Invalid request URI or method")
  end.

(** Session::handleHTTPRequest, at clock reading [now]. *)
Definition handleHTTPRequest (now : Z) (request : HTTPRequest) : Cmd := fun s =>
  if State_eqb (state_ s) Closing || State_eqb (state_ s) Closed then
    emit (SendTextResponse 503 "ERROR: Browser session has been closed") s
  else
    (when (fun s => 1000 <=? elapsed_ms now (lastSecurityStatusUpdateTime_ s))
       (updateSecurityStatus_ now) >>
     dispatch now (route request)) s.

(** Session::afterConstruct_; [created] is the result of
    CefBrowserHost::CreateBrowser. *)
Definition afterConstruct_ (now : Z) (created : bool) : Cmd :=
  (fun s => emit (SetViewport (width (rootViewport_ s)) (height (rootViewport_ s))) s) >>
  when (fun s => negb (isPopup_ s) && negb created)
    (emit (Log LogOpenFailed) >>
     setState Closed >>
     fun s => emit (PostSessionClosed (id_ s)) s) >>
  updateInactivityTimeout_ now false.

(** Session::create: the constructor, then afterConstruct_. *)
Definition Session_create (now id : Z) (allowPNG isPopup created : bool)
  : option (Session * list Effect) :=
  (emit (Log LogOpening) >> afterConstruct_ now created)
    (Session_new now id allowPNG isPopup).

(** Session::Client::OnAfterCreated *)
Definition OnAfterCreated : Cmd :=
  REQUIRE (fun s => State_eqb (state_ s) Pending) >>
  emit (Log LogBrowserCreated) >>
  update (set_browser_ true) >>
  setState Open >>
  emit (WidgetCall "browserArea.setBrowser") >>
  when closeOnOpen_ close.

(** Session::Client::OnBeforeClose *)
Definition OnBeforeClose (now : Z) : Cmd :=
  REQUIRE (fun s => State_eqb (state_ s) Open || State_eqb (state_ s) Closing) >>
  setState Closed >>
  update (set_browser_ false) >>
  emit (WidgetCall "browserArea.setBrowser") >>
  emit CompressorFlush >>
  emit (Log LogSessionClosed) >>
  (fun s => emit (PostSessionClosed (id_ s)) s) >>
  updateInactivityTimeout_ now false.

(** Session::Client::OnBeforePopup; [handlerAlive] tells whether the event
    handler could be locked, [serverFull] is its answer to
    onIsServerFullQuery and [popupSessionID] the id of the new session. *)
Definition OnBeforePopup (handlerAlive serverFull : bool) (popupSessionID : Z) : Cmd :=
  if negb handlerAlive then ret
  else
    emit (Log LogOpeningPopup) >>
    (if serverFull then emit (Log LogPopupAborted)
     else emit (PopupSessionOpen popupSessionID) >>
          addIframe_ (PopupIframe popupSessionID)).

(** Session::Client::OnPreKeyEvent, by what it reads off the key event. *)
Definition OnPreKeyEvent (now : Z) (backspace editable shift : bool) : Cmd :=
  if backspace && negb editable then navigate_ now (if shift then 1 else -1)
  else ret.

Inductive GlobalHotkey := HotkeyAddress | HotkeyFind | HotkeyFindNext | HotkeyRefresh.

(** Session::onGlobalHotkeyPressed (the posted task). *)
Definition onGlobalHotkeyPressed (now : Z) (key : GlobalHotkey) : Cmd :=
  match key with
  | HotkeyAddress => emit (WidgetCall "activateAddress")
  | HotkeyFind => emit (WidgetCall "openFindBar")
  | HotkeyFindNext => emit (WidgetCall "findNext")
  | HotkeyRefresh => navigate_ now 0
  end.

(** Session::onWidgetViewDirty (the posted task). *)
Definition onWidgetViewDirty : Cmd := emit Render >> sendViewportToCompressor_.

(** Session::onWidgetCursorChanged (the posted task); [cursor] is what
    rootWidget_->cursor() returns. *)
Definition onWidgetCursorChanged (cursor : Z) : Cmd :=
  REQUIRE (fun _ => (0 <=? cursor) && (cursor <? CursorTypeCount)) >>
  setHeightSignal_ cursor.

(** Session::onBrowserAreaViewDirty *)
Definition onBrowserAreaViewDirty : Cmd := sendViewportToCompressor_.

(** Session::onClipboardButtonPressed *)
Definition onClipboardButtonPressed : Cmd := addIframe_ ClipboardIframe.

(** Session::onDownloadCompleted *)
Definition onDownloadCompleted (file : CompletedDownload) : Cmd :=
  addIframe_ (DownloadIframe file).

(** Session::onAddressSubmitted; [hasFrame] tells whether the browser has
    a main frame. *)
Definition onAddressSubmitted (url : string) (hasFrame : bool) : Cmd :=
  when browser_
    (if nonempty url && hasFrame
     then emit (LoadURL url) >> emit (WidgetCall "browserArea.takeFocus")
     else ret).

(** Session::onQualityChanged *)
Definition onQualityChanged (quality : Z) : Cmd := emit (SetQuality quality).

(** ** The session-owning loop *)

(** Everything the loop can run on a session: requests, calls from the
    server, callbacks of the browser and of the widgets, and timeouts that
    fall due.  Each carries the clock reading it runs at where it reads
    the clock.  [OpSecurityStatus] stands for the callbacks that end in
    updateSecurityStatus_ (OnLoadingStateChange, OnAddressChange,
    GetResourceRequestHandler); [OpForward] for the methods that only pass
    a call on to a widget, the browser or the download manager (onFind,
    onStopFind, onPendingDownloadAccepted, onPendingDownloadCountChanged,
    onDownloadProgressChanged, OnLoadStart, OnLoadError, OnCursorChange,
    OnFindResult, OnCertificateError). *)
Inductive Op :=
| OpRequest (now : Z) (request : HTTPRequest)
| OpClose
| OpAfterCreated
| OpBeforeClose (now : Z)
| OpBeforePopup (handlerAlive serverFull : bool) (popupSessionID : Z)
| OpPreKeyEvent (now : Z) (backspace editable shift : bool)
| OpGlobalHotkey (now : Z) (key : GlobalHotkey)
| OpWidgetViewDirty
| OpWidgetCursorChanged (cursor : Z)
| OpBrowserAreaViewDirty
| OpClipboardButton
| OpDownloadCompleted (file : CompletedDownload)
| OpAddressSubmitted (url : string) (hasFrame : bool)
| OpQualityChanged (quality : Z)
| OpSecurityStatus (now : Z)
| OpForward (call : string)
| OpInactivityTimeout (now : Z) (shortened : bool)
| OpDownloadTimeout (now : Z) (downloadIdx : Z).

(** Modelled from the spec: the Timeout class is declared outside src/.
    The loop runs the callback of an armed timeout once its delay has
    passed, and the timeout is disarmed by firing. *)
Definition fireInactivityTimeout (now : Z) (shortened : bool) : Cmd := fun s =>
  let t := if shortened then inactivityTimeoutShort_ s else inactivityTimeoutLong_ s in
  if Timeout_due now t then
    ((if shortened
      then update (set_inactivityTimeoutShort_ (Timeout_clear t))
      else update (set_inactivityTimeoutLong_ (Timeout_clear t))) >>
     inactivityTimeoutReached shortened) s
  else ret s.

(** Modelled from the spec: as [fireInactivityTimeout], for the timeout
    stored with a download. *)
Definition fireDownloadTimeout (now downloadIdx : Z) : Cmd := fun s =>
  match downloads_ s !! downloadIdx with
  | Some (_, t) => if Timeout_due now t then downloadTimeoutReached downloadIdx s else ret s
  | None => ret s
  end.

Definition run (op : Op) : Cmd :=
  match op with
  | OpRequest now request => handleHTTPRequest now request
  | OpClose => close
  | OpAfterCreated => OnAfterCreated
  | OpBeforeClose now => OnBeforeClose now
  | OpBeforePopup handlerAlive serverFull popupSessionID =>
      OnBeforePopup handlerAlive serverFull popupSessionID
  | OpPreKeyEvent now backspace editable shift =>
      OnPreKeyEvent now backspace editable shift
  | OpGlobalHotkey now key => onGlobalHotkeyPressed now key
  | OpWidgetViewDirty => onWidgetViewDirty
  | OpWidgetCursorChanged cursor => onWidgetCursorChanged cursor
  | OpBrowserAreaViewDirty => onBrowserAreaViewDirty
  | OpClipboardButton => onClipboardButtonPressed
  | OpDownloadCompleted file => onDownloadCompleted file
  | OpAddressSubmitted url hasFrame => onAddressSubmitted url hasFrame
  | OpQualityChanged quality => onQualityChanged quality
  | OpSecurityStatus now => updateSecurityStatus_ now
  | OpForward call => emit (WidgetCall call)
  | OpInactivityTimeout now shortened => fireInactivityTimeout now shortened
  | OpDownloadTimeout now downloadIdx => fireDownloadTimeout now downloadIdx
  end.

(** Running a list of operations in order. *)
Fixpoint runAll (ops : list Op) : Cmd :=
  match ops with
  | [] => ret
  | op :: ops' => run op >> runAll ops'
  end.

(** The sessions the loop can hold: one that Session::create returned,
    after any operations that did not abort. *)
Inductive reachable : Session -> Prop :=
| reachable_create now id allowPNG isPopup created s t :
    Session_create now id allowPNG isPopup created = Some (s, t) ->
    reachable s
| reachable_run op s s' t :
    reachable s -> run op s = Some (s', t) -> reachable s'.

(** ** Observations used by the statements *)

(** The number of '/' in an event batch: the number of events it holds. *)
Fixpoint slashes (s : string) : Z :=
  match s with
  | EmptyString => 0
  | String c rest => (if Ascii.eqb c slash then 1 else 0) + slashes rest
  end.

(** The sequence numbers under which processEvent was called, in order. *)
Definition processed (t : list Effect) : list Z :=
  flat_map (fun e => match e with ProcessEvent idx _ _ => [idx] | _ => [] end) t.

(** A batch whose sequence numbers stay below 2^64. *)
Definition batchFits (startIdx : Z) (events : string) : Prop :=
  0 <= startIdx /\ startIdx + slashes events < 2 ^ 64.

(** What updateInactivityTimeout_ leaves behind: both timeouts cleared,
    then one of them armed if the session is Pending or Open. *)
Definition rearmed (now : Z) (shortened : bool) (s : Session) : Session :=
  let long := Timeout_clear (inactivityTimeoutLong_ s) in
  let short := Timeout_clear (inactivityTimeoutShort_ s) in
  if isLive s then
    if shortened
    then set_inactivityTimeoutShort_ (Timeout_set now short) (set_inactivityTimeoutLong_ long s)
    else set_inactivityTimeoutLong_ (Timeout_set now long) (set_inactivityTimeoutShort_ short s)
  else set_inactivityTimeoutShort_ short (set_inactivityTimeoutLong_ long s).

(** The commands navigate_ can send to the browser. *)
Definition isNavigation (e : Effect) : bool :=
  match e with
  | GoBack | Reload | GoForward => true
  | _ => false
  end.

Definition navigations (t : list Effect) : list Effect := List.filter isNavigation t.

(** The padded buffer is the logical viewport plus the room for the two
    signals, and the logical viewport is within the clamp. *)
Definition viewportFits (s : Session) : Prop :=
  64 <= width (rootViewport_ s) <= 4096 /\
  64 <= height (rootViewport_ s) <= 4096 /\
  width (paddedRootViewport_ s) = width (rootViewport_ s) + WidthSignalModulus - 1 /\
  height (paddedRootViewport_ s) = height (rootViewport_ s) + HeightSignalModulus - 1.

Definition clamp (x : Z) : Z := Z.max (Z.min x 4096) 64.

(** The assignments to state_ in a trace, as (old, new) pairs. *)
Definition transitions (t : list Effect) : list (State * State) :=
  flat_map (fun e => match e with Transition a b => [(a, b)] | _ => [] end) t.

(** The edges named by the spec: the chain Pending, Open, Closing, Closed
    and the short cut from Pending to Closed. *)
Definition chainEdge (a b : State) : bool :=
  match a, b with
  | Pending, Open | Open, Closing | Closing, Closed | Pending, Closed => true
  | _, _ => false
  end.

(** The edges the code takes: those, and Open to Closed. *)
Definition stateEdge (a b : State) : bool :=
  chainEdge a b || (State_eqb a Open && State_eqb b Closed).

(** Walking from [st] along the recorded assignments: each must start
    where the last one ended and be an edge; the result is the state at
    the end. *)
Fixpoint walk (edge : State -> State -> bool) (st : State)
    (steps : list (State * State)) : option State :=
  match steps with
  | [] => Some st
  | (a, b) :: steps' =>
      if State_eqb a st && edge a b then walk edge b steps' else None
  end.

(** The effects of handleEvents_: calls of processEvent and log lines. *)
Definition eventEffect (e : Effect) : Prop :=
  match e with
  | ProcessEvent _ _ _ | Log _ => True
  | _ => False
  end.

(** The counters are not at the top of their 64 bits: the next increment
    does not wrap. *)
Definition countersBelowTop (s : Session) : Prop :=
  0 <= curMainIdx_ s /\ curMainIdx_ s + 1 < 2 ^ 64 /\
  0 <= curDownloadIdx_ s /\ curDownloadIdx_ s + 1 < 2 ^ 64 /\
  0 <= curEventIdx_ s.

(** An operation whose event batch, if it is an image poll, stays below
    2^64. *)
Definition opFits (op : Op) : Prop :=
  match op with
  | OpRequest _ request =>
      match route request with
      | RouteImage a => batchFits (a_startEventIdx a) (a_events a)
      | _ => True
      end
  | _ => True
  end.

(** A response that carries what was asked for: status 200, an image, or
    a download. *)
Definition isSuccess (e : Effect) : bool :=
  match e with
  | SendTextResponse status _ | SendHTMLResponse status _ => status =? 200
  | SendCompressedImageNow | SendCompressedImageWait | ServeFile _ => true
  | _ => false
  end.

(** The request was accepted: the trace holds a success response. *)
Definition succeeded (t : list Effect) : bool := existsb isSuccess t.

(** The long inactivity timeout was armed at [now] and the short one is
    disarmed. *)
Definition longRearmed (now : Z) (s s' : Session) : Prop :=
  inactivityTimeoutLong_ s' = Timeout_set now (inactivityTimeoutLong_ s) /\
  inactivityTimeoutShort_ s' = Timeout_clear (inactivityTimeoutShort_ s).

(** The short inactivity timeout was armed at [now] and the long one is
    disarmed. *)
Definition shortArmed (now : Z) (s s' : Session) : Prop :=
  inactivityTimeoutShort_ s' = Timeout_set now (inactivityTimeoutShort_ s) /\
  inactivityTimeoutLong_ s' = Timeout_clear (inactivityTimeoutLong_ s).

Definition timersUntouched (s s' : Session) : Prop :=
  inactivityTimeoutLong_ s' = inactivityTimeoutLong_ s /\
  inactivityTimeoutShort_ s' = inactivityTimeoutShort_ s.

(** The session after the periodic security status refresh at the head of
    handleHTTPRequest, and what the refresh emits. *)
Definition refreshed (now : Z) (s : Session) : Session :=
  if 1000 <=? elapsed_ms now (lastSecurityStatusUpdateTime_ s)
  then set_lastSecurityStatusUpdateTime_ now s else s.

Definition refreshTrace (now : Z) (s : Session) : list Effect :=
  if 1000 <=? elapsed_ms now (lastSecurityStatusUpdateTime_ s)
  then [SetSecurityStatus] else [].

(** An operation that stays within the page generation: not a request to
    the close endpoint or for the main page (both reset eventIdx), and,
    if an image poll, one whose batch stays below 2^64. *)
Definition keepsGeneration (op : Op) : Prop :=
  match op with
  | OpRequest _ request =>
      match route request with
      | RouteImage a => batchFits (a_startEventIdx a) (a_events a)
      | RouteClose _ | RouteMain => False
      | _ => True
      end
  | _ => True
  end.

(** An event text up to its '/': no '/' inside. *)
Definition noSlash (tok : string) : bool :=
  string_forall (fun c => negb (Ascii.eqb c slash)) tok.

(** A command that no REQUIRE stops. *)
Definition total (c : Cmd) : Prop := forall s, exists s' t, c s = Some (s', t).

(** Sequence numbers without repeats, all in [lo, hi). *)
Definition withinRange (lo hi : Z) (l : list Z) : Prop :=
  NoDup l /\ Forall (fun i => lo <= i < hi) l.

(** A batch that ends where an event ends: empty, or with '/' as its last
    character. *)
Fixpoint wholeEvents (events : string) : bool :=
  match events with
  | EmptyString => true
  | String c rest =>
      match rest with
      | EmptyString => Ascii.eqb c slash
      | String _ _ => wholeEvents rest
      end
  end.

(** The value of the variable eventIdx of handleEvents_ after its loop has
    read [events], entered with [eventIdx]: one increment for each '/'. *)
Fixpoint eventIdxAfter (events : string) (eventIdx : Z) : Z :=
  match events with
  | EmptyString => eventIdx
  | String c rest =>
      if Ascii.eqb c slash then eventIdxAfter rest (incr64 eventIdx)
      else eventIdxAfter rest eventIdx
  end.

(** ** Download timeouts that fire when due *)

(** The reading of steady_clock an operation runs at, for the operations
    that are given one. *)
Definition clockOf (op : Op) : option Z :=
  match op with
  | OpRequest now _ | OpBeforeClose now | OpPreKeyEvent now _ _ _
  | OpGlobalHotkey now _ | OpSecurityStatus now
  | OpInactivityTimeout now _ | OpDownloadTimeout now _ => Some now
  | _ => None
  end.

(** Modelled from the spec: the Timeout class and the loop that runs its
    callbacks are declared outside src/.  A timeout that was set runs its
    callback when its delay has passed: by clock reading [now] the loop has
    run the callback of every download timeout that expired at or before
    [now]. *)
Definition fireDueDownloads (now : Z) : Cmd := fun s =>
  runAll (map (OpDownloadTimeout now) (map fst (map_to_list (downloads_ s)))) s.

(** An operation of the loop, after the download timeouts that are due at
    its clock reading. *)
Definition runTimely (op : Op) : Cmd :=
  match clockOf op with
  | Some now => fireDueDownloads now >> run op
  | None => run op
  end.

Fixpoint runAllTimely (ops : list Op) : Cmd :=
  match ops with
  | [] => ret
  | op :: ops' => runTimely op >> runAllTimely ops'
  end.

(** An operation that ran at clock reading [at_] or before. *)
Definition notAfter (at_ : Z) (op : Op) : Prop :=
  match clockOf op with
  | Some now => now <= at_
  | None => True
  end.
End SessionMethods.

(** ** A concrete instance *)

(** A stand-in for processEvent: an event text parses when it starts with
    an upper-case letter. *)
Definition exampleProcessEvent (event : string) : bool :=
  match event with
  | String c _ => is_upper c
  | EmptyString => false
  end.

(** Wmod = 4 and Hmod = 8; width signal 0 while no iframe waits and 1 while
    one does; cursor codes 0, 1, 2. *)
Definition exampleExternals : Externals := {|
  WidthSignalModulus := 4;
  HeightSignalModulus := 8;
  WidthSignalNoNewIframe := 0;
  WidthSignalNewIframe := 1;
  NormalCursor := 0;
  CursorTypeCount := 3;
  processEvent := exampleProcessEvent
|}.

Definition GET (p : string) : HTTPRequest := {| method := "GET"; path := p |}.

(** Milliseconds as clock ticks. *)
Definition ms (n : Z) : Z := n * ticks_per_ms.

(** Session 7 right after its constructor, at clock reading 0. *)
Definition freshSession : Session := @Session_new exampleExternals 0 7 true false.

(** Session 7 as Session::create returns it when the browser starts. *)
Definition createdSession : Session := rearmed 0 false freshSession.

(** Session 7 once the browser has reported that it was created. *)
Definition openSession : Session := set_state_ Open (set_browser_ true createdSession).

(** Session 7 after close() was called on it while Open. *)
Definition closingSession : Session := set_state_ Closing openSession.

(** [createdSession] taken through [ops]. *)
Definition sessionAfter (ops : list Op) : option (Session * list Effect) :=
  @runAll exampleExternals ops createdSession.

(** The session of [sessionAfter] and what [op] does to it next. *)
Definition thenRun (ops : list Op) (op : Op) : option (Session * list Effect) :=
  match sessionAfter ops with
  | Some (s, _) => @run exampleExternals op s
  | None => None
  end.

Definition traceOf (r : option (Session * list Effect)) : option (list Effect) :=
  option_map snd r.

(** Four polls whose event batches overlap; the third replays the second. *)
Definition overlappingPolls : list Op :=
  [OpRequest (ms 100) (GET "/7/image/0/1/1/800/600/0/A/B/");
   OpRequest (ms 200) (GET "/7/image/0/2/1/800/600/1/B/C/");
   OpRequest (ms 300) (GET "/7/image/0/2/1/800/600/1/B/C/");
   OpRequest (ms 400) (GET "/7/image/0/3/1/800/600/0/A/B/C/D/")].

Definition pollWithEvent : Op :=
  OpRequest (ms 100) (GET "/7/image/0/1/1/800/600/0/A/").

Definition closeSignal : Op := OpRequest (ms 200) (GET "/7/close/0/").

Definition report : CompletedDownload := {| file_name := "report.pdf" |}.

(** A download completes, its sub-page is polled at 1s (which registers
    it under index 1), and the file is fetched twice. *)
Definition downloadStory : list Op :=
  [OpAfterCreated; OpDownloadCompleted report;
   OpRequest (ms 1000) (GET "/7/iframe/0/0/");
   OpRequest (ms 2000) (GET "/7/download/1/report.pdf");
   OpRequest (ms 3000) (GET "/7/download/1/report.pdf")].
(** * Text layout: a shallow embedding of [src/text.cpp]

    The functions of text.cpp run on the UI thread only (requireUIThread);
    what they compute is embedded here.  [int] arithmetic on byte offsets
    and on the pixel extents that Pango reports is written in Z, where it
    cannot overflow; an x coordinate that a caller passes in can be any
    int, so what is computed from it is reduced to 32 bits ([wrapInt]). *)

Module Text.

(** How a function of text.cpp can end: with its result, in a CHECK that
    fails (the process aborts), or in a read past the bytes of a string. *)
Inductive Checked (A : Type) : Type :=
| Returns (a : A)
| CheckFails
| ReadsOutOfBounds.

Arguments Returns {A} a.
Arguments CheckFails {A}.
Arguments ReadsOutOfBounds {A}.

#[global] Instance Checked_ret : MRet Checked := fun A a => Returns a.

#[global] Instance Checked_bind : MBind Checked := fun A B f c =>
  match c with
  | Returns a => f a
  | CheckFails => CheckFails
  | ReadsOutOfBounds => ReadsOutOfBounds
  end.

Definition CHECK (cond : bool) : Checked unit :=
  if cond then Returns tt else CheckFails.

(** (int)str.size() *)
Definition size (str : string) : Z := Z.of_nat (String.length str).

(** str[idx] as the tests of jumpUTF8Chars see it: every mask they apply
    lies within the low eight bits, so the byte counts as a number from 0
    to 255 whether char is signed or not. *)
Definition byteAt (str : string) (idx : Z) : Checked Z :=
  if (0 <=? idx) && (idx <? size str) then
    match String.get (Z.to_nat idx) str with
    | Some c => Returns (Z.of_nat (nat_of_ascii c))
    | None => ReadsOutOfBounds
    end
  else ReadsOutOfBounds.

(** The for loop of jumpUTF8Chars over the bytes that follow the first
    byte of a multibyte character. *)
Fixpoint continuationBytes (str : string) (idx : Z) (n : nat) : Checked Z :=
  match n with
  | O => Returns idx
  | S n' =>
      c ← byteAt str idx;
      _ ← CHECK (Z.land c 0xC0 =? 0x80);
      continuationBytes str (idx + 1) n'
  end.

(** One round of the while loop of jumpUTF8Chars: step over the character
    that starts at [idx]. *)
Definition jumpChar (str : string) (idx : Z) : Checked Z :=
  _ ← CHECK (idx <? size str);
  c ← byteAt str idx;
  if negb (Z.land c 0x80 =? 0) then
    _ ← CHECK (negb (Z.land c 0x40 =? 0));
    bytes ← (if Z.land c 0x20 =? 0 then Returns 2
             else if Z.land c 0x10 =? 0 then Returns 3
             else _ ← CHECK (Z.land c 0x8 =? 0); Returns 4);
    _ ← CHECK (idx + bytes <=? size str);
    continuationBytes str (idx + 1) (Z.to_nat (bytes - 1))
  else Returns (idx + 1).

(** while(count --> 0) *)
Fixpoint jumpChars (str : string) (idx : Z) (count : nat) : Checked Z :=
  match count with
  | O => Returns idx
  | S count' => idx' ← jumpChar str idx; jumpChars str idx' count'
  end.

(** jumpUTF8Chars *)
Definition jumpUTF8Chars (str : string) (idx count : Z) : Checked Z :=
  _ ← CHECK ((0 <=? idx) && (idx <=? size str));
  _ ← CHECK (0 <=? count);
  idx ← jumpChars str idx (Z.to_nat count);
  _ ← CHECK (idx <=? size str);
  _ ← (if negb (idx =? size str)
       then c ← byteAt str idx; CHECK (negb (Z.land c 0xC0 =? 0x80))
       else Returns tt);
  Returns idx.

Definition PANGO_SCALE : Z := 1024.

(** The int that holds the result [z] of an operation on ints: the
    compiled code keeps the low 32 bits, in two's complement. *)
Definition wrapInt (z : Z) : Z := (z + 2 ^ 31) mod 2 ^ 32 - 2 ^ 31.
Definition G_MAXINT : Z := 2 ^ 31 - 1.
Definition INT_MAX : Z := 2 ^ 31 - 1.

(** What Pango answers about the text a layout holds: the logical pixel
    extents (pango_layout_get_pixel_extents), the x of the cursor at a byte
    index in Pango units (pango_layout_get_cursor_pos), the index and the
    trailing count for an x on line 0 (pango_layout_line_x_to_index; every
    layout has a line 0), and the index and trailing count one visual step
    from a byte index (pango_layout_move_cursor_visually). *)
Record Pango := {
  pixelExtentsWidth : Z;
  pixelExtentsHeight : Z;
  cursorPosX : Z -> Z;
  lineXToIndex : Z -> Z * Z;
  moveCursorVisually : Z -> Z -> Z * Z
}.

(** Graymap: the 8-bit buffer a layout is rendered to. *)
Record Graymap := { width : Z; height : Z; buffer : list Z }.

(** Graymap::Graymap; the quotients are of positive ints. *)
Definition Graymap_new (pWidth pHeight : Z) : Checked Graymap :=
  _ ← CHECK (1 <=? pWidth);
  _ ← CHECK (1 <=? pHeight);
  let Limit := Z.quot INT_MAX 9 in
  _ ← CHECK (pWidth <? Z.quot Limit pHeight);
  Returns {| width := pWidth; height := pHeight;
             buffer := repeat 0 (Z.to_nat (pWidth * pHeight)) |}.

(** TextLayout::Impl: the text and Pango's view of it.  (The rendering
    kept in [graymap] is made from the extents by [Graymap_new] and filled
    in by Pango.) *)
Record TextLayout := {
  text : string;
  pango : Pango
}.

(** TextLayout::Impl::setText; [answers] is Pango's view of the new text
    and [agrees] whether Pango hands the same bytes back. *)
Definition TextLayout_setText (newText : string) (answers : Pango) (agrees : bool)
    (l : TextLayout) : Checked TextLayout :=
  _ ← CHECK agrees;
  Returns {| text := newText; pango := answers |}.

(** TextLayout::Impl::getExtents, as (width, height). *)
Definition getExtents (l : TextLayout) : Z * Z :=
  (Z.max (pixelExtentsWidth (pango l)) 1, Z.max (pixelExtentsHeight (pango l)) 1).

(** TextLayout::width and TextLayout::height *)
Definition TextLayout_width (l : TextLayout) : Z := fst (getExtents l).
Definition TextLayout_height (l : TextLayout) : Z := snd (getExtents l).

(** The Graymap that TextLayout::Impl::ensureGraymapRendered makes when
    none is kept. *)
Definition ensureGraymapRendered (l : TextLayout) : Checked Graymap :=
  Graymap_new (fst (getExtents l)) (snd (getExtents l)).

(** TextLayout::Impl::xCoordToIndex *)
Definition TextLayout_xCoordToIndex (x : Z) (l : TextLayout) : Checked Z :=
  let '(idx, trailing) := lineXToIndex (pango l) (wrapInt (x * PANGO_SCALE)) in
  idx ← jumpUTF8Chars (text l) idx trailing;
  _ ← CHECK ((0 <=? idx) && (idx <=? size (text l)));
  Returns idx.

(** TextLayout::Impl::indexToXCoord *)
Definition TextLayout_indexToXCoord (idx : Z) (l : TextLayout) : Checked Z :=
  _ ← CHECK ((0 <=? idx) && (idx <=? size (text l)));
  Returns (Z.quot (cursorPosX (pango l) idx) PANGO_SCALE).

(** TextLayout::Impl::visualMoveIdx *)
Definition TextLayout_visualMoveIdx (idx : Z) (forward : bool) (l : TextLayout)
    : Checked Z :=
  _ ← CHECK ((0 <=? idx) && (idx <=? size (text l)));
  let '(idx, trailing) :=
    moveCursorVisually (pango l) idx (if forward then 1 else -1) in
  if idx =? -1 then Returns 0
  else if idx =? G_MAXINT then Returns (size (text l))
  else
    _ ← CHECK ((0 <=? idx) && (idx <=? size (text l)));
    jumpUTF8Chars (text l) idx trailing.

(** OverflowTextLayout: a text layout seen through a window [width_]
    pixels wide that starts [offset_] pixels into the text. *)
Record OverflowTextLayout := {
  textLayout_ : TextLayout;
  width_ : Z;
  offset_ : Z
}.

Definition set_offset_ (v : Z) (o : OverflowTextLayout) : OverflowTextLayout :=
  {| textLayout_ := textLayout_ o; width_ := width_ o; offset_ := v |}.

Definition set_width_ (v : Z) (o : OverflowTextLayout) : OverflowTextLayout :=
  {| textLayout_ := textLayout_ o; width_ := v; offset_ := offset_ o |}.

Definition set_textLayout_ (v : TextLayout) (o : OverflowTextLayout)
    : OverflowTextLayout :=
  {| textLayout_ := v; width_ := width_ o; offset_ := offset_ o |}.

(** OverflowTextLayout::OverflowTextLayout, around the layout that
    TextLayout::create returned. *)
Definition OverflowTextLayout_new (l : TextLayout) : OverflowTextLayout :=
  {| textLayout_ := l; width_ := 0; offset_ := 0 |}.

(** OverflowTextLayout::textWidth *)
Definition textWidth (o : OverflowTextLayout) : Z := TextLayout_width (textLayout_ o).

(** OverflowTextLayout::clampOffset_ *)
Definition clampOffset_ (o : OverflowTextLayout) : OverflowTextLayout :=
  let o := set_offset_ (Z.min (offset_ o) (textWidth o + 1 - width_ o)) o in
  set_offset_ (Z.max (offset_ o) 0) o.

(** OverflowTextLayout::setText *)
Definition setText (newText : string) (answers : Pango) (agrees : bool)
    (o : OverflowTextLayout) : Checked OverflowTextLayout :=
  l ← TextLayout_setText newText answers agrees (textLayout_ o);
  Returns (clampOffset_ (set_textLayout_ l o)).

(** OverflowTextLayout::setWidth *)
Definition setWidth (width : Z) (o : OverflowTextLayout) : Checked OverflowTextLayout :=
  _ ← CHECK (0 <=? width);
  Returns (clampOffset_ (set_width_ width o)).

(** OverflowTextLayout::setOffset *)
Definition setOffset (offset : Z) (o : OverflowTextLayout) : OverflowTextLayout :=
  clampOffset_ (set_offset_ offset o).

(** OverflowTextLayout::makeVisible *)
Definition makeVisible (idx : Z) (o : OverflowTextLayout) : Checked OverflowTextLayout :=
  x ← TextLayout_indexToXCoord idx (textLayout_ o);
  let offset := offset_ o in
  let offset := Z.min offset x in
  let offset := Z.max offset (x + 1 - width_ o) in
  Returns (setOffset offset o).

(** OverflowTextLayout::xCoordToIndex *)
Definition xCoordToIndex (x : Z) (o : OverflowTextLayout) : Checked Z :=
  TextLayout_xCoordToIndex (wrapInt (x + offset_ o)) (textLayout_ o).

(** OverflowTextLayout::indexToXCoord *)
Definition indexToXCoord (idx : Z) (o : OverflowTextLayout) : Checked Z :=
  x ← TextLayout_indexToXCoord idx (textLayout_ o);
  Returns (x - offset_ o).

(** OverflowTextLayout::visualMoveIdx *)
Definition visualMoveIdx (idx : Z) (forward : bool) (o : OverflowTextLayout)
    : Checked Z :=
  TextLayout_visualMoveIdx idx forward (textLayout_ o).


(** ** Reference points for the statements *)

Definition byte (n : Z) : ascii := ascii_of_nat (Z.to_nat n).

(** The UTF-8 encoding of a code point (the bit layout of RFC 3629):
    what "a character" means to jumpUTF8Chars on well-formed text. *)
Definition utf8 (cp : Z) : string :=
  if cp <? 0x80 then
    String (byte cp) EmptyString
  else if cp <? 0x800 then
    String (byte (Z.lor 0xC0 (Z.shiftr cp 6)))
   (String (byte (Z.lor 0x80 (Z.land cp 0x3F))) EmptyString)
  else if cp <? 0x10000 then
    String (byte (Z.lor 0xE0 (Z.shiftr cp 12)))
   (String (byte (Z.lor 0x80 (Z.land (Z.shiftr cp 6) 0x3F)))
   (String (byte (Z.lor 0x80 (Z.land cp 0x3F))) EmptyString))
  else
    String (byte (Z.lor 0xF0 (Z.shiftr cp 18)))
   (String (byte (Z.lor 0x80 (Z.land (Z.shiftr cp 12) 0x3F)))
   (String (byte (Z.lor 0x80 (Z.land (Z.shiftr cp 6) 0x3F)))
   (String (byte (Z.lor 0x80 (Z.land cp 0x3F))) EmptyString))).

Fixpoint utf8_all (cps : list Z) : string :=
  match cps with
  | [] => EmptyString
  | cp :: rest => String.append (utf8 cp) (utf8_all rest)
  end.

(** A Unicode code point. *)
Definition codePoint (cp : Z) : Prop := 0 <= cp <= 0x10FFFF.

(** The string of the given byte values. *)
Fixpoint bytesOf (vs : list Z) : string :=
  match vs with
  | [] => EmptyString
  | v :: vs' => String (byte v) (bytesOf vs')
  end.

(** What a result of a step says: it is no read out of bounds, and an
    index it returns satisfies [P]. *)
Definition lands (P : Z -> Prop) (r : Checked Z) : Prop :=
  match r with
  | Returns idx => P idx
  | CheckFails => True
  | ReadsOutOfBounds => False
  end.

(** The run read no byte outside the string. *)
Definition readsInside {A : Type} (r : Checked A) : Prop :=
  match r with
  | ReadsOutOfBounds => False
  | _ => True
  end.

(** The byte at [idx], if there is one, does not continue a character. *)
Definition startsCharacter (str : string) (idx : Z) : Prop :=
  forall c, byteAt str idx = Returns c -> Z.land c 0xC0 <> 0x80.

(** [k] added to a returned index. *)
Definition shift (k : Z) (r : Checked Z) : Checked Z :=
  match r with
  | Returns i => Returns (k + i)
  | CheckFails => CheckFails
  | ReadsOutOfBounds => ReadsOutOfBounds
  end.

(** The bits of a first byte that announces [bytes] bytes. *)
Definition leadOf (bytes : Z) (c : Z) : bool :=
  (0 <=? c) && (c <? 256) && negb (Z.land c 0xC0 =? 0x80) &&
  match bytes with
  | 1 => Z.land c 0x80 =? 0
  | 2 => negb (Z.land c 0x80 =? 0) && negb (Z.land c 0x40 =? 0) && (Z.land c 0x20 =? 0)
  | 3 => negb (Z.land c 0x80 =? 0) && negb (Z.land c 0x40 =? 0) &&
         negb (Z.land c 0x20 =? 0) && (Z.land c 0x10 =? 0)
  | _ => negb (Z.land c 0x80 =? 0) && negb (Z.land c 0x40 =? 0) &&
         negb (Z.land c 0x20 =? 0) && negb (Z.land c 0x10 =? 0) && (Z.land c 0x8 =? 0)
  end.

(** A continuation byte, 10xxxxxx. *)
Definition continues (c : Z) : bool :=
  (0 <=? c) && (c <? 256) && (Z.land c 0xC0 =? 0x80).

(** The scroll offset is within its range: not negative, and either zero
    or such that the window ends at most one pixel (the room for the
    cursor) after the text. *)
Definition offsetClamped (o : OverflowTextLayout) : Prop :=
  0 <= offset_ o /\ (offset_ o = 0 \/ offset_ o + width_ o <= textWidth o + 1).

(** A property of the layout a mutator returns, if it returns. *)
Definition leaves (P : OverflowTextLayout -> Prop) (r : Checked OverflowTextLayout) : Prop :=
  match r with
  | Returns o => P o
  | CheckFails => True
  | ReadsOutOfBounds => False
  end.

End Text.
(** * Command line options: a shallow embedding of [src/config.cpp] *)

Module Config.

(** tolower and isspace as the "C" locale has them (main.cpp sets no
    other). *)
Definition tolower (c : ascii) : ascii :=
  let n := Z.of_nat (nat_of_ascii c) in
  if (65 <=? n) && (n <=? 90) then ascii_of_nat (nat_of_ascii c + 32) else c.

Definition isspace (c : ascii) : bool :=
  let n := Z.of_nat (nat_of_ascii c) in
  (n =? 32) || ((9 <=? n) && (n <=? 13)).

(** for(char& c : str) c = tolower(c); *)
Fixpoint lowered (str : string) : string :=
  match str with
  | EmptyString => EmptyString
  | String c rest => String (tolower c) (lowered rest)
  end.

(** OptParser<string>::parse *)
Definition OptParser_string_parse (str : string) : option string := Some str.

(** OptParser<bool>::parse *)
Definition OptParser_bool_parse (str : string) : option bool :=
  let str := lowered str in
  if String.eqb str "1" || String.eqb str "yes" || String.eqb str "true" ||
     String.eqb str "enable" || String.eqb str "enabled"
  then Some true
  else if String.eqb str "0" || String.eqb str "no" || String.eqb str "false" ||
          String.eqb str "disable" || String.eqb str "disabled"
  then Some false
  else None.

(** OptParser<int>::parse *)
Definition OptParser_int_parse (str : string) : option Z := parseString_int str.

(** DefaultValFormatter<bool>::format *)
Definition DefaultValFormatter_bool_format (val : bool) : string :=
  if val then "yes" else "no".

(** int(str.size()) *)
Definition size (str : string) : Z := Z.of_nat (String.length str).

Definition DescStart : Z := 33.
Definition DescStartIndented : Z := 35.
Definition MaxWidth : Z := 90.

Fixpoint spaces (n : nat) : string :=
  match n with
  | O => EmptyString
  | S n' => String " " (spaces n')
  end.

(** The stringstream of helpLine with the local linePos. *)
Record Line := { ss : string; linePos : Z }.

(** The leading whitespace of an atom dropped: atom.substr(s) after the
    loop that counts it. *)
Fixpoint dropSpaces (atom : string) : string :=
  match atom with
  | EmptyString => EmptyString
  | String c rest => if isspace c then dropSpaces rest else atom
  end.

(** The lambda writeAtom of helpLine. *)
Definition writeAtom (l : Line) (atom : string) : Line :=
  if (MaxWidth <? linePos l + size atom) && (DescStartIndented <? linePos l) then
    let atom := dropSpaces atom in
    {| ss := String.append (ss l)
               (String.append (String "010" (spaces (Z.to_nat DescStartIndented))) atom);
       linePos := DescStartIndented + size atom |}
  else
    {| ss := String.append (ss l) atom; linePos := linePos l + size atom |}.

(** The loop of helpLine that cuts the description into atoms, one
    character at a time: an atom is the character at [a] and the
    characters after it up to the next whitespace.  [atom] is the atom
    being read. *)
Fixpoint atomsFrom (atom rest : string) : list string :=
  match rest with
  | EmptyString => [atom]
  | String c rest' =>
      if isspace c then atom :: atomsFrom (String c EmptyString) rest'
      else atomsFrom (String.append atom (String c EmptyString)) rest'
  end.

Definition atoms (desc : string) : list string :=
  match desc with
  | EmptyString => []
  | String c rest => atomsFrom (String c EmptyString) rest
  end.

(** OptInfoBase::defaultValStr, from the formatted default value. *)
Definition defaultValStr (formatted : string) : string :=
  String.append "default: " formatted.

(** helpLine, from the members of the option's OptInfo: name, valSpec,
    desc() and the formatted defaultVal(). *)
Definition helpLine (name valSpec desc formatted : string) : string :=
  let head :=
    String.append "  --"
      (String.append name (String.append "=" (String.append valSpec " "))) in
  let head := String.append head (spaces (Z.to_nat (DescStart - size head))) in
  let start := {| ss := head; linePos := size head |} in
  let l := fold_left writeAtom (atoms desc) start in
  let l := writeAtom l
             (String.append " [" (String.append (defaultValStr formatted) "]")) in
  ss l.

(** ** Config::read *)

(** sort(lines.begin(), lines.end()): the lines in ascending order of
    their bytes. *)
Fixpoint insertLine (line : string) (sorted : list string) : list string :=
  match sorted with
  | [] => [line]
  | first :: rest =>
      if String.leb line first then line :: sorted
      else first :: insertLine line rest
  end.

Definition sortLines (lines : list string) : list string :=
  fold_right insertLine [] lines.

Section Options.

(** The values options take; each option has a type of its own in
    config_defs.hpp, which is not among the sources. *)
Variable Value : Type.

(** The OptInfo of one option: the member of Config it sets, its name on
    the command line, the texts for the help, its default value with the
    text DefaultValFormatter gives for it, and its parse and validate. *)
Record OptInfo := {
  var : string;
  name : string;
  valSpec : string;
  desc : string;
  defaultVal : Value;
  formatted : string;
  parse : string -> option Value;
  validate : Value -> bool
}.

(** The options in the order of CONF_FOREACH_OPT. *)
Variable options : list OptInfo.

(** Config::Src: the value of every member. *)
Definition Src : Type := gmap string Value.

(** Config::Src::Src: every member at its default. *)
Definition Src_new : Src :=
  fold_left (fun src o => <[var o := defaultVal o]> src) options ∅.

(** optHandlers, by the option each handler was made for. *)
Definition optHandlers : gmap string OptInfo :=
  fold_left (fun handlers o => <[name o := o]> handlers) options ∅.

(** The handler of an option: the new members, or nothing when it returns
    false. *)
Definition handle (o : OptInfo) (valStr : string) (src : Src) : option Src :=
  match parse o valStr with
  | Some val => if validate o val then Some (<[var o := val]> src) else None
  | None => None
  end.

(** What Config::read prints before it gives up. *)
Inductive Output :=
| Help (argv0 : string) (lines : list string)
| Version
| SpecifiedMultipleTimes (optName : string)
| InvalidValue (optVal optName argv0 : string)
| ValueMissing (arg argv0 : string)
| UnrecognizedOption (arg argv0 : string).

(** How Config::read ends: with a Config made of the members, with an
    empty pointer after printing, or in its REQUIRE. *)
Inductive ReadResult :=
| Created (src : Src)
| Empty (out : Output)
| Aborted.

(** The loop that looks for '=' from position 2 on: the characters before
    it and those after it, or nothing when there is none. *)
Fixpoint splitAtEq (s : string) : option (string * string) :=
  match s with
  | EmptyString => None
  | String c rest =>
      if Ascii.eqb c "=" then Some (EmptyString, rest)
      else match splitAtEq rest with
           | Some (optName, optVal) => Some (String c optName, optVal)
           | None => None
           end
  end.

(** The lines of the help text. *)
Definition helpLines : list string :=
  sortLines
    (map (fun o => helpLine (name o) (valSpec o) (desc o) (formatted o)) options
     ++ ["  --help                         show this help and exit";
         "  --version                      show the version and exit"]).

(** What the loop does when an argument is not a setting it accepts. *)
Definition reject (argv0 arg : string) : ReadResult :=
  if String.eqb (substring 0 2 arg) "--" &&
     bool_decide (is_Some (optHandlers !! substring 2 (String.length arg - 2) arg))
  then Empty (ValueMissing arg argv0)
  else Empty (UnrecognizedOption arg argv0).

(** The loop of Config::read over argv[1..], with the members and the
    names seen so far. *)
Fixpoint readArgs (argv0 : string) (args : list string) (src : Src)
    (optsSeen : gset string) : ReadResult :=
  match args with
  | [] => Created src
  | arg :: args' =>
      if String.eqb arg "--help" then Empty (Help argv0 helpLines)
      else if String.eqb arg "--version" then Empty Version
      else
        match (if String.eqb (substring 0 2 arg) "--"
               then splitAtEq (substring 2 (String.length arg - 2) arg)
               else None) with
        | Some (optName, optVal) =>
            match optHandlers !! optName with
            | Some o =>
                if bool_decide (optName ∈ optsSeen)
                then Empty (SpecifiedMultipleTimes optName)
                else
                  match handle o optVal src with
                  | Some src' => readArgs argv0 args' src' ({[optName]} ∪ optsSeen)
                  | None => Empty (InvalidValue optVal optName argv0)
                  end
            | None => reject argv0 arg
            end
        | None => reject argv0 arg
        end
  end.

(** Config::read *)
Definition read (argv : list string) : ReadResult :=
  match argv with
  | [] => Aborted
  | argv0 :: args => readArgs argv0 args Src_new ∅
  end.

(** ** Reference points for the statements *)

(** No '=' in a name. *)
Definition noEq (s : string) : bool :=
  string_forall (fun c => negb (Ascii.eqb c "=")) s.

(** The value an option takes from a text: the parsed value when it is
    valid. *)
Definition valueOf (o : OptInfo) (valStr : string) : option Value :=
  match parse o valStr with
  | Some val => if validate o val then Some val else None
  | None => None
  end.

(** The argument --name=value. *)
Definition argOf (setting : OptInfo * string) : string :=
  String.append "--"
    (String.append (name (fst setting)) (String.append "=" (snd setting))).

(** A setting the command line can make: the option is the one its name
    stands for, the name holds no '=', and the text is a valid value. *)
Definition accepted (setting : OptInfo * string) : Prop :=
  optHandlers !! name (fst setting) = Some (fst setting) /\
  noEq (name (fst setting)) = true /\
  is_Some (valueOf (fst setting) (snd setting)).

(** The members after the settings were made in order. *)
Definition applied (settings : list (OptInfo * string)) (src : Src) : Src :=
  fold_left
    (fun src setting =>
       match valueOf (fst setting) (snd setting) with
       | Some val => <[var (fst setting) := val]> src
       | None => src
       end)
    settings src.

(** The names and the members of the options that settings set. *)
Definition names (settings : list (OptInfo * string)) : list string :=
  map (fun setting => name (fst setting)) settings.

Definition members (settings : list (OptInfo * string)) : list string :=
  map (fun setting => var (fst setting)) settings.

End Options.

Arguments names {Value} settings.
Arguments members {Value} settings.

(** The lines of a text, cut at its newlines. *)
Fixpoint lines (s : string) : list string :=
  match s with
  | EmptyString => [EmptyString]
  | String c rest =>
      if Ascii.eqb c "010" then EmptyString :: lines rest
      else match lines rest with
           | line :: more => String c line :: more
           | [] => [String c EmptyString]
           end
  end.

(** A text without its whitespace. *)
Fixpoint visible (s : string) : string :=
  match s with
  | EmptyString => EmptyString
  | String c rest => if isspace c then visible rest else String c (visible rest)
  end.

(** The help of an option before it is laid out. *)
Definition unwrapped (name valSpec desc formatted : string) : string :=
  String.append "  --"
    (String.append name (String.append "="
      (String.append valSpec (String.append " "
        (String.append desc (String.append " [default: "
          (String.append formatted "]"))))))).

(** Writing [s] from column [col] on: the column it ends in, and whether
    every line it ends is at most [limit] wide. *)
Fixpoint endColumn (col : Z) (s : string) : Z :=
  match s with
  | EmptyString => col
  | String c rest => if Ascii.eqb c "010" then endColumn 0 rest else endColumn (col + 1) rest
  end.

Fixpoint endedLinesFit (limit col : Z) (s : string) : Prop :=
  match s with
  | EmptyString => True
  | String c rest =>
      if Ascii.eqb c "010" then col <= limit /\ endedLinesFit limit 0 rest
      else endedLinesFit limit (col + 1) rest
  end.

(** The state of helpLine between two atoms: the lines ended so far fit,
    and linePos is at least the column the text ends in and at most the
    limit. *)
Definition lineFits (l : Line) : Prop :=
  endedLinesFit MaxWidth 0 (ss l) /\
  endColumn 0 (ss l) <= linePos l <= MaxWidth.

End Config.
(** ** Invariants of the session *)

Section SessionInvariants.

Context {ext : Externals}.

(** browser_ holds the handle exactly while the session is Open or
    Closing. *)
Definition browserMatchesState (s : Session) : Prop :=
  browser_ s = match state_ s with
               | Open | Closing => true
               | Pending | Closed => false
               end.

(** widthSignal_ tells whether an iframe waits in the queue; heightSignal_
    is the cursor it was last given. *)
Definition signalsTrackState (s : Session) : Prop :=
  widthSignal_ s = match iframeQueue_ s with
                   | [] => WidthSignalNoNewIframe
                   | _ :: _ => WidthSignalNewIframe
                   end /\
  (heightSignal_ s = NormalCursor \/ 0 <= heightSignal_ s < CursorTypeCount).

Definition armed (t : Timeout) : bool :=
  match expiresAt t with Some _ => true | None => false end.

(** At most one inactivity timeout is armed; an Open session has one
    armed, a Pending session has one armed or is marked to close as soon
    as it opens, a Closed session has none. *)
Definition timersMatchState (s : Session) : Prop :=
  (armed (inactivityTimeoutLong_ s) && armed (inactivityTimeoutShort_ s) = false) /\
  match state_ s with
  | Open => armed (inactivityTimeoutLong_ s) || armed (inactivityTimeoutShort_ s) = true
  | Pending =>
      armed (inactivityTimeoutLong_ s) || armed (inactivityTimeoutShort_ s)
      || closeOnOpen_ s = true
  | Closing => True
  | Closed =>
      armed (inactivityTimeoutLong_ s) || armed (inactivityTimeoutShort_ s) = false
  end.

(** What the session code needs of the constants declared outside src/:
    both values of the width signal and every cursor code are remainders
    of their modulus. *)
Definition signalsFit : Prop :=
  0 <= WidthSignalNoNewIframe < WidthSignalModulus /\
  0 <= WidthSignalNewIframe < WidthSignalModulus /\
  0 <= NormalCursor < HeightSignalModulus /\
  CursorTypeCount <= HeightSignalModulus.

Definition signalsInRange (s : Session) : Prop :=
  0 <= widthSignal_ s < WidthSignalModulus /\
  0 <= heightSignal_ s < HeightSignalModulus.

(** The frame sendViewportToCompressor_ hands over: the results of its
    two loops. *)
Definition frame (s : Session) : Z * Z :=
  (default 0 (signalLoop (Z.to_nat WidthSignalModulus) WidthSignalModulus
                (widthSignal_ s) (width (paddedRootViewport_ s))),
   default 0 (signalLoop (Z.to_nat HeightSignalModulus) HeightSignalModulus
                (heightSignal_ s) (height (paddedRootViewport_ s)))).

(** At most [n] downloads were registered, under the indices 1 to
    curDownloadIdx_. *)
Definition downloadsBelow (n : Z) (s : Session) : Prop :=
  0 <= curDownloadIdx_ s <= n /\
  forall k entry, downloads_ s !! k = Some entry -> 0 < k <= curDownloadIdx_ s.

(** What the callers of the session keep to: the browser reports its
    creation to a Pending session and its close to an Open or Closing one,
    and the widgets report cursor codes below CursorTypeCount. *)
Definition opAllowed (op : Op) (s : Session) : Prop :=
  match op with
  | OpAfterCreated => state_ s = Pending
  | OpBeforeClose _ => state_ s = Open \/ state_ s = Closing
  | OpWidgetCursorChanged cursor => 0 <= cursor < CursorTypeCount
  | _ => True
  end.

(** The responses a trace sends to the request. *)
Definition isResponse (e : Effect) : bool :=
  match e with
  | SendTextResponse _ _ | SendHTMLResponse _ _ | ServeFile _
  | SendCompressedImageNow | SendCompressedImageWait => true
  | _ => false
  end.

Definition responses (t : list Effect) : list Effect := List.filter isResponse t.

(** A request for the prev or the next page. *)
Definition isPrevNext (op : Op) : Prop :=
  match op with
  | OpRequest _ request => route request = RoutePrev \/ route request = RouteNext
  | _ => False
  end.

(** What a run of prev or next requests keeps: it sends at most one
    navigation command, none when prevNextClicked_ was set already, and it
    sets prevNextClicked_ when it sends one. *)
Definition latched (s : Session) (t : list Effect) (s' : Session) : Prop :=
  (length (navigations t) <= 1)%nat /\
  (prevNextClicked_ s = true -> navigations t = []) /\
  (navigations t <> [] -> prevNextClicked_ s' = true) /\
  (prevNextClicked_ s = true -> prevNextClicked_ s' = true).

(** A request that starts a new page generation on [s]: the close
    signal for the current mainIdx, or a load of the main page after the
    first. *)
Definition startsGeneration (request : HTTPRequest) (s : Session) : Prop :=
  route request = RouteClose (curMainIdx_ s) \/
  (route request = RouteMain /\ preMainVisited_ s = true).

(** A request that carries [mainIdx] in its path. *)
Definition carriesMainIdx (mainIdx : Z) (request : HTTPRequest) : Prop :=
  match route request with
  | RouteImage a => a_mainIdx a = mainIdx
  | RouteIframe m | RouteClose m => m = mainIdx
  | _ => False
  end.

(** A request the handler has no branch for because of its method, or
    because its path has the shape of an image poll, an iframe poll, a
    download or a close signal but holds a number that parseString does
    not accept. *)
Definition unparsable (request : HTTPRequest) : Prop :=
  method request <> "GET" \/
  (is_Some (imagePathRegex (path request)) /\ imageRoute (path request) = None) \/
  (exists g, (iframePathRegex (path request) = Some g \/
              downloadPathRegex (path request) = Some g \/
              closePathRegex (path request) = Some g) /\
             parseString_uint64 g = None).

(** The iframe an operation queues, if it queues one. *)
Definition enqueued (op : Op) : list Iframe :=
  match op with
  | OpBeforePopup true false popupSessionID => [PopupIframe popupSessionID]
  | OpClipboardButton => [ClipboardIframe]
  | OpDownloadCompleted file => [DownloadIframe file]
  | _ => []
  end.

(** The iframe pages a trace sends, in order. *)
Definition iframePages (t : list Effect) : list Page :=
  flat_map (fun e => match e with
                     | SendHTMLResponse _ (PopupIframeHTML id) => [PopupIframeHTML id]
                     | SendHTMLResponse _ ClipboardIframeHTML => [ClipboardIframeHTML]
                     | SendHTMLResponse _ (DownloadIframeHTML id idx name) =>
                         [DownloadIframeHTML id idx name]
                     | _ => []
                     end) t.

(** The page is the one the queued iframe writes. *)
Definition servesIframe (iframe : Iframe) (page : Page) : Prop :=
  match iframe, page with
  | PopupIframe id, PopupIframeHTML id' => id' = id
  | ClipboardIframe, ClipboardIframeHTML => True
  | DownloadIframe file, DownloadIframeHTML _ _ name => name = file_name file
  | _, _ => False
  end.

(** How often a trace posts onSessionClosed to the event handler. *)
Definition closedNotices (t : list Effect) : nat :=
  length (List.filter (fun e => match e with PostSessionClosed _ => true | _ => false end) t).

Definition closedCount (st : State) : nat :=
  if State_eqb st Closed then 1%nat else 0%nat.

(** How often a trace assigns Closed to state_. *)
Definition closings (steps : list (State * State)) : nat :=
  length (List.filter (fun step => State_eqb (snd step) Closed) steps).

End SessionInvariants.

(** * main.cpp: the application object *)

Module App.

(** What App does to the server it owns. *)
Inductive Effect :=
| ServerCreate
| ServerShutdown.

(** The fields of App that its methods read and write; [server_] tells
    whether the pointer server_ is set. *)
Record App := {
  server_ : bool;
  shutdown_ : bool
}.

(** App::App. *)
Definition App_new : App := {| server_ := false; shutdown_ := false |}.

(** App::shutdown. *)
Definition shutdown (app : App) : option (App * list Effect) :=
  if server_ app
  then Some (app, [ServerShutdown])
  else Some ({| server_ := server_ app; shutdown_ := true |}, []).

(** App::OnContextInitialized; REQUIRE(!server_) aborts the process. *)
Definition OnContextInitialized (app : App) : option (App * list Effect) :=
  if server_ app then None
  else
    let app := {| server_ := true; shutdown_ := shutdown_ app |} in
    Some (app, ServerCreate :: (if shutdown_ app then [ServerShutdown] else [])).

(** The calls that reach App on the UI thread. *)
Inductive Call :=
| Shutdown
| ContextInitialized.

Definition call (c : Call) : App -> option (App * list Effect) :=
  match c with
  | Shutdown => shutdown
  | ContextInitialized => OnContextInitialized
  end.

Fixpoint callAll (cs : list Call) (app : App) : option (App * list Effect) :=
  match cs with
  | [] => Some (app, [])
  | c :: cs' =>
      match call c app with
      | Some (app', t) =>
          match callAll cs' app' with
          | Some (app'', t') => Some (app'', t ++ t')
          | None => None
          end
      | None => None
      end
  end.

Definition isShutdown (c : Call) : bool :=
  match c with Shutdown => true | ContextInitialized => false end.

End App.

(** * session.cpp: the registry of session ids *)

Module SessionIDs.

(** usedSessionIDs, the id_ of every Session object that exists, and the
    ids of the erase tasks that destructors posted and that have not run. *)
Record Registry := {
  usedSessionIDs : gset Z;
  sessions : list Z;
  posted : list Z
}.

Definition Registry_new : Registry :=
  {| usedSessionIDs := ∅; sessions := []; posted := [] |}.

(** The loop of the constructor over the values that the generator
    yields: the first one that usedSessionIDs does not count. *)
Fixpoint drawID (used : gset Z) (draws : list Z) : option Z :=
  match draws with
  | [] => None
  | id :: draws' =>
      if bool_decide (id ∈ used) then drawID used draws' else Some id
  end.

(** Session::Session. *)
Definition construct (draws : list Z) (r : Registry) : option Registry :=
  match drawID (usedSessionIDs r) draws with
  | Some id =>
      Some {| usedSessionIDs := {[id]} ∪ usedSessionIDs r;
              sessions := id :: sessions r;
              posted := posted r |}
  | None => None
  end.

(** Session::~Session of the [i]-th session. *)
Definition destruct_ (i : nat) (r : Registry) : option Registry :=
  match sessions r !! i with
  | Some id =>
      Some {| usedSessionIDs := usedSessionIDs r;
              sessions := delete i (sessions r);
              posted := posted r ++ [id] |}
  | None => None
  end.

(** The task that the destructor posted. *)
Definition runErase (r : Registry) : option Registry :=
  match posted r with
  | id :: rest =>
      Some {| usedSessionIDs := usedSessionIDs r ∖ {[id]};
              sessions := sessions r;
              posted := rest |}
  | [] => None
  end.

Inductive Step :=
| Construct (draws : list Z)
| Destruct (i : nat)
| RunErase.

Definition step (st : Step) : Registry -> option Registry :=
  match st with
  | Construct draws => construct draws
  | Destruct i => destruct_ i
  | RunErase => runErase
  end.

Fixpoint steps (sts : list Step) (r : Registry) : option Registry :=
  match sts with
  | [] => Some r
  | st :: sts' =>
      match step st r with
      | Some r' => steps sts' r'
      | None => None
      end
  end.

(** No id is held twice, by a session or by an erase task that has not
    run, and every id held is in usedSessionIDs. *)
Definition registered (r : Registry) : Prop :=
  NoDup (sessions r ++ posted r) /\
  forall id, id ∈ sessions r ++ posted r -> id ∈ usedSessionIDs r.

End SessionIDs.

(** ** Concrete texts and layouts *)

(** The bytes of "he" followed by e-acute (C3 A9) and the euro sign
    (E2 82 AC). *)
Definition exampleText : string := Text.bytesOf [104; 101; 195; 169; 226; 130; 172].

(** Pango's answers for "hello world" in a font ten pixels wide and
    sixteen high; an x left or right of the line gives its first or last
    index. *)
Definition examplePango : Text.Pango := {|
  Text.pixelExtentsWidth := 110;
  Text.pixelExtentsHeight := 16;
  Text.cursorPosX := fun idx => idx * 10 * Text.PANGO_SCALE;
  Text.lineXToIndex := fun x => (Z.max 0 (Z.min 11 (Z.quot x (10 * Text.PANGO_SCALE))), 0);
  Text.moveCursorVisually := fun idx direction => (idx + direction, 0)
|}.

Definition exampleLayout : Text.TextLayout :=
  {| Text.text := "hello world"; Text.pango := examplePango |}.

(** "hello world" in a window fifty pixels wide, scrolled to [offset]. *)
Definition exampleWindow (offset : Z) : Text.OverflowTextLayout :=
  {| Text.textLayout_ := exampleLayout; Text.width_ := 50; Text.offset_ := offset |}.

(** ** A concrete option table *)

Inductive ExampleValue :=
| BoolValue (b : bool)
| StringValue (s : string).

(** Three options for members of Config that main.cpp reads; their
    names and help texts stand in for those of config_defs.hpp. *)
Definition exampleOptions : list (Config.OptInfo ExampleValue) :=
  [ {| Config.var := "useDedicatedXvfb";
       Config.name := "use-dedicated-xvfb";
       Config.valSpec := "YES/NO";
       Config.desc := "if enabled, the browser is run in its own Xvfb X server";
       Config.defaultVal := BoolValue true;
       Config.formatted := Config.DefaultValFormatter_bool_format true;
       Config.parse := fun str => option_map BoolValue (Config.OptParser_bool_parse str);
       Config.validate := fun _ => true |};
    {| Config.var := "userAgent";
       Config.name := "user-agent";
       Config.valSpec := "NAME";
       Config.desc := "value for the User-Agent headers sent by the embedded browser";
       Config.defaultVal := StringValue "";
       Config.formatted := "";
       Config.parse := fun str => option_map StringValue (Config.OptParser_string_parse str);
       Config.validate := fun _ => true |};
    {| Config.var := "dataDir";
       Config.name := "data-dir";
       Config.valSpec := "PATH";
       Config.desc := "absolute path to a directory where the browser data is stored";
       Config.defaultVal := StringValue "";
       Config.formatted := "";
       Config.parse := fun str => option_map StringValue (Config.OptParser_string_parse str);
       Config.validate := fun val => match val with
                                     | StringValue s => negb (String.eqb s "")
                                     | BoolValue _ => false
                                     end |} ].

Definition xvfbOption : Config.OptInfo ExampleValue :=
  nth 0 exampleOptions
      {| Config.var := ""; Config.name := ""; Config.valSpec := ""; Config.desc := "";
         Config.defaultVal := BoolValue false; Config.formatted := "";
         Config.parse := fun _ => None; Config.validate := fun _ => false |}.

(** The members after "--data-dir=/tmp/b" and "--use-dedicated-xvfb=No". *)
Definition exampleSrc : Config.Src ExampleValue :=
  <["useDedicatedXvfb" := BoolValue false]>
    (<["dataDir" := StringValue "/tmp/b"]> (Config.Src_new ExampleValue exampleOptions)).

(** ** A concrete run of the id registry *)

(** Two sessions are made, the generator repeating 5; the first is
    destroyed; a third is made while the erase task of the first waits,
    the generator yielding 5 once more; then the task runs. *)
Definition exampleSteps : list SessionIDs.Step :=
  [SessionIDs.Construct [5]; SessionIDs.Construct [5; 9]; SessionIDs.Destruct 1;
   SessionIDs.Construct [5; 7]; SessionIDs.RunErase].

(** ** More concrete runs of session 7 *)

(** The session that [sessionAfter] ends in. *)
Definition stateAfter (ops : list Op) : Session :=
  match sessionAfter ops with
  | Some (s, _) => s
  | None => createdSession
  end.

(** The browser opens and the main page is loaded: the first request
    gets the page that leads to it, the second the main page itself. *)
Definition mainLoaded : list Op :=
  [OpAfterCreated; OpRequest (ms 100) (GET "/7/"); OpRequest (ms 200) (GET "/7/")].

Definition prevPage (at_ : Z) : Op := OpRequest (ms at_) (GET "/7/prev/").
Definition nextPage (at_ : Z) : Op := OpRequest (ms at_) (GET "/7/next/").

(** ** Runs with download timeouts that fire when due *)

(** The operations of [downloadStory] up to the completed download. *)
Definition downloadCompleted : list Op := [OpAfterCreated; OpDownloadCompleted report].

(** The poll at 1s that serves the page of the download. *)
Definition downloadPoll : Op := OpRequest (ms 1000) (GET "/7/iframe/0/0/").

(** The two requests that fetch the file. *)
Definition downloadFetches : list Op :=
  [OpRequest (ms 2000) (GET "/7/download/1/report.pdf");
   OpRequest (ms 3000) (GET "/7/download/1/report.pdf")].

(** [createdSession] taken through [ops] and then [op], the download
    timeouts firing when due. *)
Definition thenRunTimely (ops : list Op) (op : Op) : option (Session * list Effect) :=
  match @runAllTimely exampleExternals ops createdSession with
  | Some (s, _) => @runTimely exampleExternals op s
  | None => None
  end.

(** * Properties *)

Section SessionProperties.

Context {ext : Externals}.
Example split_image_path :
  split_slash "/7/image/0/1/1/800/600/0/A/B/"
  = [""; "7"; "image"; "0"; "1"; "1"; "800"; "600"; "0"; "A"; "B"; ""].
Proof. reflexivity. Qed.

Example image_regex_groups :
  imagePathRegex "/7/image/0/1/1/800/600/0/A/B/"
  = Some (Build_ImageMatch "0" "1" "1" "800" "600" "0" "A/B/").
Proof. reflexivity. Qed.

Example image_regex_needs_final_slash :
  imagePathRegex "/7/image/0/1/1/800/600/0" = None.
Proof. reflexivity. Qed.

Example parse_uint64_top :
  parseString_uint64 "18446744073709551615" = Some 18446744073709551615
  /\ parseString_uint64 "18446744073709551616" = None.
Proof. split; reflexivity. Qed.

Example route_image :
  route {| method := "GET"; path := "/7/image/0/1/1/801/600/0/A/" |}
  = RouteImage (Build_ImageArgs 0 1 1 801 600 0 "A/").
Proof. reflexivity. Qed.

Example route_invalid_index :
  route {| method := "GET"; path := "/7/close/18446744073709551616/" |}
  = RouteInvalid.
Proof. reflexivity. Qed.

Example route_download :
  route {| method := "GET"; path := "/7/download/3/report.pdf" |} = RouteDownload 3.
Proof. reflexivity. Qed.

(** ** Reasoning about commands *)

Lemma andThen_Some (c1 c2 : Cmd) s s' t :
  (c1 >> c2) s = Some (s', t) <->
  exists s1 t1 t2, c1 s = Some (s1, t1) /\ c2 s1 = Some (s', t2) /\ t = t1 ++ t2.
Proof.
  unfold andThen. split.
  - destruct (c1 s) as [[s1 t1]|] eqn:E1; [|discriminate].
    destruct (c2 s1) as [[s2 t2]|] eqn:E2; [|discriminate].
    intros [= <- <-]. exists s1, t1, t2. auto.
  - intros (s1 & t1 & t2 & -> & -> & ->). reflexivity.
Qed.

Lemma andThen_run (c1 c2 : Cmd) s s1 t1 :
  c1 s = Some (s1, t1) ->
  (c1 >> c2) s = match c2 s1 with Some (s2, t2) => Some (s2, t1 ++ t2) | None => None end.
Proof. unfold andThen. intros ->. reflexivity. Qed.

(** Breaking a successful run into the runs of its parts. *)
Ltac cmd_inv :=
  repeat match goal with
  | H : (_ >> _) _ = Some (_, ?t) |- _ =>
      let Ht := fresh "Ht" in
      apply andThen_Some in H; destruct H as (? & ? & ? & ? & H & Ht);
      try subst t
  | H : ret _ = Some _ |- _ => unfold ret in H
  | H : emit _ _ = Some _ |- _ => unfold emit in H
  | H : update _ _ = Some _ |- _ => unfold update in H
  | H : setState _ _ = Some _ |- _ => unfold setState in H
  | H : REQUIRE ?p ?s = Some _ |- _ =>
      unfold REQUIRE in H; destruct (p s) eqn:?; [|discriminate H]
  | H : when ?p _ ?s = Some _ |- _ =>
      unfold when in H; destruct (p s) eqn:?
  | H : ifElse ?p _ _ ?s = Some _ |- _ =>
      unfold ifElse in H; destruct (p s) eqn:?
  | H : (if ?b then _ else _) _ = Some _ |- _ => destruct b eqn:?
  | H : (if ?b then _ else _) = Some _ |- _ => destruct b eqn:?
  | H : Some (_, _) = Some (_, _) |- _ =>
      first [injection H as <- <- | injection H as ? ?]
  | H : None = Some _ |- _ => discriminate H
  end.

(** ** The event sequencer *)

Lemma slashes_nonneg s : 0 <= slashes s.
Proof. induction s as [|c s IH]; simpl; [lia|]. destruct (Ascii.eqb c slash); lia. Qed.

Lemma processed_app t1 t2 : processed (t1 ++ t2) = processed t1 ++ processed t2.
Proof. unfold processed. apply flat_map_app. Qed.

Lemma set_curEventIdx_twice a b s :
  set_curEventIdx_ a (set_curEventIdx_ b s) = set_curEventIdx_ a s.
Proof. destruct s; reflexivity. Qed.

Lemma set_curEventIdx_same s : set_curEventIdx_ (curEventIdx_ s) s = s.
Proof. destruct s; reflexivity. Qed.

Lemma incr64_small x : 0 <= x -> x + 1 < 2 ^ 64 -> incr64 x = x + 1.
Proof. intros. unfold incr64. apply Z.mod_small. lia. Qed.

(** The loop of handleEvents_ always runs to the end of the batch. *)
Lemma handleEvents_loop_total rest : forall event eventIdx s,
  exists s' t, handleEvents_loop rest event eventIdx s = Some (s', t).
Proof.
  induction rest as [|c rest IH]; intros event eventIdx s; simpl.
  - unfold ret. eauto.
  - destruct (Ascii.eqb c slash); [|apply IH].
    destruct (eventIdx =? curEventIdx_ s); [|apply IH].
    set (ev := String.append event (String c EmptyString)).
    destruct (IH EmptyString (incr64 eventIdx) (set_curEventIdx_ (incr64 eventIdx) s))
      as (s' & t & Hrun).
    unfold andThen, emit, update.
    destruct (processEvent ev); unfold ret, emit; rewrite Hrun; eauto.
Qed.

(** The loop writes no member but curEventIdx_. *)
Lemma handleEvents_loop_frame rest : forall event eventIdx s s' t,
  handleEvents_loop rest event eventIdx s = Some (s', t) ->
  s' = set_curEventIdx_ (curEventIdx_ s') s.
Proof.
  induction rest as [|c rest IH]; intros event eventIdx s s' t; simpl.
  - unfold ret. intros [= <- <-]. symmetry. apply set_curEventIdx_same.
  - destruct (Ascii.eqb c slash); [|apply IH].
    destruct (eventIdx =? curEventIdx_ s); [|apply IH].
    intros H. cmd_inv;
      match goal with H : handleEvents_loop _ _ _ _ = Some _ |- _ =>
        apply IH in H; rewrite H at 1; apply set_curEventIdx_twice end.
Qed.

(** Without wrap-around, a loop entered with [eventIdx] at or below the
    expectation calls processEvent under exactly the sequence numbers from
    the expectation up to the end of the batch, once each and in order. *)
Lemma handleEvents_loop_range rest : forall event eventIdx s s' t,
  0 <= eventIdx -> eventIdx <= curEventIdx_ s ->
  eventIdx + slashes rest < 2 ^ 64 ->
  handleEvents_loop rest event eventIdx s = Some (s', t) ->
  curEventIdx_ s' = Z.max (curEventIdx_ s) (eventIdx + slashes rest) /\
  processed t = seqZ (curEventIdx_ s) (eventIdx + slashes rest - curEventIdx_ s).
Proof.
  induction rest as [|c rest IH]; intros event eventIdx s s' t H0 Hle Hfit; simpl.
  - unfold ret. intros [= <- <-]. simpl. split; [lia|].
    rewrite seqZ_nil; [reflexivity|lia].
  - simpl in Hfit. pose proof (slashes_nonneg rest) as Hn.
    destruct (Ascii.eqb c slash).
    + destruct (Z.eqb_spec eventIdx (curEventIdx_ s)) as [Heq|Hne].
      * intros H.
        cmd_inv;
          match goal with H : handleEvents_loop _ _ _ _ = Some _ |- _ => rename H into Hrun end;
          rewrite incr64_small in Hrun by lia;
          (apply IH in Hrun; simpl; try lia);
          destruct Hrun as [Hcur Hproc]; simpl in Hcur, Hproc;
          (split; [lia|]);
          rewrite Hproc, (seqZ_cons (curEventIdx_ s)) by lia;
          rewrite <- Heq; f_equal; f_equal; lia.
      * rewrite incr64_small by lia. intros Hrun.
        apply IH in Hrun; try lia.
        destruct Hrun as [Hcur Hproc]. split; [lia|].
        rewrite Hproc. f_equal. lia.
    + intros Hrun. apply IH in Hrun; try lia.
      destruct Hrun as [Hcur Hproc]. split; [lia|]. rewrite Hproc. f_equal; lia.
Qed.

Lemma handleEvents__total startIdx events s :
  exists s' t, handleEvents_ startIdx events s = Some (s', t).
Proof.
  unfold handleEvents_, when, andThen.
  destruct (curEventIdx_ s <? startIdx).
  - unfold emit, update. simpl.
    destruct (handleEvents_loop_total events EmptyString startIdx
                (set_curEventIdx_ startIdx s)) as (s' & t & ->). eauto.
  - unfold ret.
    destruct (handleEvents_loop_total events EmptyString startIdx s) as (s' & t & ->).
    eauto.
Qed.

Lemma handleEvents__frame startIdx events s s' t :
  handleEvents_ startIdx events s = Some (s', t) ->
  s' = set_curEventIdx_ (curEventIdx_ s') s.
Proof.
  unfold handleEvents_. intros H. cmd_inv;
    match goal with H : handleEvents_loop _ _ _ _ = Some _ |- _ =>
      apply handleEvents_loop_frame in H; rewrite H at 1 end.
  - apply set_curEventIdx_twice.
  - reflexivity.
Qed.

(** One batch, without wrap-around: the expectation first jumps up to
    [startIdx] if it was below, then processEvent is called under the
    sequence numbers from the expectation to the end of the batch. *)
Lemma handleEvents__range startIdx events s s' t :
  batchFits startIdx events -> 0 <= curEventIdx_ s ->
  handleEvents_ startIdx events s = Some (s', t) ->
  curEventIdx_ s' = Z.max (curEventIdx_ s) (startIdx + slashes events) /\
  processed t = seqZ (Z.max (curEventIdx_ s) startIdx)
                     (startIdx + slashes events - Z.max (curEventIdx_ s) startIdx).
Proof.
  intros [H0 Hfit] Hcur. unfold handleEvents_. intros H.
  pose proof (slashes_nonneg events) as Hn.
  cmd_inv;
    match goal with H : handleEvents_loop _ _ _ _ = Some _ |- _ =>
      apply handleEvents_loop_range in H; simpl; try lia; destruct H as [Hc Hp] end;
    simpl in Hc, Hp; rewrite ?processed_app, Hp; simpl.
  - apply Z.ltb_lt in Heqb. rewrite (Z.max_r (curEventIdx_ s) startIdx) by lia. split; [lia|reflexivity].
  - apply Z.ltb_ge in Heqb. rewrite (Z.max_l (curEventIdx_ s) startIdx) by lia. split; [lia|reflexivity].
Qed.

(** ** Summaries of the helper methods *)

Lemma updateInactivityTimeout__run now shortened s :
  updateInactivityTimeout_ now shortened s = Some (rearmed now shortened s, []).
Proof.
  unfold updateInactivityTimeout_, rearmed, andThen, update, when, isLive.
  destruct s as [? ? ? ? ? ? ? ? ? ? st ? ? ? ? ? ? ? ? ? ? ? ?]; simpl.
  destruct st, shortened; reflexivity.
Qed.

Lemma updateSecurityStatus__run now s :
  updateSecurityStatus_ now s
  = Some (set_lastSecurityStatusUpdateTime_ now s, [SetSecurityStatus]).
Proof. reflexivity. Qed.

Lemma navigate__run now direction s :
  -1 <= direction <= 1 ->
  navigate_ now direction s =
    if elapsed_ms now (lastNavigateOperationTime_ s) <=? 200 then Some (s, [])
    else Some (set_lastNavigateOperationTime_ now s,
               if browser_ s
               then if direction =? -1 then [GoBack]
                    else if direction =? 0 then [Reload] else [GoForward]
               else []).
Proof.
  intros Hd. unfold navigate_, andThen, REQUIRE, when, update, ret.
  replace ((-1 <=? direction) && (direction <=? 1)) with true
    by (symmetry; apply andb_true_iff; split; apply Z.leb_le; lia).
  destruct (elapsed_ms now (lastNavigateOperationTime_ s) <=? 200); [reflexivity|].
  simpl. destruct (browser_ s); [|reflexivity].
  assert (direction = -1 \/ direction = 0 \/ direction = 1) as [->|[->| ->]] by lia;
    reflexivity.
Qed.

Lemma navigate__inv now direction s s' t :
  navigate_ now direction s = Some (s', t) ->
  (s' = s /\ t = []) \/
  (s' = set_lastNavigateOperationTime_ now s /\ t = navigations t /\
   200 < elapsed_ms now (lastNavigateOperationTime_ s)).
Proof.
  unfold navigate_. intros H.
  apply andThen_Some in H. destruct H as (s1 & t1 & t2 & Hreq & H & ->).
  unfold REQUIRE in Hreq.
  destruct ((-1 <=? direction) && (direction <=? 1)) eqn:Hd; [|discriminate].
  injection Hreq as <- <-.
  apply andb_true_iff in Hd. destruct Hd as [Hd1%Z.leb_le Hd2%Z.leb_le].
  pose proof (navigate__run now direction s (conj Hd1 Hd2)) as Hrun.
  unfold navigate_, andThen, REQUIRE in Hrun.
  destruct (Z.leb_spec (elapsed_ms now (lastNavigateOperationTime_ s)) 200) as [Hle|Hgt].
  - left. unfold ret in H. injection H as <- <-. auto.
  - right. cmd_inv; simpl; repeat split; auto.
Qed.

Lemma signalLoop_Some fuel : forall modulus signal x r,
  signalLoop fuel modulus signal x = Some r ->
  Z.rem r modulus = signal /\ r <= x /\ x - Z.of_nat fuel <= r /\
  forall y, r < y <= x -> Z.rem y modulus <> signal.
Proof.
  induction fuel as [|fuel IH]; intros modulus signal x r; simpl.
  - destruct (Z.eqb_spec (Z.rem x modulus) signal); [|discriminate].
    intros [= <-]. repeat split; try lia.
  - destruct (Z.eqb_spec (Z.rem x modulus) signal) as [Heq|Hne].
    + intros [= <-]. repeat split; try lia.
    + intros H. apply IH in H. destruct H as (Hr & Hle & Hge & Hmax).
      repeat split; try lia.
      intros y Hy. destruct (Z.eq_dec y x) as [->|]; [assumption|apply Hmax; lia].
Qed.

(** With a signal below the modulus and at least modulus - 1 to give
    away, the loop stops within modulus - 1 decrements. *)
Lemma signalLoop_total modulus signal x :
  0 <= signal < modulus -> modulus - 1 <= x ->
  exists r, signalLoop (Z.to_nat modulus) modulus signal x = Some r.
Proof.
  intros Hs Hx.
  assert (Hgen : forall fuel y, 0 <= y -> (y - signal) mod modulus <= Z.of_nat fuel ->
            (y - signal) mod modulus <= y ->
            exists r, signalLoop fuel modulus signal y = Some r).
  { induction fuel as [|fuel IH]; intros y Hy Hk Hky; simpl.
    - assert ((y - signal) mod modulus = 0) as Hz
        by (pose proof (Z.mod_pos_bound (y - signal) modulus); lia).
      assert (Z.rem y modulus = signal) as ->.
      { rewrite Z.rem_mod_nonneg by lia.
        apply Z.mod_divide in Hz; [|lia]. destruct Hz as [q Hq].
        replace y with (signal + q * modulus) by lia.
        rewrite Z.mod_add by lia. apply Z.mod_small. lia. }
      rewrite Z.eqb_refl. eauto.
    - destruct (Z.eqb_spec (Z.rem y modulus) signal); [eauto|].
      rewrite Z.rem_mod_nonneg in n by lia.
      assert ((y - signal) mod modulus <> 0) as Hnz.
      { intros Hz. apply n. apply Z.mod_divide in Hz; [|lia]. destruct Hz as [q Hq].
        replace y with (signal + q * modulus) by lia.
        rewrite Z.mod_add by lia. apply Z.mod_small. lia. }
      pose proof (Z.mod_pos_bound (y - signal) modulus ltac:(lia)) as Hb.
      assert ((y - 1 - signal) mod modulus = (y - signal) mod modulus - 1) as Hstep.
      { pose proof (Z.div_mod (y - signal) modulus ltac:(lia)) as Hdm.
        remember ((y - signal) mod modulus) as k.
        remember ((y - signal) / modulus) as q.
        replace (y - 1 - signal) with ((k - 1) + q * modulus) by lia.
        rewrite Z.mod_add by lia. apply Z.mod_small. lia. }
      apply IH; lia. }
  pose proof (Z.mod_pos_bound (x - signal) modulus ltac:(lia)) as Hb.
  apply Hgen; lia.
Qed.

Lemma handleEvents_loop_effects rest : forall event eventIdx s s' t,
  handleEvents_loop rest event eventIdx s = Some (s', t) -> Forall eventEffect t.
Proof.
  induction rest as [|c rest IH]; intros event eventIdx s s' t; simpl.
  - unfold ret. intros [= <- <-]. constructor.
  - destruct (Ascii.eqb c slash); [|apply IH].
    destruct (eventIdx =? curEventIdx_ s); [|apply IH].
    intros H. cmd_inv;
      match goal with H : handleEvents_loop _ _ _ _ = Some _ |- _ => apply IH in H end;
      repeat (apply Forall_app; split); try assumption;
      repeat constructor.
Qed.

Lemma handleEvents__writes startIdx events s s' t :
  handleEvents_ startIdx events s = Some (s', t) ->
  exists v, s' = set_curEventIdx_ v s /\ Forall eventEffect t /\
            (batchFits startIdx events -> 0 <= curEventIdx_ s -> curEventIdx_ s <= v).
Proof.
  intros H. pose proof (handleEvents__frame _ _ _ _ _ H) as Hf.
  split with (curEventIdx_ s'). split; [exact Hf|].
  split; [|intros Hfit Hcur; apply (handleEvents__range _ _ _ _ _ Hfit Hcur) in H; lia].
  unfold handleEvents_ in H. cmd_inv;
    match goal with H : handleEvents_loop _ _ _ _ = Some _ |- _ =>
      apply handleEvents_loop_effects in H end;
    repeat (apply Forall_app; split); try assumption; repeat constructor.
Qed.

Lemma sendViewportToCompressor__inv s s' t :
  sendViewportToCompressor_ s = Some (s', t) ->
  s' = s /\ exists w h, t = [UpdateImage w h].
Proof.
  unfold sendViewportToCompressor_. intros H. cmd_inv.
  repeat match goal with
  | H : match ?x with _ => _ end = Some _ |- _ => destruct x eqn:?; try discriminate H
  end.
  cmd_inv. split; [reflexivity|]. simpl. eauto.
Qed.

(** Inverting a run of any method down to assignments and effects. *)
Ltac unfold_methods H :=
  unfold handleHTTPRequest, dispatch, OnAfterCreated, OnBeforeClose, OnBeforePopup,
    OnPreKeyEvent, onGlobalHotkeyPressed, onWidgetViewDirty,
    onWidgetCursorChanged, onBrowserAreaViewDirty, onClipboardButtonPressed,
    onDownloadCompleted, onAddressSubmitted, onQualityChanged,
    fireInactivityTimeout, fireDownloadTimeout, afterConstruct_ in H;
  unfold imageRequest, iframeRequest, downloadRequest, closeRequest,
    mainRequest, prevRequest, nextRequest, inactivityTimeoutReached,
    downloadTimeoutReached, addIframe_ in H;
  unfold close, setWidthSignal_, setHeightSignal_, runIframe,
    updateRootViewportSize_, updateSecurityStatus_ in H.

Ltac methods_inv :=
  repeat first
  [ progress cmd_inv
  | match goal with
    | H : updateInactivityTimeout_ _ _ _ = Some _ |- _ =>
        rewrite updateInactivityTimeout__run in H
    | H : navigate_ _ _ _ = Some _ |- _ =>
        let Hn := fresh "Hnav" in
        apply navigate__inv in H; destruct H as [[-> ->]|(-> & Hn & ?)]
    | H : sendViewportToCompressor_ _ = Some _ |- _ =>
        apply sendViewportToCompressor__inv in H; destruct H as (-> & ? & ? & ->)
    | H : handleEvents_ _ _ _ = Some _ |- _ =>
        let Hev := fresh "Hev" in
        let Hmono := fresh "Hmono" in
        apply handleEvents__writes in H; destruct H as (? & -> & Hev & Hmono)
    | H : match ?x with _ => _ end = Some _ |- _ => destruct x eqn:?
    | H : (match ?x with _ => _ end) _ = Some _ |- _ => destruct x eqn:?
    end ].

Lemma create_viewportFits now id allowPNG isPopup created s t :
  Session_create now id allowPNG isPopup created = Some (s, t) -> viewportFits s.
Proof.
  unfold Session_create. intros H. unfold_methods H. methods_inv;
    unfold viewportFits, rearmed, isLive; simpl; lia.
Qed.

Lemma run_viewportFits op s s' t :
  viewportFits s -> run op s = Some (s', t) -> viewportFits s'.
Proof.
  intros Hfit H. destruct op; simpl in H; unfold_methods H; methods_inv;
    try exact Hfit;
    unfold viewportFits, rearmed in *; simpl in *;
    repeat match goal with |- context [if ?b then _ else _] => destruct b end;
    simpl; try lia.
Qed.

(** ** Shared facts about traces and the request handler *)

Lemma runAll_invariant (P : Session -> Prop) :
  (forall op s s' t, P s -> run op s = Some (s', t) -> P s') ->
  forall ops s s' t, P s -> runAll ops s = Some (s', t) -> P s'.
Proof.
  intros Hstep ops. induction ops as [|op ops IH]; intros s s' t HP H; simpl in H.
  - unfold ret in H. injection H as <- <-. exact HP.
  - apply andThen_Some in H. destruct H as (s1 & t1 & t2 & H1 & H2 & _).
    eapply IH; [|exact H2]. eapply Hstep; eassumption.
Qed.

Lemma transitions_app t1 t2 : transitions (t1 ++ t2) = transitions t1 ++ transitions t2.
Proof. unfold transitions. apply flat_map_app. Qed.

Lemma transitions_events t : Forall eventEffect t -> transitions t = [].
Proof.
  induction 1 as [|e t He _ IH]; [reflexivity|].
  unfold transitions in *. simpl. rewrite IH.
  destruct e; try contradiction; reflexivity.
Qed.

Lemma transitions_navigations t : t = navigations t -> transitions t = [].
Proof.
  intros ->. unfold navigations, transitions.
  induction t as [|e t IH]; [reflexivity|].
  simpl. destruct (isNavigation e) eqn:He; [|exact IH].
  simpl. rewrite IH. destruct e; try discriminate; reflexivity.
Qed.

Lemma State_eqb_eq a b : State_eqb a b = true <-> a = b.
Proof. destruct a, b; simpl; split; congruence. Qed.

(** Reading the assignments to state_ off an inverted run. *)
Ltac read_transitions :=
  repeat rewrite transitions_app;
  repeat match goal with
  | H : Forall eventEffect ?t |- _ => rewrite (transitions_events t H)
  | H : ?t = navigations ?t |- _ => rewrite (transitions_navigations t H)
  end;
  repeat match goal with
  | H : State_eqb (state_ _) _ = true |- _ => apply State_eqb_eq in H
  end.

Lemma succeeded_app t1 t2 : succeeded (t1 ++ t2) = succeeded t1 || succeeded t2.
Proof. unfold succeeded. apply existsb_app. Qed.

Lemma succeeded_events t : Forall eventEffect t -> succeeded t = false.
Proof.
  induction 1 as [|e t He _ IH]; [reflexivity|].
  unfold succeeded in *. simpl. rewrite IH.
  destruct e; try contradiction; reflexivity.
Qed.

Lemma succeeded_navigations t : t = navigations t -> succeeded t = false.
Proof.
  intros ->. unfold navigations, succeeded.
  induction t as [|e t IH]; [reflexivity|].
  simpl. destruct (isNavigation e) eqn:He; [|exact IH].
  simpl. rewrite IH. destruct e; try discriminate; reflexivity.
Qed.

Ltac read_success :=
  repeat rewrite succeeded_app in *;
  repeat match goal with
  | H : Forall eventEffect ?t |- _ => rewrite (succeeded_events t H) in *
  | H : ?t = navigations ?t |- _ => rewrite (succeeded_navigations t H) in *
  end.

(** Past the guard for closed sessions, handleHTTPRequest is the refresh
    of the security status followed by the branch of the route. *)
Lemma handleHTTPRequest_live now request s :
  isLive s = true ->
  handleHTTPRequest now request s =
    match dispatch now (route request) (refreshed now s) with
    | Some (s', t) => Some (s', refreshTrace now s ++ t)
    | None => None
    end.
Proof.
  intros Hlive. unfold handleHTTPRequest, isLive in *.
  destruct (state_ s); simpl in Hlive; try discriminate; simpl;
    unfold andThen, when, refreshed, refreshTrace;
    destruct (1000 <=? elapsed_ms now (lastSecurityStatusUpdateTime_ s));
    simpl; unfold ret;
    destruct (dispatch now (route request) _) as [[s' t]|]; reflexivity.
Qed.

Lemma handleHTTPRequest_closed now request s :
  isLive s = false ->
  handleHTTPRequest now request s =
    Some (s, [SendTextResponse 503 "ERROR: Browser session has been closed"]).
Proof.
  intros Hlive. unfold handleHTTPRequest, isLive in *.
  destruct (state_ s); simpl in Hlive; try discriminate; reflexivity.
Qed.

Lemma downloads__refreshed now s : downloads_ (refreshed now s) = downloads_ s.
Proof. unfold refreshed. destruct (1000 <=? _); reflexivity. Qed.

(** updateRootViewportSize_ always returns; on a session whose buffers fit
    it leaves the clamped request as the logical viewport. *)
Lemma updateRootViewportSize__run w h s :
  exists s1 t1,
    updateRootViewportSize_ w h s = Some (s1, t1) /\
    widthSignal_ s1 = widthSignal_ s /\ heightSignal_ s1 = heightSignal_ s /\
    (viewportFits s ->
     rootViewport_ s1 = {| width := clamp w; height := clamp h |} /\
     paddedRootViewport_ s1 =
       {| width := clamp w + WidthSignalModulus - 1;
          height := clamp h + HeightSignalModulus - 1 |}).
Proof.
  unfold updateRootViewportSize_, when. fold (clamp w) (clamp h).
  destruct (negb (width (rootViewport_ s) =? clamp w)
            || negb (height (rootViewport_ s) =? clamp h)) eqn:Hchg.
  - eexists _, _. split; [reflexivity|]. simpl. auto.
  - exists s, []. split; [reflexivity|]. split; [reflexivity|]. split; [reflexivity|].
    apply orb_false_iff in Hchg. destruct Hchg as [Hw Hh].
    apply negb_false_iff, Z.eqb_eq in Hw. apply negb_false_iff, Z.eqb_eq in Hh.
    intros (_ & _ & Hpw & Hph).
    destruct (rootViewport_ s) as [rw rh], (paddedRootViewport_ s) as [pw ph].
    simpl in *. subst. auto.
Qed.

Lemma total_andThen c1 c2 : total c1 -> total c2 -> total (c1 >> c2).
Proof.
  intros H1 H2 s. destruct (H1 s) as (s1 & t1 & E1). destruct (H2 s1) as (s2 & t2 & E2).
  exists s2, (t1 ++ t2). unfold andThen. rewrite E1, E2. reflexivity.
Qed.

Lemma total_emit e : total (emit e).
Proof. intros s. unfold emit. eauto. Qed.

Lemma total_update f : total (update f).
Proof. intros s. unfold update. eauto. Qed.

Lemma total_handleEvents_ startIdx events : total (handleEvents_ startIdx events).
Proof. intros s. apply handleEvents__total. Qed.

Lemma total_updateInactivityTimeout_ now shortened :
  total (updateInactivityTimeout_ now shortened).
Proof. intros s. rewrite updateInactivityTimeout__run. eauto. Qed.

Lemma total_updateRootViewportSize_ w h : total (updateRootViewportSize_ w h).
Proof.
  intros s. destruct (updateRootViewportSize__run w h s) as (s1 & t1 & H & _). eauto.
Qed.


(** ** Image polls *)

(** An image poll for the current page with a fresh imgIdx always gets
    through to the compressor. *)
Lemma imageRequest_accepts now a s :
  (a_mainIdx a =? curMainIdx_ s) && (curImgIdx_ s <? a_imgIdx a) = true ->
  exists s' t, imageRequest now a s = Some (s', t).
Proof.
  intros Hok. apply andb_true_iff in Hok. destruct Hok as [Hm Hi].
  unfold imageRequest. rewrite Hm. rewrite Z.ltb_antisym in Hi.
  apply negb_true_iff in Hi. rewrite Hi. simpl.
  apply total_andThen; [apply total_updateInactivityTimeout_|].
  apply total_andThen; [apply total_handleEvents_|].
  apply total_andThen; [apply total_update|].
  apply total_andThen; [apply total_updateRootViewportSize_|].
  destruct (a_immediate a =? 0); apply total_emit.
Qed.

(** C1 (amended): for a session that is Pending or Open and a request that
    routes as an image poll (the path matches and its numbers parse), the
    poll is accepted exactly when its mainIdx is the current one and its
    imgIdx is above the last accepted one: then imgIdx is recorded and the
    request goes to the compressor.  Every other such poll is answered 400
    "ERROR: Outdated request" and leaves the session as it was, up to the
    periodic refresh of the security status time stamp. *)
Theorem image_poll_accepted_iff_fresh now request a s :
  route request = RouteImage a -> isLive s = true ->
  if (a_mainIdx a =? curMainIdx_ s) && (curImgIdx_ s <? a_imgIdx a)
  then exists s' t,
         handleHTTPRequest now request s = Some (s', t) /\
         curImgIdx_ s' = a_imgIdx a /\ curMainIdx_ s' = curMainIdx_ s /\
         succeeded t = true /\
         In (if a_immediate a =? 0 then SendCompressedImageWait
             else SendCompressedImageNow) t
  else handleHTTPRequest now request s
       = Some (refreshed now s,
               refreshTrace now s ++ [SendTextResponse 400 "ERROR: Outdated request"]).
Proof.
  intros Hroute Hlive.
  destruct ((a_mainIdx a =? curMainIdx_ s) && (curImgIdx_ s <? a_imgIdx a)) eqn:Hok.
  - assert (exists s' t, handleHTTPRequest now request s = Some (s', t)) as (s' & t & H).
    { rewrite (handleHTTPRequest_live _ _ _ Hlive), Hroute. simpl.
      destruct (imageRequest_accepts now a (refreshed now s)) as (s' & t & ->); [|eauto].
      unfold refreshed. destruct (1000 <=? _); exact Hok. }
    exists s', t. split; [exact H|].
    apply andb_true_iff in Hok. destruct Hok as [Hm Hi].
    unfold_methods H. rewrite Hroute in H. methods_inv;
      simpl in *; try (rewrite Hm, Z.leb_antisym, Hi in *; discriminate);
      try (unfold isLive in Hlive; destruct (state_ s); simpl in *; discriminate);
      read_success; unfold rearmed; simpl;
      repeat match goal with |- context [if ?b then _ else _] => destruct b end;
      simpl; rewrite ?orb_true_r; repeat split; try reflexivity;
      rewrite ?in_app_iff; simpl; auto 10.
  - rewrite (handleHTTPRequest_live _ _ _ Hlive), Hroute. simpl.
    unfold imageRequest.
    replace (negb (a_mainIdx a =? curMainIdx_ (refreshed now s))
             || (a_imgIdx a <=? curImgIdx_ (refreshed now s))) with true; [reflexivity|].
    symmetry. unfold refreshed. destruct (1000 <=? _); simpl;
      rewrite Z.leb_antisym; destruct (a_mainIdx a =? curMainIdx_ s);
      simpl in *; rewrite ?Hok; reflexivity.
Qed.

(** ** At-most-once application of events *)

Lemma processed_events_only t :
  t = navigations t -> processed t = [].
Proof.
  intros ->. unfold navigations, processed.
  induction t as [|e t IH]; [reflexivity|].
  simpl. destruct (isNavigation e) eqn:He; [|exact IH].
  simpl. rewrite IH. destruct e; try discriminate; reflexivity.
Qed.

Lemma withinRange_nil lo hi : withinRange lo hi [].
Proof. split; constructor. Qed.

Lemma withinRange_seqZ lo hi a len :
  lo <= a -> a + len <= hi \/ len <= 0 -> withinRange lo hi (seqZ a len).
Proof.
  intros Hlo Hhi. split; [apply NoDup_seqZ|].
  apply Forall_forall. intros i Hi.
  apply elem_of_seqZ in Hi. lia.
Qed.

Lemma withinRange_app lo mid hi l1 l2 :
  lo <= mid <= hi ->
  withinRange lo mid l1 -> withinRange mid hi l2 -> withinRange lo hi (l1 ++ l2).
Proof.
  intros Hm [Hn1 Hr1] [Hn2 Hr2]. split.
  - apply NoDup_app. split; [exact Hn1|]. split; [|exact Hn2].
    intros i Hi1 Hi2.
    rewrite Forall_forall in Hr1, Hr2.
    specialize (Hr1 i Hi1). specialize (Hr2 i Hi2). lia.
  - apply Forall_app. split.
    + eapply Forall_impl; [exact Hr1|]. simpl. intros; lia.
    + eapply Forall_impl; [exact Hr2|]. simpl. intros; lia.
Qed.

(** What an image poll does to the event expectation. *)
Lemma imageRequest_processed now a s s' t :
  batchFits (a_startEventIdx a) (a_events a) -> 0 <= curEventIdx_ s ->
  imageRequest now a s = Some (s', t) ->
  curEventIdx_ s <= curEventIdx_ s' /\
  withinRange (curEventIdx_ s) (curEventIdx_ s') (processed t).
Proof.
  intros Hfit Hcur H. unfold imageRequest in H.
  destruct (negb (a_mainIdx a =? curMainIdx_ s) || (a_imgIdx a <=? curImgIdx_ s)).
  - unfold emit in H. injection H as <- <-. split; [lia|apply withinRange_nil].
  - apply andThen_Some in H. destruct H as (s1 & t1 & t2 & H1 & H & ->).
    rewrite updateInactivityTimeout__run in H1. injection H1 as <- <-.
    apply andThen_Some in H. destruct H as (s2 & t2' & t3 & H2 & H & ->).
    assert (curEventIdx_ (rearmed now false s) = curEventIdx_ s) as Hr
      by (unfold rearmed; destruct (isLive s); reflexivity).
    pose proof (handleEvents__range _ _ _ _ _ Hfit ltac:(rewrite Hr; exact Hcur) H2)
      as [Hc Hp].
    rewrite Hr in Hc, Hp.
    assert (curEventIdx_ s' = curEventIdx_ s2 /\ processed t3 = []) as [Hs' Ht3].
    { unfold_methods H. methods_inv; simpl; auto. }
    rewrite Hs', Hc. simpl. rewrite processed_app, Ht3, app_nil_r, Hp.
    destruct Hfit as [Hs0 _]. pose proof (slashes_nonneg (a_events a)).
    split; [lia|]. apply withinRange_seqZ; lia.
Qed.

(** Closing the cases of an inverted run that call processEvent nowhere. *)
Ltac no_events :=
  unfold rearmed; simpl;
  repeat match goal with |- context [if ?b then _ else _] => destruct b end;
  simpl; rewrite ?processed_app;
  repeat match goal with
  | H : ?t = navigations ?t |- _ => rewrite (processed_events_only t H)
  end;
  simpl; (split; [lia|apply withinRange_nil]).

(** What one operation within the generation does to the expectation. *)
Lemma run_processed op s s' t :
  keepsGeneration op -> 0 <= curEventIdx_ s ->
  run op s = Some (s', t) ->
  curEventIdx_ s <= curEventIdx_ s' /\
  withinRange (curEventIdx_ s) (curEventIdx_ s') (processed t).
Proof.
  intros Hkeep Hcur H.
  destruct op;
    try (simpl in H; unfold_methods H; methods_inv; no_events).
  simpl in H, Hkeep. unfold handleHTTPRequest in H.
  destruct (State_eqb (state_ s) Closing || State_eqb (state_ s) Closed).
  { unfold emit in H. injection H as <- <-. split; [lia|apply withinRange_nil]. }
  apply andThen_Some in H. destruct H as (s1 & t1 & t2 & H1 & H & ->).
  assert (curEventIdx_ s1 = curEventIdx_ s /\ processed t1 = []) as [Hs1 Ht1].
  { unfold_methods H1. methods_inv; simpl; auto. }
  rewrite processed_app, Ht1. simpl. rewrite <- Hs1 in *.
  destruct (route request) eqn:Hroute; try contradiction; simpl in H;
    [eapply imageRequest_processed; eassumption|..];
    unfold_methods H; methods_inv; no_events.
Qed.

Lemma runAll_processed ops : forall s s' t,
  Forall keepsGeneration ops -> 0 <= curEventIdx_ s ->
  runAll ops s = Some (s', t) ->
  curEventIdx_ s <= curEventIdx_ s' /\
  withinRange (curEventIdx_ s) (curEventIdx_ s') (processed t).
Proof.
  induction ops as [|op ops IH]; intros s s' t Hkeep Hcur H; simpl in H.
  - unfold ret in H. injection H as <- <-. split; [lia|apply withinRange_nil].
  - apply andThen_Some in H. destruct H as (s1 & t1 & t2 & H1 & H2 & ->).
    inversion Hkeep as [|? ? Hop Hops]; subst.
    destruct (run_processed _ _ _ _ Hop Hcur H1) as [Hle1 Hr1].
    assert (0 <= curEventIdx_ s1) as Hcur1 by lia.
    destruct (IH _ _ _ Hops Hcur1 H2) as [Hle2 Hr2].
    split; [lia|]. rewrite processed_app.
    eapply withinRange_app; [|exact Hr1|exact Hr2]. lia.
Qed.

(** C2 (amended): as long as sequence numbers stay below 2^64, one batch
    first raises the expectation to startEventIdx if it was below (those
    events are lost), then calls processEvent under exactly the sequence
    numbers from the expectation to the end of the batch, once each and
    in order, skipping the tokens below the expectation; the expectation
    ends one past the last number processed.  Over any run of operations
    within one page generation, overlapping batches included, no sequence
    number is processed twice. *)
Theorem events_applied_at_most_once ops s s' t :
  Forall keepsGeneration ops -> 0 <= curEventIdx_ s ->
  runAll ops s = Some (s', t) ->
  NoDup (processed t) /\
  Forall (fun i => curEventIdx_ s <= i < curEventIdx_ s') (processed t) /\
  curEventIdx_ s <= curEventIdx_ s' /\
  (forall startIdx events s0 s1 t1,
     batchFits startIdx events -> 0 <= curEventIdx_ s0 ->
     handleEvents_ startIdx events s0 = Some (s1, t1) ->
     curEventIdx_ s1 = Z.max (curEventIdx_ s0) (startIdx + slashes events) /\
     processed t1 = seqZ (Z.max (curEventIdx_ s0) startIdx)
                         (startIdx + slashes events - Z.max (curEventIdx_ s0) startIdx)).
Proof.
  intros Hkeep Hcur H.
  destruct (runAll_processed _ _ _ _ Hkeep Hcur H) as [Hle [Hnd Hin]].
  split; [exact Hnd|]. split; [exact Hin|]. split; [exact Hle|].
  intros startIdx events s0 s1 t1. apply handleEvents__range.
Qed.

(** ** Frame dimensions *)

Lemma reachable_viewportFits s : reachable s -> viewportFits s.
Proof.
  induction 1 as [now id allowPNG isPopup created s t Hc|op s s' t _ IH Hrun].
  - eapply create_viewportFits; eassumption.
  - eapply run_viewportFits; eassumption.
Qed.

Lemma signalLoop_None fuel : forall modulus signal x,
  signalLoop fuel modulus signal x = None ->
  forall y, x - Z.of_nat fuel <= y <= x -> Z.rem y modulus <> signal.
Proof.
  induction fuel as [|fuel IH]; intros modulus signal x; simpl.
  - destruct (Z.eqb_spec (Z.rem x modulus) signal) as [|Hne]; [discriminate|].
    intros _ y Hy. replace y with x by lia. exact Hne.
  - destruct (Z.eqb_spec (Z.rem x modulus) signal) as [|Hne]; [discriminate|].
    intros H y Hy. destruct (Z.eq_dec y x) as [->|]; [exact Hne|].
    apply (IH _ _ _ H). lia.
Qed.

(** The cut-off loses nothing: a loop that is cut off after [modulus]
    decrements would never have met the signal. *)
Lemma signalLoop_cut_off modulus signal x :
  0 <= signal < modulus ->
  signalLoop (Z.to_nat modulus) modulus signal x = None ->
  forall y, y <= x -> Z.rem y modulus <> signal.
Proof.
  intros Hs Hnone y Hy Hrem.
  pose proof (Z.div_mod (x - y) modulus ltac:(lia)) as Hdm.
  pose proof (Z.mod_pos_bound (x - y) modulus ltac:(lia)) as Hb.
  assert (0 <= (x - y) / modulus) as Hk by (apply Z.div_pos; lia).
  remember ((x - y) / modulus) as k.
  remember ((x - y) mod modulus) as r.
  apply (signalLoop_None _ _ _ _ Hnone (y + modulus * k));
    [rewrite Z2Nat.id by lia; lia|].
  destruct (Z_lt_le_dec y 0) as [Hneg|Hpos].
  - assert (signal = 0) as ->.
    { pose proof (Z.rem_nonpos y modulus ltac:(lia) ltac:(lia)). lia. }
    apply Z.rem_divide in Hrem; [|lia].
    apply Z.rem_divide; [lia|].
    apply Z.divide_add_r; [exact Hrem|apply Z.divide_factor_l].
  - rewrite Z.rem_mod_nonneg in Hrem |- * by nia.
    rewrite Z.mul_comm, Z.mod_add by lia. exact Hrem.
Qed.

Lemma rem_largest modulus signal x r :
  0 <= signal -> 0 <= r ->
  Z.rem r modulus = signal -> r <= x ->
  (forall y, r < y <= x -> Z.rem y modulus <> signal) ->
  forall y, y <= x -> Z.rem y modulus = signal -> y <= r.
Proof.
  intros Hs Hr Hrem Hle Hmax y Hy Hyrem.
  destruct (Z_le_gt_dec y r) as [|Hgt]; [assumption|].
  exfalso. apply (Hmax y); [lia|assumption].
Qed.

(** The loop of sendViewportToCompressor_ on a padded dimension
    [logical + modulus - 1]: it ends, and what it ends with is the largest
    value up to the padded one whose remainder is the signal; it lies in
    the padding. *)
Lemma signalLoop_padded modulus signal logical :
  0 <= signal < modulus -> 0 <= logical ->
  exists r,
    signalLoop (Z.to_nat modulus) modulus signal (logical + modulus - 1) = Some r /\
    Z.rem r modulus = signal /\
    (forall y, y <= logical + modulus - 1 -> Z.rem y modulus = signal -> y <= r) /\
    logical <= r < logical + modulus.
Proof.
  intros Hs Hl.
  destruct (signalLoop_total modulus signal (logical + modulus - 1)) as [r Hr]; [lia|lia|].
  exists r. split; [assumption|].
  apply signalLoop_Some in Hr. destruct Hr as (Hrem & Hle & Hge & Hmax).
  assert (Hin : logical <= r).
  { set (x := logical + modulus - 1) in *.
    pose proof (Z.mod_pos_bound (x - signal) modulus ltac:(lia)) as Hb.
    pose proof (Z.div_mod (x - signal) modulus ltac:(lia)) as Hdm.
    remember ((x - signal) mod modulus) as k.
    remember ((x - signal) / modulus) as q.
    assert (Z.rem (x - k) modulus = signal) as Hy0.
    { rewrite Z.rem_mod_nonneg by lia.
      replace (x - k) with (signal + q * modulus) by lia.
      rewrite Z.mod_add by lia. apply Z.mod_small. lia. }
    destruct (Z_le_gt_dec (x - k) r) as [|Hgt]; [lia|].
    exfalso. apply (Hmax (x - k)); [lia|assumption]. }
  split; [assumption|]. split; [|lia].
  apply rem_largest; try lia; assumption.
Qed.

Lemma sendViewportToCompressor__run s w h :
  0 <= widthSignal_ s < WidthSignalModulus ->
  0 <= heightSignal_ s < HeightSignalModulus ->
  signalLoop (Z.to_nat WidthSignalModulus) WidthSignalModulus (widthSignal_ s)
             (width (paddedRootViewport_ s)) = Some w ->
  signalLoop (Z.to_nat HeightSignalModulus) HeightSignalModulus (heightSignal_ s)
             (height (paddedRootViewport_ s)) = Some h ->
  sendViewportToCompressor_ s = Some (s, [UpdateImage w h]).
Proof.
  intros Hws Hhs Hw Hh. unfold sendViewportToCompressor_.
  assert (REQUIRE (fun s => (0 <=? widthSignal_ s) && (widthSignal_ s <? WidthSignalModulus)) s
          = Some (s, [])) as Hr1.
  { unfold REQUIRE.
    replace ((0 <=? widthSignal_ s) && (widthSignal_ s <? WidthSignalModulus)) with true;
      [reflexivity|].
    symmetry; apply andb_true_iff; split; [apply Z.leb_le|apply Z.ltb_lt]; lia. }
  assert (REQUIRE (fun s => (0 <=? heightSignal_ s) && (heightSignal_ s <? HeightSignalModulus)) s
          = Some (s, [])) as Hr2.
  { unfold REQUIRE.
    replace ((0 <=? heightSignal_ s) && (heightSignal_ s <? HeightSignalModulus)) with true;
      [reflexivity|].
    symmetry; apply andb_true_iff; split; [apply Z.leb_le|apply Z.ltb_lt]; lia. }
  rewrite (andThen_run _ _ _ _ _ Hr1), (andThen_run _ _ _ _ _ Hr2), Hw, Hh.
  reflexivity.
Qed.

(** C3 (amended): after the viewport is resized to a requested size, the
    logical viewport is the request clamped to [64,4096] and the padded
    buffer is (logical width + Wmod - 1) x (logical height + Hmod - 1);
    the frame handed to the compressor has the largest width up to the
    padded width whose remainder by Wmod is widthSignal, and the largest
    such height for Hmod and heightSignal.  The delivered width therefore
    lies in [logical, logical + Wmod) and the height in
    [logical, logical + Hmod): for Wmod = 4, Hmod = 8 and a request of
    801 x 600 that is [801,805) x [600,608). *)
Theorem delivered_frame_is_largest_with_signal requestedW requestedH s :
  viewportFits s ->
  0 <= widthSignal_ s < WidthSignalModulus ->
  0 <= heightSignal_ s < HeightSignalModulus ->
  exists s1 t1 w h,
    updateRootViewportSize_ requestedW requestedH s = Some (s1, t1) /\
    sendViewportToCompressor_ s1 = Some (s1, [UpdateImage w h]) /\
    rootViewport_ s1 = {| width := clamp requestedW; height := clamp requestedH |} /\
    paddedRootViewport_ s1 =
      {| width := clamp requestedW + WidthSignalModulus - 1;
         height := clamp requestedH + HeightSignalModulus - 1 |} /\
    Z.rem w WidthSignalModulus = widthSignal_ s /\
    (forall w', w' <= width (paddedRootViewport_ s1) ->
                Z.rem w' WidthSignalModulus = widthSignal_ s -> w' <= w) /\
    Z.rem h HeightSignalModulus = heightSignal_ s /\
    (forall h', h' <= height (paddedRootViewport_ s1) ->
                Z.rem h' HeightSignalModulus = heightSignal_ s -> h' <= h) /\
    clamp requestedW <= w < clamp requestedW + WidthSignalModulus /\
    clamp requestedH <= h < clamp requestedH + HeightSignalModulus.
Proof.
  intros Hfit Hws Hhs.
  destruct (updateRootViewportSize__run requestedW requestedH s)
    as (s1 & t1 & Hrun & Hsw & Hsh & Hview).
  destruct (Hview Hfit) as [Hroot Hpad]. clear Hview.
  assert (0 <= clamp requestedW /\ 0 <= clamp requestedH) as [Hcw Hch]
    by (unfold clamp; lia).
  destruct (signalLoop_padded WidthSignalModulus (widthSignal_ s) (clamp requestedW))
    as (w & Hw & Hwrem & Hwmax & Hwin); [lia|lia|].
  destruct (signalLoop_padded HeightSignalModulus (heightSignal_ s) (clamp requestedH))
    as (h & Hh & Hhrem & Hhmax & Hhin); [lia|lia|].
  exists s1, t1, w, h. rewrite Hpad. simpl.
  split; [assumption|].
  split; [|tauto].
  apply sendViewportToCompressor__run; rewrite ?Hsw, ?Hsh, ?Hpad; simpl; assumption.
Qed.

(** ** State transitions *)

Lemma create_walk now id allowPNG isPopup created s t :
  Session_create now id allowPNG isPopup created = Some (s, t) ->
  walk stateEdge Pending (transitions t) = Some (state_ s).
Proof.
  unfold Session_create. intros H. unfold_methods H. methods_inv;
    read_transitions; unfold rearmed, isLive; simpl; reflexivity.
Qed.

Lemma run_walk op s s' t :
  run op s = Some (s', t) ->
  walk stateEdge (state_ s) (transitions t) = Some (state_ s').
Proof.
  intros H. destruct op; simpl in H; unfold_methods H; methods_inv;
    read_transitions; unfold rearmed, isLive in *; simpl in *;
    destruct (state_ s) eqn:Hst; simpl in *; try discriminate; try reflexivity;
    repeat match goal with |- context [if ?b then _ else _] => destruct b end;
    simpl in *; try reflexivity; try discriminate; try congruence.
Qed.

(** C4 (amended): every assignment to state_, in Session::create and in
    every operation on any session, is one of Pending to Open, Open to
    Closing, Closing to Closed, Pending to Closed, or Open to Closed (the
    browser reports its close while the session is Open); state_ changes in
    no other way. *)
Theorem state_changes_along_edges :
  (forall now id allowPNG isPopup created s t,
     Session_create now id allowPNG isPopup created = Some (s, t) ->
     walk stateEdge Pending (transitions t) = Some (state_ s)) /\
  (forall op s s' t,
     run op s = Some (s', t) ->
     walk stateEdge (state_ s) (transitions t) = Some (state_ s')).
Proof. split; [exact create_walk|exact run_walk]. Qed.

(** ** Counters *)

(** C5 (amended): as long as no 64-bit counter wraps, every operation
    leaves mainIdx and downloadIdx at or above their old values; imgIdx
    and eventIdx do not decrease while mainIdx stays the same, and the
    operations that increment mainIdx (the close endpoint and a reload of
    the main page) reset both to zero. *)
Theorem counters_grow_within_a_generation op s s' t :
  countersBelowTop s -> opFits op ->
  run op s = Some (s', t) ->
  curMainIdx_ s <= curMainIdx_ s' /\
  curDownloadIdx_ s <= curDownloadIdx_ s' /\
  (curMainIdx_ s' = curMainIdx_ s ->
   curImgIdx_ s <= curImgIdx_ s' /\ curEventIdx_ s <= curEventIdx_ s') /\
  (curMainIdx_ s' <> curMainIdx_ s ->
   curMainIdx_ s' = curMainIdx_ s + 1 /\ curImgIdx_ s' = 0 /\ curEventIdx_ s' = 0).
Proof.
  intros (Hm0 & Hm1 & Hd0 & Hd1 & He0) Hfit H.
  destruct op; simpl in H, Hfit; unfold_methods H; methods_inv;
    repeat match goal with
    | Hr : route ?r = _, Hf : match route ?r with _ => _ end |- _ => rewrite Hr in Hf
    end;
    unfold rearmed in *; simpl in *;
    repeat match goal with
    | |- context [if ?b then _ else _] => destruct b eqn:?
    | H : context [if ?b then _ else _] |- _ => destruct b eqn:?
    end;
    simpl in *;
    repeat match goal with
    | Hmono : batchFits _ _ -> _ -> _ <= _, Hf : batchFits _ _ |- _ =>
        specialize (Hmono Hf ltac:(assumption))
    end;
    rewrite ?incr64_small by lia;
    repeat match goal with
    | H : (_ || _) = false |- _ => apply orb_false_iff in H; destruct H
    | H : negb _ = false |- _ => apply negb_false_iff in H
    | H : (_ =? _) = true |- _ => apply Z.eqb_eq in H
    | H : (_ <=? _) = false |- _ => apply Z.leb_gt in H
    end;
    lia.
Qed.

(** ** Inactivity timers *)

(** C6 (amended): a request that is answered with a success response
    rearms the long inactivity timer when it is an image poll, a main,
    prev or next page request, or an iframe poll that finds a queued
    sub-page; the close endpoint arms the short timer instead.  An iframe
    poll answered "OK" on an empty queue and a download fetch leave both
    timers as they were, as does every rejected request. *)
Theorem accepted_request_timers now request s s' t :
  handleHTTPRequest now request s = Some (s', t) ->
  (succeeded t = true ->
   match route request with
   | RouteImage _ | RouteMain | RoutePrev | RouteNext => longRearmed now s s'
   | RouteIframe _ =>
       match iframeQueue_ s with
       | [] => timersUntouched s s'
       | _ :: _ => longRearmed now s s'
       end
   | RouteDownload _ => timersUntouched s s'
   | RouteClose _ => shortArmed now s s'
   | RouteInvalid => False
   end) /\
  (succeeded t = false -> timersUntouched s s').
Proof.
  intros H. unfold_methods H. methods_inv;
    read_success;
    repeat match goal with
    | H : iframeQueue_ _ = _ |- _ => simpl in H; rewrite H
    end;
    unfold longRearmed, shortArmed, timersUntouched, rearmed, isLive in *;
    simpl in *;
    (split; intros Hs; try discriminate Hs);
    repeat match goal with
    | H : (_ || _) = false |- _ => apply orb_false_iff in H; destruct H
    end;
    try discriminate;
    try (split; reflexivity);
    destruct (state_ s); simpl in *; try discriminate; split; reflexivity.
Qed.

(** ** Download ledger *)

(** One operation leaves a ledger entry as it is, unless the operation is
    the entry's own timeout falling due. *)
Lemma run_download_entry op s s' t idx file timeout :
  downloads_ s !! idx = Some (file, timeout) ->
  run op s = Some (s', t) ->
  downloads_ s' !! idx = Some (file, timeout) \/
  exists now, op = OpDownloadTimeout now idx /\ Timeout_due now timeout = true /\
              downloads_ s' !! idx = None.
Proof.
  intros Hin H. destruct op; simpl in H; unfold_methods H; methods_inv;
    unfold rearmed in *; simpl in *;
    repeat match goal with
    | |- context [if ?b then _ else _] => destruct b
    end; simpl in *;
    try (left; exact Hin);
    try (left; rewrite lookup_insert_ne; [exact Hin|];
         intros Heq; rewrite Heq in *;
         match goal with H : match downloads_ _ !! _ with _ => _ end = true |- _ =>
           rewrite Hin in H; discriminate H end).
  (* a download timeout *)
  destruct (Z.eq_dec downloadIdx idx) as [->|Hne].
  - right. exists now. rewrite lookup_delete_eq.
    repeat split; congruence.
  - left. rewrite lookup_delete_ne; [exact Hin|exact Hne].
Qed.

(** ** Deferred close *)

(** Nothing ever clears closeOnOpen_. *)
Lemma run_closeOnOpen op s s' t :
  closeOnOpen_ s = true -> run op s = Some (s', t) -> closeOnOpen_ s' = true.
Proof.
  intros Hc H. destruct op; simpl in H; unfold_methods H; methods_inv;
    try exact Hc; try reflexivity;
    unfold rearmed; simpl;
    repeat match goal with |- context [if ?b then _ else _] => destruct b end;
    simpl; try exact Hc; reflexivity.
Qed.

(** C8: close() on a Pending session sets closeOnOpen_ and nothing else.
    Whatever runs afterwards, as long as the session is still Pending when
    the browser reports that it was created, OnAfterCreated takes the
    session from Pending to Open and on to Closing in the same call (asking
    the browser to close), so the call does not return with the session
    Open. *)
Theorem close_while_pending_closes_on_open s :
  state_ s = Pending ->
  close s = Some (set_closeOnOpen_ true s, [Log LogCloseDeferred]) /\
  forall ops s1 t1,
    runAll ops (set_closeOnOpen_ true s) = Some (s1, t1) ->
    state_ s1 = Pending ->
    exists s2 t2,
      OnAfterCreated s1 = Some (s2, t2) /\
      transitions t2 = [(Pending, Open); (Open, Closing)] /\
      In CloseBrowser t2 /\
      state_ s2 = Closing.
Proof.
  intros Hp. split.
  - unfold close. rewrite Hp. reflexivity.
  - intros ops s1 t1 Hrun Hp1.
    assert (closeOnOpen_ s1 = true) as Hc.
    { apply (runAll_invariant (fun s => closeOnOpen_ s = true) run_closeOnOpen)
        in Hrun; [exact Hrun|reflexivity]. }
    destruct s1; simpl in Hp1, Hc; subst.
    eexists _, _. split; [reflexivity|].
    simpl. auto 10.
Qed.

(** ** Navigation debounce *)

Lemma elapsed_ms_within now since n :
  now - since <= n * ticks_per_ms -> elapsed_ms now since <= n.
Proof.
  intros H. unfold elapsed_ms.
  rewrite <- (Z.quot_mul n ticks_per_ms) by (unfold ticks_per_ms; lia).
  apply Z.quot_le_mono; [unfold ticks_per_ms; lia|assumption].
Qed.

Lemma elapsed_ms_beyond now since n :
  n * ticks_per_ms <= now - since -> n <= elapsed_ms now since.
Proof.
  intros H. unfold elapsed_ms.
  rewrite <- (Z.quot_mul n ticks_per_ms) at 1 by (unfold ticks_per_ms; lia).
  apply Z.quot_le_mono; [unfold ticks_per_ms; lia|assumption].
Qed.

Lemma navigations_one direction :
  length (navigations (if direction =? -1 then [GoBack]
                       else if direction =? 0 then [Reload] else [GoForward])) = 1%nat.
Proof. destruct (direction =? -1), (direction =? 0); reflexivity. Qed.

(** C9 (amended): when a call of navigate_ at clock reading [now1] is
    itself issued (the browser is present and the last issued call, or
    the construction of the session, lies more than 200ms back), a second
    call at [now2] sends nothing and leaves the session as it is when the
    truncated millisecond difference is at most 200, in particular
    whenever the two are at most 200ms apart, and sends its own command
    otherwise.  Two such triggers 50ms apart give one command in all, two
    triggers 300ms apart give two. *)
Theorem navigate_debounce now1 now2 d1 d2 s :
  -1 <= d1 <= 1 -> -1 <= d2 <= 1 ->
  browser_ s = true ->
  200 < elapsed_ms now1 (lastNavigateOperationTime_ s) ->
  exists s1 t1 s2 t2,
    navigate_ now1 d1 s = Some (s1, t1) /\
    length (navigations t1) = 1%nat /\
    navigate_ now2 d2 s1 = Some (s2, t2) /\
    (elapsed_ms now2 now1 <= 200 -> t2 = [] /\ s2 = s1) /\
    (now2 - now1 <= 200 * ticks_per_ms -> t2 = [] /\ s2 = s1) /\
    (200 < elapsed_ms now2 now1 -> length (navigations t2) = 1%nat) /\
    (now2 - now1 = 50 * ticks_per_ms -> length (navigations (t1 ++ t2)) = 1%nat) /\
    (now2 - now1 = 300 * ticks_per_ms -> length (navigations (t1 ++ t2)) = 2%nat).
Proof.
  intros Hd1 Hd2 Hb Hfirst.
  pose proof (navigate__run now1 d1 s Hd1) as H1.
  destruct (Z.leb_spec (elapsed_ms now1 (lastNavigateOperationTime_ s)) 200) as [|_]; [lia|].
  rewrite Hb in H1.
  set (s1 := set_lastNavigateOperationTime_ now1 s) in *.
  pose proof (navigate__run now2 d2 s1 Hd2) as H2.
  change (lastNavigateOperationTime_ s1) with now1 in H2.
  change (browser_ s1) with (browser_ s) in H2. rewrite Hb in H2.
  pose proof (navigations_one d1) as Hn1.
  pose proof (navigations_one d2) as Hn2.
  assert (Hsupp : elapsed_ms now2 now1 <= 200 ->
            navigate_ now2 d2 s1 = Some (s1, [])).
  { intros Hle. rewrite H2. destruct (Z.leb_spec (elapsed_ms now2 now1) 200); [reflexivity|lia]. }
  destruct (Z.leb_spec (elapsed_ms now2 now1) 200) as [Hle|Hgt].
  - eexists s1, _, s1, []. split; [exact H1|]. split; [exact Hn1|]. split; [exact H2|].
    split; [auto|]. split; [auto|]. split; [lia|].
    rewrite app_nil_r. split; [intros _; exact Hn1|].
    intros H300. pose proof (elapsed_ms_beyond now2 now1 300). lia.
  - eexists s1, _, _, _. split; [exact H1|]. split; [exact Hn1|]. split; [exact H2|].
    split; [lia|].
    split; [intros Hw; apply elapsed_ms_within in Hw; lia|].
    split; [intros _; exact Hn2|].
    split.
    + intros H50. pose proof (elapsed_ms_within now2 now1 50). lia.
    + intros _. unfold navigations in *. rewrite List.filter_app, length_app, Hn1, Hn2.
      reflexivity.
Qed.

(** ** Events that do not parse *)

Lemma append_cons c a b : String.append (String c a) b = String c (String.append a b).
Proof. reflexivity. Qed.

Lemma append_empty_r s : String.append s EmptyString = s.
Proof.
  induction s as [|c s IH]; [reflexivity|]. rewrite append_cons. f_equal. exact IH.
Qed.

Lemma append_cons_assoc a c b :
  String.append (String.append a (String c EmptyString)) b = String.append a (String c b).
Proof.
  induction a as [|d a IH]; [reflexivity|]. rewrite !append_cons. f_equal. exact IH.
Qed.

(** Reading an event text up to its '/' takes the loop to the '/' with the
    text collected and changes nothing. *)
Lemma handleEvents_loop_scan tok : forall event rest eventIdx,
  noSlash tok = true ->
  handleEvents_loop (String.append tok rest) event eventIdx
  = handleEvents_loop rest (String.append event tok) eventIdx.
Proof.
  induction tok as [|c tok IH]; intros event rest eventIdx Hns.
  - rewrite append_empty_r. reflexivity.
  - rewrite append_cons. simpl. unfold noSlash in Hns. simpl in Hns. apply andb_true_iff in Hns.
    destruct Hns as [Hc Hns]. apply negb_true_iff in Hc. rewrite Hc.
    rewrite (IH _ _ _ Hns), append_cons_assoc. reflexivity.
Qed.

(** ** Invariants of the session *)

Lemma create_browserMatchesState now id allowPNG isPopup created s t :
  Session_create now id allowPNG isPopup created = Some (s, t) -> browserMatchesState s.
Proof.
  unfold Session_create. intros H. unfold_methods H. methods_inv;
    unfold browserMatchesState, rearmed, isLive; simpl; reflexivity.
Qed.

Lemma run_browserMatchesState op s s' t :
  browserMatchesState s -> run op s = Some (s', t) -> browserMatchesState s'.
Proof.
  unfold browserMatchesState.
  intros Hinv H. destruct op; simpl in H; unfold_methods H; methods_inv;
    try exact Hinv;
    unfold rearmed, isLive in *; simpl in *;
    repeat match goal with
    | H : State_eqb (state_ _) _ = true |- _ => apply State_eqb_eq in H
    | H : State_eqb (state_ _) _ || State_eqb (state_ _) _ = true |- _ =>
        apply orb_true_iff in H; destruct H
    | |- context [if ?b then _ else _] => destruct b eqn:?
    end;
    simpl in *; try congruence;
    repeat match goal with H : state_ ?x = _ |- _ => rewrite H in *; clear H end;
    simpl in *; congruence.
Qed.

Lemma reachable_browserMatchesState s : reachable s -> browserMatchesState s.
Proof.
  induction 1 as [now id allowPNG isPopup created s t H|op s s' t _ IH H].
  - eapply create_browserMatchesState, H.
  - eapply run_browserMatchesState; eassumption.
Qed.

(** X16: browser_ holds a browser exactly while the session is Open or
    Closing, whatever has run on it, so close() never meets its
    REQUIRE(browser_) without one. *)
Theorem browser_present_iff_open_or_closing (s : Session) :
  reachable s ->
  browserMatchesState s /\ exists s' t, close s = Some (s', t).
Proof.
  intros Hreach.
  pose proof (reachable_browserMatchesState s Hreach) as Hinv.
  split; [exact Hinv|].
  unfold browserMatchesState in Hinv. unfold close.
  destruct (state_ s) eqn:Hst.
  - unfold andThen, emit, update. eauto.
  - unfold andThen, emit, setState, REQUIRE. simpl. rewrite Hinv. simpl. eauto.
  - unfold ret. eauto.
  - unfold ret. eauto.
Qed.

Lemma create_signalsTrackState now id allowPNG isPopup created s t :
  Session_create now id allowPNG isPopup created = Some (s, t) -> signalsTrackState s.
Proof.
  unfold Session_create. intros H. unfold_methods H. methods_inv;
    unfold signalsTrackState, rearmed, isLive; simpl; auto.
Qed.

Lemma run_signalsTrackState op s s' t :
  signalsTrackState s -> run op s = Some (s', t) -> signalsTrackState s'.
Proof.
  unfold signalsTrackState.
  intros Hinv H. destruct op; simpl in H; unfold_methods H; methods_inv;
    try exact Hinv;
    unfold rearmed, isLive in *; simpl in *;
    repeat match goal with
    | |- context [if ?b then _ else _] => destruct b eqn:?
    | H : negb (_ =? _) = false |- _ => apply negb_false_iff, Z.eqb_eq in H
    | H : (_ <=? _) && (_ <? _) = true |- _ =>
        apply andb_true_iff in H; destruct H as [?%Z.leb_le ?%Z.ltb_lt]
    end;
    simpl in *;
    try (exfalso; match goal with
         | H : _ ++ [_] = [] |- _ => apply app_eq_nil in H; destruct H; discriminate
         end);
    repeat match goal with
    | H : iframeQueue_ ?s = _ |- _ => rewrite H in *; clear H
    end;
    try (destruct Hinv as [Hw Hh]; split; [first [exact Hw|reflexivity|congruence]
                                           |first [exact Hh|right; lia|auto]]);
    try (destruct (iframeQueue_ s); simpl; tauto).
Qed.

Lemma reachable_signalsTrackState s : reachable s -> signalsTrackState s.
Proof.
  induction 1 as [now id allowPNG isPopup created s t H|op s s' t _ IH H].
  - eapply create_signalsTrackState, H.
  - eapply run_signalsTrackState; eassumption.
Qed.

(** X17: the frames tell the client whether an iframe waits.  With signal
    constants that are remainders of their moduli, and CursorTypeCount at
    most HeightSignalModulus, after Session::create and any operations:
    widthSignal_ is WidthSignalNewIframe when iframeQueue_ is not empty and
    WidthSignalNoNewIframe when it is, heightSignal_ is the normal cursor
    or a cursor code below CursorTypeCount, and the frame that
    sendViewportToCompressor_ hands over has a width whose remainder by
    WidthSignalModulus is that width signal and a height whose remainder
    by HeightSignalModulus is heightSignal_. *)
Theorem signals_track_queue_and_cursor (s : Session) :
  signalsFit -> reachable s ->
  signalsTrackState s /\
  exists w h,
    sendViewportToCompressor_ s = Some (s, [UpdateImage w h]) /\
    Z.rem w WidthSignalModulus
      = match iframeQueue_ s with
        | [] => WidthSignalNoNewIframe
        | _ :: _ => WidthSignalNewIframe
        end /\
    Z.rem h HeightSignalModulus = heightSignal_ s.
Proof.
  intros Hfit Hreach.
  pose proof (reachable_signalsTrackState s Hreach) as Htrack.
  split; [exact Htrack|].
  pose proof (reachable_viewportFits s Hreach) as (Hvw & Hvh & Hpw & Hph).
  destruct Htrack as [Hw Hh]. destruct Hfit as (H1 & H2 & H3 & H4).
  assert (Hwr : 0 <= widthSignal_ s < WidthSignalModulus)
    by (rewrite Hw; destruct (iframeQueue_ s); assumption).
  assert (Hhr : 0 <= heightSignal_ s < HeightSignalModulus) by lia.
  destruct (signalLoop_total WidthSignalModulus (widthSignal_ s)
              (width (paddedRootViewport_ s)) Hwr ltac:(lia)) as [w Hlw].
  destruct (signalLoop_total HeightSignalModulus (heightSignal_ s)
              (height (paddedRootViewport_ s)) Hhr ltac:(lia)) as [h Hlh].
  exists w, h. split; [apply sendViewportToCompressor__run; assumption|].
  apply signalLoop_Some in Hlw, Hlh. rewrite <- Hw. tauto.
Qed.

Lemma create_timersMatchState now id allowPNG isPopup created s t :
  Session_create now id allowPNG isPopup created = Some (s, t) -> timersMatchState s.
Proof.
  unfold Session_create. intros H. unfold_methods H. methods_inv;
    unfold timersMatchState, rearmed, isLive; simpl; auto.
Qed.

Lemma armed_set now t : armed (Timeout_set now t) = true.
Proof. reflexivity. Qed.

Lemma armed_clear t : armed (Timeout_clear t) = false.
Proof. reflexivity. Qed.

Lemma armed_due now t : Timeout_due now t = true -> armed t = true.
Proof. unfold Timeout_due, armed. destruct (expiresAt t); [reflexivity|discriminate]. Qed.

#[local] Arguments armed : simpl never.

Lemma run_timersMatchState op s s' t :
  timersMatchState s -> run op s = Some (s', t) -> timersMatchState s'.
Proof.
  unfold timersMatchState.
  intros Hinv H. destruct op; simpl in H; unfold_methods H; methods_inv;
    try exact Hinv;
    unfold rearmed, isLive in *; simpl in *.
  all: repeat match goal with
    | H : Timeout_due _ _ = true |- _ => apply armed_due in H
    | H : State_eqb (state_ _) _ = true |- _ => apply State_eqb_eq in H
    end.
  all: try exact Hinv.
  all: repeat match goal with
    | H : Forall _ _ |- _ => clear H
    | H : batchFits _ _ -> _ |- _ => clear H
    | H : negb (width _ =? _) || _ = _ |- _ => clear H
    | H : route _ = _ |- _ => clear H
    | H : _ = navigations _ |- _ => clear H
    | H : (_ <=? _) = _ |- _ => clear H
    | H : (_ <? _) = _ |- _ => clear H
    | H : (_ =? _) = _ |- _ => clear H
    | H : negb (_ =? _) = _ |- _ => clear H
    | H : negb (_ =? _) || (_ <=? _) = _ |- _ => clear H
    | H : _ < _ |- _ => clear H
    end.
  all: destruct (state_ s) eqn:Hst; simpl in *; try discriminate.
  all: rewrite ?Hst in *; simpl in *; try discriminate.
  all: rewrite ?armed_set, ?armed_clear.
  all: destruct Hinv as [Hone Hsome].
  all: repeat match goal with
    | H : armed _ = true |- _ => rewrite H in *
    | H : closeOnOpen_ _ = _ |- _ => rewrite H in *
    end.
  all: destruct (armed (inactivityTimeoutLong_ s)), (armed (inactivityTimeoutShort_ s));
       simpl in *; try discriminate; auto.
  all: try (destruct (closeOnOpen_ s); simpl in *; try discriminate; auto; fail).
Qed.

(** X18: at most one of the two inactivity timeouts is armed at any time;
    an Open session always has one armed, a Pending session has one armed
    or is already marked to close as soon as its browser opens, and a
    Closed session has none. *)
Theorem inactivity_timers_match_state (s : Session) :
  reachable s -> timersMatchState s.
Proof.
  induction 1 as [now id allowPNG isPopup created s t H|op s s' t _ IH H].
  - eapply create_timersMatchState, H.
  - eapply run_timersMatchState; eassumption.
Qed.

(** ** No REQUIRE fails *)

Lemma sendViewportToCompressor__succeeds s :
  signalsInRange s -> viewportFits s ->
  sendViewportToCompressor_ s
  = Some (s, [UpdateImage (fst (frame s)) (snd (frame s))]).
Proof.
  intros [Hw Hh] (Hvw & Hvh & Hpw & Hph).
  destruct (signalLoop_total WidthSignalModulus (widthSignal_ s)
              (width (paddedRootViewport_ s)) Hw ltac:(lia)) as [w Hlw].
  destruct (signalLoop_total HeightSignalModulus (heightSignal_ s)
              (height (paddedRootViewport_ s)) Hh ltac:(lia)) as [h Hlh].
  unfold frame. rewrite Hlw, Hlh. simpl.
  apply sendViewportToCompressor__run; assumption.
Qed.

Lemma responses_app t1 t2 : responses (t1 ++ t2) = responses t1 ++ responses t2.
Proof. unfold responses. apply List.filter_app. Qed.

Lemma responses_events t : Forall eventEffect t -> responses t = [].
Proof.
  induction 1 as [|e t He _ IH]; [reflexivity|].
  unfold responses in *. simpl. rewrite IH.
  destruct e; try contradiction; reflexivity.
Qed.

Lemma responses_navigations t : t = navigations t -> responses t = [].
Proof.
  intros ->. unfold navigations, responses.
  induction t as [|e t IH]; [reflexivity|].
  simpl. destruct (isNavigation e) eqn:He; [|exact IH].
  simpl. rewrite IH. destruct e; try discriminate; reflexivity.
Qed.

(** X19: every request gets exactly one response: whenever
    handleHTTPRequest returns, it has sent one text or HTML response,
    served one file or handed the request to the image compressor once. *)
Theorem one_response_per_request now request s s' t :
  handleHTTPRequest now request s = Some (s', t) ->
  length (responses t) = 1%nat.
Proof.
  intros H. unfold_methods H. methods_inv;
    repeat rewrite responses_app;
    repeat match goal with
    | H : Forall eventEffect ?t |- _ => rewrite (responses_events t H)
    | H : ?t = navigations ?t |- _ => rewrite (responses_navigations t H)
    end;
    reflexivity.
Qed.

Lemma signalsTrackState_inRange s : signalsFit -> signalsTrackState s -> signalsInRange s.
Proof.
  unfold signalsFit, signalsTrackState, signalsInRange.
  intros (H1 & H2 & H3 & H4) [Hw Hh]. rewrite Hw.
  split; [destruct (iframeQueue_ s); assumption|lia].
Qed.

#[local] Arguments sendViewportToCompressor_ : simpl never.
#[local] Arguments handleEvents_ : simpl never.
#[local] Arguments navigate_ : simpl never.
#[local] Arguments updateInactivityTimeout_ : simpl never.
#[local] Arguments updateRootViewportSize_ : simpl never.
#[local] Arguments incr64 : simpl never.
#[local] Arguments elapsed_ms : simpl never.
#[local] Arguments frame : simpl never.
#[local] Arguments Z.leb : simpl never.
#[local] Arguments Z.ltb : simpl never.
#[local] Arguments Z.eqb : simpl never.

(** Running a method body forward on a session that keeps the invariants. *)
Ltac side_condition :=
  first
  [ assumption
  | unfold signalsInRange, viewportFits, signalsFit, rearmed, refreshed in *; simpl in *;
    repeat match goal with
    | |- context [if ?b then _ else _] => destruct b
    end; simpl in *; intuition lia ].

Ltac run_forward :=
  repeat first
  [ progress simpl
  | match goal with
    | |- exists s' t, Some (_, _) = Some (s', t) => eexists _, _; reflexivity
    | |- context [updateInactivityTimeout_ ?now ?sh ?s] =>
        rewrite (updateInactivityTimeout__run now sh s)
    | |- context [navigate_ ?now ?d ?s] => rewrite (navigate__run now d s) by lia
    | |- context [handleEvents_ ?a ?b ?s] =>
        let s1 := fresh "s" in let t1 := fresh "t" in let E := fresh "Hev" in
        destruct (handleEvents__total a b s) as (s1 & t1 & E); rewrite E;
        apply handleEvents__frame in E
    | |- context [updateRootViewportSize_ ?w ?h ?s] =>
        let s1 := fresh "s" in let t1 := fresh "t" in let E := fresh "Hvp" in
        destruct (updateRootViewportSize__run w h s) as (s1 & t1 & E & _); rewrite E
    | |- context [sendViewportToCompressor_ ?s] =>
        rewrite (sendViewportToCompressor__succeeds s) by side_condition
    | H : ?b = true |- context [if ?b then _ else _] => rewrite H
    | H : ?b = false |- context [if ?b then _ else _] => rewrite H
    | H : ?x = _ |- context [match ?x with _ => _ end] => rewrite H
    | |- context [if ?b then _ else _] => destruct b eqn:?
    | |- context [match ?x with _ => _ end] =>
        lazymatch type of x with
        | list Iframe => destruct x eqn:?
        | Iframe => destruct x eqn:?
        | State =>
            let Hst := fresh "Hst" in destruct x eqn:Hst; try rewrite Hst in *
        | GlobalHotkey => destruct x
        | Route => destruct x eqn:?
        | option (CompletedDownload * Timeout) => destruct x as [[? ?]|] eqn:?
        | (CompletedDownload * Timeout)%type => destruct x eqn:?
        end
    end ].

Lemma downloads__rearmed now shortened s :
  downloads_ (rearmed now shortened s) = downloads_ s.
Proof. unfold rearmed. destruct (isLive s), shortened; reflexivity. Qed.

Lemma curDownloadIdx__rearmed now shortened s :
  curDownloadIdx_ (rearmed now shortened s) = curDownloadIdx_ s.
Proof. unfold rearmed. destruct (isLive s), shortened; reflexivity. Qed.

(** The index the next download gets is not taken. *)
Ltac next_index_is_free Hdl :=
  exfalso;
  match goal with
  | H : match ?d !! ?k with _ => _ end = false |- _ =>
      let Hlk := fresh "Hlk" in
      destruct (d !! k) eqn:Hlk; [clear H|discriminate H];
      rewrite ?downloads__rearmed, ?curDownloadIdx__rearmed in Hlk; simpl in Hlk;
      destruct Hdl as [Hcur Hkeys];
      apply Hkeys in Hlk; rewrite incr64_small in Hlk by lia; lia
  end.

Lemma run_succeeds op s n :
  signalsFit -> viewportFits s -> signalsTrackState s -> browserMatchesState s ->
  downloadsBelow n s -> n + 1 < 2 ^ 64 -> opAllowed op s ->
  exists s' t, run op s = Some (s', t).
Proof.
  intros Hfit Hvp Htrack Hbrowser Hdl Hn Hallowed.
  pose proof (signalsTrackState_inRange s Hfit Htrack) as Hrange.
  destruct op; simpl in Hallowed; unfold run.
  1:{ unfold handleHTTPRequest, dispatch, imageRequest, iframeRequest, downloadRequest,
        closeRequest, mainRequest, prevRequest, nextRequest, setWidthSignal_, runIframe,
        andThen, when, ifElse, emit, update, ret, REQUIRE.
      run_forward; next_index_is_free Hdl. }
  1:{ unfold close, REQUIRE, andThen, emit, update, setState, ret.
      unfold browserMatchesState in Hbrowser.
      destruct (state_ s) eqn:Hst; run_forward. }
  1:{ unfold OnAfterCreated, close, andThen, when, emit, update, setState, REQUIRE.
      rewrite Hallowed. run_forward. }
  1:{ unfold OnBeforeClose, andThen, when, emit, update, setState, REQUIRE.
      destruct Hallowed as [-> | ->]; run_forward. }
  all: unfold OnBeforePopup, OnPreKeyEvent, onGlobalHotkeyPressed, onWidgetViewDirty,
    onWidgetCursorChanged, onBrowserAreaViewDirty, onClipboardButtonPressed,
    onDownloadCompleted, onAddressSubmitted, onQualityChanged, updateSecurityStatus_,
    fireInactivityTimeout, fireDownloadTimeout, inactivityTimeoutReached,
    downloadTimeoutReached, close, addIframe_, setWidthSignal_, setHeightSignal_,
    andThen, when, ifElse, emit, update, ret, setState, REQUIRE, isLive.
  all: unfold browserMatchesState in Hbrowser.
  all: try replace ((0 <=? cursor) && (cursor <? CursorTypeCount)) with true
      by (symmetry; apply andb_true_iff; split; [apply Z.leb_le|apply Z.ltb_lt]; lia).
  all: run_forward.
  all: discriminate.
Qed.

Lemma create_downloadsBelow now id allowPNG isPopup created s t :
  Session_create now id allowPNG isPopup created = Some (s, t) -> downloadsBelow 0 s.
Proof.
  unfold Session_create. intros H. unfold_methods H. methods_inv;
    unfold downloadsBelow; rewrite downloads__rearmed, curDownloadIdx__rearmed; simpl;
    (split; [lia|]); intros k entry; rewrite lookup_empty; discriminate.
Qed.

Lemma run_downloadsBelow op s s' t n :
  downloadsBelow n s -> n + 1 < 2 ^ 64 -> run op s = Some (s', t) ->
  downloadsBelow (n + 1) s'.
Proof.
  unfold downloadsBelow.
  intros [Hcur Hkeys] Hn H. destruct op; simpl in H; unfold_methods H; methods_inv;
    rewrite ?downloads__rearmed, ?curDownloadIdx__rearmed; simpl;
    rewrite ?downloads__rearmed, ?curDownloadIdx__rearmed; simpl;
    try (split; [lia|exact Hkeys]).
  all: try (rewrite incr64_small by lia; split; [lia|];
            intros k entry Hlk;
            destruct (decide (k = curDownloadIdx_ s + 1)) as [->|Hne];
            [lia|rewrite lookup_insert_ne in Hlk by congruence;
                 apply Hkeys in Hlk; lia]).
  all: try (split; [lia|]; intros k entry Hlk;
            destruct (decide (k = downloadIdx)) as [->|Hne];
            [rewrite lookup_delete_eq in Hlk; discriminate
            |rewrite lookup_delete_ne in Hlk by congruence; eauto]).
Qed.

Lemma runAll_downloadsBelow ops : forall s s' t n,
  downloadsBelow n s -> n + Z.of_nat (length ops) < 2 ^ 64 ->
  runAll ops s = Some (s', t) ->
  downloadsBelow (n + Z.of_nat (length ops)) s'.
Proof.
  induction ops as [|op ops IH]; intros s s' t n Hdl Hn H; simpl in H.
  - unfold ret in H. injection H as <- <-. simpl. rewrite Z.add_0_r. exact Hdl.
  - apply andThen_Some in H. destruct H as (s1 & t1 & t2 & H1 & H2 & _).
    simpl length in *.
    replace (n + Z.of_nat (S (length ops))) with (n + 1 + Z.of_nat (length ops)) in * by lia.
    eapply IH; [|lia|exact H2].
    eapply run_downloadsBelow; [exact Hdl|lia|exact H1].
Qed.

Lemma runAll_reachable ops : forall s s' t,
  reachable s -> runAll ops s = Some (s', t) -> reachable s'.
Proof.
  induction ops as [|op ops IH]; intros s s' t Hreach H; simpl in H.
  - unfold ret in H. injection H as <- <-. exact Hreach.
  - apply andThen_Some in H. destruct H as (s1 & t1 & t2 & H1 & H2 & _).
    eapply IH; [|exact H2]. eapply reachable_run; eassumption.
Qed.

(** X20: the session code never aborts in a REQUIRE as long as its callers
    keep to their part: with signal constants that are remainders of their
    moduli, after Session::create and any operations (fewer than 2^64 - 1,
    so that downloadIdx has not wrapped), every further operation returns,
    provided the browser reports its creation only to a Pending session
    and its close only to an Open or Closing one, and the widgets report
    cursor codes below CursorTypeCount. *)
Theorem session_never_aborts now id allowPNG isPopup created ops op s0 t0 s t :
  signalsFit ->
  Session_create now id allowPNG isPopup created = Some (s0, t0) ->
  runAll ops s0 = Some (s, t) ->
  Z.of_nat (length ops) + 1 < 2 ^ 64 ->
  opAllowed op s ->
  exists s' t', run op s = Some (s', t').
Proof.
  intros Hfit Hcreate Hrun Hlen Hallowed.
  assert (Hreach : reachable s).
  { eapply runAll_reachable; [|exact Hrun]. eapply reachable_create, Hcreate. }
  pose proof (runAll_downloadsBelow ops s0 s t 0
                (create_downloadsBelow _ _ _ _ _ _ _ Hcreate) ltac:(lia) Hrun) as Hdl.
  apply (run_succeeds op s (0 + Z.of_nat (length ops)) Hfit
           (reachable_viewportFits s Hreach)
           (reachable_signalsTrackState s Hreach)
           (reachable_browserMatchesState s Hreach) Hdl ltac:(lia) Hallowed).
Qed.

(** ** The prev and next pages *)

Lemma navigations_app t1 t2 : navigations (t1 ++ t2) = navigations t1 ++ navigations t2.
Proof. unfold navigations. apply List.filter_app. Qed.

Lemma prevNextClicked__refreshed now s :
  prevNextClicked_ (refreshed now s) = prevNextClicked_ s.
Proof. unfold refreshed. destruct (1000 <=? _); reflexivity. Qed.

Lemma prevNextClicked__rearmed now shortened s :
  prevNextClicked_ (rearmed now shortened s) = prevNextClicked_ s.
Proof. unfold rearmed. destruct (isLive s), shortened; reflexivity. Qed.

Lemma refreshTrace_navigations now s : navigations (refreshTrace now s) = [].
Proof. unfold refreshTrace. destruct (1000 <=? _); reflexivity. Qed.

Lemma prevNext_latched op s s' t :
  isPrevNext op -> run op s = Some (s', t) -> latched s t s'.
Proof.
  destruct op; simpl; try contradiction. intros Hroute H.
  destruct (isLive s) eqn:Hlive.
  2:{ rewrite handleHTTPRequest_closed in H by exact Hlive. injection H as <- <-.
      unfold latched. simpl. repeat split; auto; congruence. }
  rewrite handleHTTPRequest_live in H by exact Hlive.
  destruct (dispatch now (route request) (refreshed now s)) as [[s1 t1]|] eqn:Hd;
    [|discriminate].
  injection H as <- <-.
  assert (Hgoal : latched (refreshed now s) t1 s1).
  { revert Hd. generalize (refreshed now s). clear s Hlive. intros s Hd.
    unfold latched.
    destruct Hroute as [Hr|Hr]; rewrite Hr in Hd; simpl in Hd;
      unfold prevRequest, nextRequest, andThen, when, ifElse, emit, update in Hd;
      rewrite updateInactivityTimeout__run in Hd;
      rewrite prevNextClicked__rearmed in Hd;
      destruct (prevNextClicked_ s) eqn:Hclicked;
      rewrite ?andb_false_r in Hd; simpl in Hd;
      try (destruct (0 <? curMainIdx_ (rearmed now false s)); simpl in Hd;
           [rewrite navigate__run in Hd by lia|]);
      repeat match type of Hd with
      | context [if ?b then _ else _] => destruct b eqn:?
      end;
      simpl in Hd; unfold ret in Hd; simpl in Hd;
      injection Hd as <- <-; simpl;
      rewrite ?prevNextClicked__rearmed;
      repeat split; auto; try congruence; try lia. }
  unfold latched in *. rewrite navigations_app, refreshTrace_navigations. simpl.
  rewrite prevNextClicked__refreshed in Hgoal. exact Hgoal.
Qed.

Lemma runAll_latched ops : forall s s' t,
  Forall isPrevNext ops -> runAll ops s = Some (s', t) -> latched s t s'.
Proof.
  induction ops as [|op ops IH]; intros s s' t Hall H; simpl in H.
  - unfold ret in H. injection H as <- <-. unfold latched. simpl.
    repeat split; auto; congruence.
  - inversion Hall as [|? ? Hop Hops]; subst.
    apply andThen_Some in H. destruct H as (s1 & t1 & t2 & H1 & H2 & ->).
    pose proof (prevNext_latched _ _ _ _ Hop H1) as (Ha1 & Hb1 & Hc1 & Hd1).
    pose proof (IH _ _ _ Hops H2) as (Ha2 & Hb2 & Hc2 & Hd2).
    unfold latched. rewrite navigations_app.
    destruct (navigations t1) as [|n1 rest1] eqn:Hn1.
    + simpl. repeat split; auto.
    + assert (prevNextClicked_ s1 = true) as Hs1 by (apply Hc1; discriminate).
      rewrite (Hb2 Hs1), app_nil_r.
      repeat split; auto.
Qed.

(** X21: the prev and next pages navigate once: however many requests for
    the prev or the next page arrive in a row, the session sends the
    browser at most one GoBack or GoForward, and none at all when a prev or
    next request was already counted since the last load of the main
    page. *)
Theorem prev_next_navigate_once (ops : list Op) (s s' : Session) (t : list Effect) :
  Forall isPrevNext ops -> runAll ops s = Some (s', t) ->
  (length (navigations t) <= 1)%nat /\
  (prevNextClicked_ s = true -> navigations t = []).
Proof.
  intros Hall H. destruct (runAll_latched ops s s' t Hall H) as (Ha & Hb & _).
  auto.
Qed.

(** ** Page generations *)

Lemma incr64_changes x : incr64 x <> x.
Proof.
  unfold incr64. intros H.
  pose proof (Z.mod_pos_bound (x + 1) (2 ^ 64) ltac:(lia)) as Hb.
  destruct (Z_lt_le_dec (x + 1) (2 ^ 64)) as [Hlt|Hge].
  - rewrite Z.mod_small in H by lia. lia.
  - assert (x + 1 = 2 ^ 64) as Heq by lia. rewrite Heq, Z.mod_same in H by lia. lia.
Qed.

Lemma curMainIdx__refreshed now s : curMainIdx_ (refreshed now s) = curMainIdx_ s.
Proof. unfold refreshed. destruct (1000 <=? _); reflexivity. Qed.

Lemma curMainIdx__rearmed now shortened s :
  curMainIdx_ (rearmed now shortened s) = curMainIdx_ s.
Proof. unfold rearmed. destruct (isLive s), shortened; reflexivity. Qed.

Lemma state__refreshed now s : state_ (refreshed now s) = state_ s.
Proof. unfold refreshed. destruct (1000 <=? _); reflexivity. Qed.

Lemma state__rearmed now shortened s : state_ (rearmed now shortened s) = state_ s.
Proof. unfold rearmed. destruct (isLive s), shortened; reflexivity. Qed.

Lemma curImgIdx__rearmed now shortened s :
  curImgIdx_ (rearmed now shortened s) = curImgIdx_ s.
Proof. unfold rearmed. destruct (isLive s), shortened; reflexivity. Qed.

Lemma curEventIdx__rearmed now shortened s :
  curEventIdx_ (rearmed now shortened s) = curEventIdx_ s.
Proof. unfold rearmed. destruct (isLive s), shortened; reflexivity. Qed.

Lemma preMainVisited__refreshed now s :
  preMainVisited_ (refreshed now s) = preMainVisited_ s.
Proof. unfold refreshed. destruct (1000 <=? _); reflexivity. Qed.

Lemma preMainVisited__rearmed now shortened s :
  preMainVisited_ (rearmed now shortened s) = preMainVisited_ s.
Proof. unfold rearmed. destruct (isLive s), shortened; reflexivity. Qed.

(** A live session answers a request that carries another mainIdx than
    the current one with 400 "ERROR: Outdated request". *)
Lemma other_generation_rejected now request s :
  isLive s = true ->
  (exists mainIdx, carriesMainIdx mainIdx request /\ mainIdx <> curMainIdx_ s) ->
  handleHTTPRequest now request s
  = Some (refreshed now s,
          refreshTrace now s ++ [SendTextResponse 400 "ERROR: Outdated request"]).
Proof.
  intros Hlive (mainIdx & Hcarries & Hne).
  rewrite handleHTTPRequest_live by exact Hlive.
  unfold carriesMainIdx in Hcarries.
  destruct (route request) eqn:Hr; try contradiction; subst; simpl;
    unfold imageRequest, iframeRequest, closeRequest;
    rewrite curMainIdx__refreshed;
    match goal with
    | |- context [negb (?a =? ?b)] =>
        replace (a =? b) with false by (symmetry; apply Z.eqb_neq; exact Hne)
    end; reflexivity.
Qed.

(** One operation leaves mainIdx as it is or increments it. *)
Lemma run_curMainIdx op s s' t :
  run op s = Some (s', t) ->
  curMainIdx_ s' = curMainIdx_ s \/ curMainIdx_ s' = incr64 (curMainIdx_ s).
Proof.
  intros H. destruct op; simpl in H; unfold_methods H; methods_inv;
    rewrite ?curMainIdx__rearmed; simpl; rewrite ?curMainIdx__rearmed;
    first [left; reflexivity|right; reflexivity].
Qed.

Lemma runAll_curMainIdx ops : forall s s' t,
  runAll ops s = Some (s', t) ->
  curMainIdx_ s' = curMainIdx_ s \/
  exists j, 1 <= j <= Z.of_nat (length ops) /\
            curMainIdx_ s' = (curMainIdx_ s + j) mod 2 ^ 64.
Proof.
  induction ops as [|op ops IH]; intros s s' t H; simpl in H.
  - unfold ret in H. injection H as <- <-. left. reflexivity.
  - apply andThen_Some in H. destruct H as (s1 & t1 & t2 & H1 & H2 & _).
    simpl length. rewrite Nat2Z.inj_succ.
    destruct (run_curMainIdx _ _ _ _ H1) as [E1|E1];
      destruct (IH _ _ _ H2) as [E2|(j & Hj & E2)].
    + left. congruence.
    + right. exists j. split; [lia|]. rewrite E2, E1. reflexivity.
    + right. exists 1. split; [lia|]. rewrite E2, E1. reflexivity.
    + right. exists (j + 1). split; [lia|]. rewrite E2, E1. unfold incr64.
      rewrite Zplus_mod_idemp_l. f_equal. lia.
Qed.

(** Fewer than 2^64 increments do not bring a 64-bit index back. *)
Lemma index_not_back x j : 1 <= j < 2 ^ 64 -> (x + j) mod 2 ^ 64 <> x.
Proof.
  intros Hj Heq.
  pose proof (Z.mod_pos_bound (x + j) (2 ^ 64) ltac:(lia)) as Hb. rewrite Heq in Hb.
  destruct (Z_lt_le_dec (x + j) (2 ^ 64)) as [Hlt|Hge].
  - rewrite Z.mod_small in Heq by lia. lia.
  - replace (x + j) with (x + j - 2 ^ 64 + 1 * 2 ^ 64) in Heq by lia.
    rewrite Z_mod_plus_full, Z.mod_small in Heq by lia. lia.
Qed.

(** X22: a new page generation shuts the old one out: when a Pending or
    Open session accepts the close signal for its mainIdx or a load of the
    main page after the first, mainIdx is incremented (wrapping at 2^64),
    imgIdx and eventIdx restart at zero, and after that request and any
    further operations (fewer than 2^64 - 1, so that mainIdx has not come
    round again) every image poll, iframe poll and close signal that still
    carries the old mainIdx is turned away: while the session is Pending or
    Open it is answered 400 "ERROR: Outdated request" and changes nothing
    but the time of the last security status refresh, and once the session
    is Closing or Closed it is answered 503 like every request. *)
Theorem new_generation_rejects_old_requests now request s s' t :
  isLive s = true ->
  startsGeneration request s ->
  handleHTTPRequest now request s = Some (s', t) ->
  curMainIdx_ s' = incr64 (curMainIdx_ s) /\
  curImgIdx_ s' = 0 /\ curEventIdx_ s' = 0 /\ isLive s' = true /\
  forall ops s'' t'' now' request',
    runAll ops s' = Some (s'', t'') ->
    Z.of_nat (length ops) + 1 < 2 ^ 64 ->
    carriesMainIdx (curMainIdx_ s) request' ->
    handleHTTPRequest now' request' s''
    = if isLive s''
      then Some (refreshed now' s'',
                 refreshTrace now' s'' ++ [SendTextResponse 400 "ERROR: Outdated request"])
      else Some (s'', [SendTextResponse 503 "ERROR: Browser session has been closed"]).
Proof.
  intros Hlive Hstarts H.
  assert (Hs' : curMainIdx_ s' = incr64 (curMainIdx_ s) /\
                curImgIdx_ s' = 0 /\ curEventIdx_ s' = 0 /\ isLive s' = true).
  { rewrite handleHTTPRequest_live in H by exact Hlive.
    destruct (dispatch now (route request) (refreshed now s)) as [[s1 t1]|] eqn:Hd;
      [|discriminate].
    injection H as <- <-.
    assert (Hlive1 : isLive (refreshed now s) = true)
      by (unfold isLive; rewrite state__refreshed; exact Hlive).
    rewrite <- (curMainIdx__refreshed now s).
    assert (Hstarts1 : route request = RouteClose (curMainIdx_ (refreshed now s)) \/
                       (route request = RouteMain /\
                        preMainVisited_ (refreshed now s) = true))
      by (rewrite curMainIdx__refreshed, preMainVisited__refreshed; exact Hstarts).
    revert Hd Hlive1 Hstarts1. generalize (refreshed now s). clear. intros s Hd Hlive Hstarts.
    destruct Hstarts as [Hr|[Hr Hpre]]; rewrite Hr in Hd; simpl in Hd.
    - unfold closeRequest in Hd. rewrite Z.eqb_refl in Hd. simpl in Hd.
      methods_inv. unfold isLive in *.
      rewrite state__rearmed, curMainIdx__rearmed, curImgIdx__rearmed,
        curEventIdx__rearmed. simpl. auto.
    - unfold mainRequest in Hd. methods_inv;
        try (rewrite preMainVisited__rearmed in *; congruence);
        unfold isLive in *; simpl;
        rewrite ?state__rearmed, ?curMainIdx__rearmed; simpl; auto. }
  destruct Hs' as (Hmain & Himg & Hev & Hlive').
  repeat split; try assumption.
  intros ops s'' t'' now' request' Hrun Hlen Hcarries.
  destruct (isLive s'') eqn:Hlive''; [|apply handleHTTPRequest_closed; exact Hlive''].
  apply other_generation_rejected; [exact Hlive''|].
  exists (curMainIdx_ s). split; [exact Hcarries|].
  destruct (runAll_curMainIdx _ _ _ _ Hrun) as [E|(j & Hj & E)]; rewrite E, Hmain.
  - intros Heq. symmetry in Heq. apply incr64_changes in Heq. exact Heq.
  - unfold incr64. rewrite Zplus_mod_idemp_l.
    replace (curMainIdx_ s + 1 + j) with (curMainIdx_ s + (j + 1)) by lia.
    intros Heq. symmetry in Heq. apply index_not_back in Heq; [exact Heq|lia].
Qed.

(** ** Requests without a branch *)

Lemma eqb_words w a b : String.eqb w a = true -> String.eqb a b = false -> String.eqb w b = false.
Proof. intros Ha%String.eqb_eq Hb. subst. exact Hb. Qed.

Ltac word_of Hc :=
  match goal with
  | |- ?b = true =>
      destruct b; [reflexivity|];
      rewrite ?andb_false_r, ?andb_false_l in Hc; simpl in Hc;
      rewrite ?andb_false_r, ?andb_false_l in Hc; discriminate Hc
  end.

Lemma unparsable_route request : unparsable request -> route request = RouteInvalid.
Proof.
  unfold unparsable, route. intros [Hm|[[Himg Hnone]|(g & Hshape & Hparse)]].
  - apply String.eqb_neq in Hm. rewrite Hm. reflexivity.
  - destruct (String.eqb (method request) "GET"); [|reflexivity].
    rewrite Hnone. destruct Himg as [m Himg].
    unfold imagePathRegex in Himg.
    unfold indexRoute, iframePathRegex, downloadPathRegex, closePathRegex,
      mainPathRegex, prevPathRegex, nextPathRegex.
    destruct (split_slash (path request))
      as [|e0 [|id [|w [|g1 [|g2 [|g3 [|g4 [|g5 [|g6 rest]]]]]]]]]; try discriminate.
    match type of Himg with (if ?c then _ else _) = _ => destruct c eqn:Hc end;
      [|discriminate].
    assert (Hw : String.eqb w "image" = true) by (word_of Hc).
    rewrite (eqb_words w _ "download" Hw eq_refl).
    rewrite ?andb_false_r, ?andb_false_l. simpl. rewrite ?andb_false_r. reflexivity.
  - destruct (String.eqb (method request) "GET"); [|reflexivity].
    unfold imageRoute, indexRoute, imagePathRegex, iframePathRegex, downloadPathRegex,
      closePathRegex, mainPathRegex, prevPathRegex, nextPathRegex in *.
    destruct Hshape as [H|[H|H]].
    + destruct (split_slash (path request))
        as [|e0 [|id [|w [|g1 [|tok [|e1 [|]]]]]]]; try discriminate.
      match type of H with (if ?c then _ else _) = _ => destruct c eqn:Hc end;
        [|discriminate].
      injection H as ->. rewrite Hparse.
      assert (Hw : String.eqb w "iframe" = true) by (word_of Hc).
      rewrite (eqb_words w _ "download" Hw eq_refl).
      rewrite ?andb_false_r, ?andb_false_l. simpl. reflexivity.
    + destruct (split_slash (path request))
        as [|e0 [|id [|w [|g1 [|tail1 tail]]]]]; try discriminate.
      match type of H with (if ?c then _ else _) = _ => destruct c eqn:Hc end;
        [|discriminate].
      injection H as ->. rewrite Hparse.
      assert (Hw : String.eqb w "download" = true) by (word_of Hc).
      rewrite (eqb_words w _ "image" Hw eq_refl).
      rewrite (eqb_words w _ "iframe" Hw eq_refl).
      rewrite (eqb_words w _ "close" Hw eq_refl).
      rewrite ?andb_false_r, ?andb_false_l.
      destruct tail as [|? [|? [|? [|? [|? ?]]]]]; simpl; rewrite ?andb_false_r; reflexivity.
    + destruct (split_slash (path request))
        as [|e0 [|id [|w [|g1 [|e1 [|]]]]]]; try discriminate.
      match type of H with (if ?c then _ else _) = _ => destruct c eqn:Hc end;
        [|discriminate].
      injection H as ->. rewrite Hparse.
      assert (Hw : String.eqb w "close" = true) by (word_of Hc).
      rewrite (eqb_words w _ "download" Hw eq_refl).
      rewrite ?andb_false_r, ?andb_false_l. simpl. reflexivity.
Qed.

(** X23: a request without a branch is turned away unchanged: a Pending or
    Open session answers 400 "ERROR: Invalid request URI or method" to
    every request whose method is not GET, and to every GET whose path has
    the shape of an image poll, iframe poll, download or close signal but
    holds a number that does not parse (one too large for its type); the
    session stays as it was, up to the periodic refresh of the security
    status. *)
Theorem unparsable_request_rejected now request s :
  isLive s = true -> unparsable request ->
  handleHTTPRequest now request s
  = Some (refreshed now s,
          refreshTrace now s
          ++ [SendTextResponse 400 "ERROR: Invalid request URI or method"]).
Proof.
  intros Hlive Hun. rewrite handleHTTPRequest_live by exact Hlive.
  rewrite (unparsable_route request Hun). reflexivity.
Qed.

(** ** The iframe queue *)

Lemma iframePages_app t1 t2 : iframePages (t1 ++ t2) = iframePages t1 ++ iframePages t2.
Proof. unfold iframePages. apply flat_map_app. Qed.

Lemma iframePages_events t : Forall eventEffect t -> iframePages t = [].
Proof.
  induction 1 as [|e t He _ IH]; [reflexivity|].
  unfold iframePages in *. simpl. rewrite IH.
  destruct e; try contradiction; reflexivity.
Qed.

Lemma iframePages_navigations t : t = navigations t -> iframePages t = [].
Proof.
  intros ->. unfold navigations, iframePages.
  induction t as [|e t IH]; [reflexivity|].
  simpl. destruct (isNavigation e) eqn:He; [|exact IH].
  simpl. rewrite IH. destruct e; try discriminate; reflexivity.
Qed.

Lemma run_iframes op s s' t :
  run op s = Some (s', t) ->
  exists served,
    iframeQueue_ s ++ enqueued op = served ++ iframeQueue_ s' /\
    Forall2 servesIframe served (iframePages t).
Proof.
  intros H. destruct op;
    repeat match goal with b : bool |- _ => destruct b end;
    simpl in H; unfold_methods H; methods_inv;
    try match goal with
        | H : negb _ = _ |- _ => simpl in H; discriminate H
        | H : true = false |- _ => discriminate H
        | H : false = true |- _ => discriminate H
        end;
    repeat rewrite iframePages_app;
    repeat match goal with
    | H : Forall eventEffect ?t |- _ => rewrite (iframePages_events t H)
    | H : ?t = navigations ?t |- _ => rewrite (iframePages_navigations t H)
    end;
    unfold rearmed, isLive in *; simpl;
    repeat match goal with
    | |- context [if ?b then _ else _] => destruct b
    end; simpl;
    repeat match goal with
    | H : iframeQueue_ _ = _ |- _ => simpl in H; rewrite H; clear H
    end;
    try (exists (@nil Iframe); split;
         [simpl; rewrite ?app_nil_r; reflexivity|apply List.Forall2_nil]).
  all: match goal with
       | |- exists served, (?i :: ?l) ++ nil = _ /\ _ => exists (cons i nil)
       | |- exists served, ?i :: (?l ++ nil) = _ /\ _ => exists (cons i nil)
       end; split;
       [rewrite app_nil_r; reflexivity
       |apply List.Forall2_cons;
        [simpl; first [exact I|reflexivity]|apply List.Forall2_nil]].
Qed.

Lemma runAll_iframes ops : forall s s' t,
  runAll ops s = Some (s', t) ->
  exists served,
    iframeQueue_ s ++ flat_map enqueued ops = served ++ iframeQueue_ s' /\
    Forall2 servesIframe served (iframePages t).
Proof.
  induction ops as [|op ops IH]; intros s s' t H; simpl in H.
  - unfold ret in H. injection H as <- <-. exists []. simpl.
    rewrite app_nil_r. split; [reflexivity|constructor].
  - apply andThen_Some in H. destruct H as (s1 & t1 & t2 & H1 & H2 & ->).
    destruct (run_iframes _ _ _ _ H1) as (served1 & Hq1 & Hp1).
    destruct (IH _ _ _ H2) as (served2 & Hq2 & Hp2).
    exists (served1 ++ served2). split.
    + simpl. rewrite app_assoc, Hq1, <- !app_assoc, Hq2. reflexivity.
    + rewrite iframePages_app. apply Forall2_app; assumption.
Qed.

(** X24: queued iframes are served first in, first out, each once: over
    any run of operations, the iframe pages sent in answer to iframe polls
    are, in order, the pages of the iframes that waited in the queue at the
    start followed by those queued during the run (popups, clipboard
    requests, completed downloads), and the iframes not yet served are
    exactly the queue at the end. *)
Theorem iframes_served_in_queue_order (ops : list Op) (s s' : Session) (t : list Effect) :
  runAll ops s = Some (s', t) ->
  exists served,
    iframeQueue_ s ++ flat_map enqueued ops = served ++ iframeQueue_ s' /\
    Forall2 servesIframe served (iframePages t).
Proof. apply runAll_iframes. Qed.

(** ** Telling the server that the session closed *)

Lemma closedNotices_app t1 t2 :
  closedNotices (t1 ++ t2) = (closedNotices t1 + closedNotices t2)%nat.
Proof. unfold closedNotices. rewrite List.filter_app, length_app. reflexivity. Qed.

Lemma closedNotices_events t : Forall eventEffect t -> closedNotices t = 0%nat.
Proof.
  induction 1 as [|e t He _ IH]; [reflexivity|].
  unfold closedNotices in *. simpl. destruct e; try contradiction; exact IH.
Qed.

Lemma closedNotices_navigations t : t = navigations t -> closedNotices t = 0%nat.
Proof.
  intros ->. unfold navigations, closedNotices.
  induction t as [|e t IH]; [reflexivity|].
  simpl. destruct (isNavigation e) eqn:He; [|exact IH].
  simpl. destruct e; try discriminate; exact IH.
Qed.

(** Every notice goes with an assignment of Closed to state_. *)
Ltac count_notices :=
  repeat rewrite closedNotices_app; repeat rewrite transitions_app;
  repeat match goal with
  | H : Forall eventEffect ?t |- _ =>
      rewrite (closedNotices_events t H), (transitions_events t H); clear H
  | H : ?t = navigations ?t |- _ =>
      rewrite (closedNotices_navigations t H), (transitions_navigations t H); clear H
  end;
  reflexivity.

Lemma create_notices_closings now id allowPNG isPopup created s t :
  Session_create now id allowPNG isPopup created = Some (s, t) ->
  closedNotices t = closings (transitions t).
Proof.
  unfold Session_create. intros H. unfold_methods H. methods_inv; count_notices.
Qed.

Lemma run_notices_closings op s s' t :
  run op s = Some (s', t) -> closedNotices t = closings (transitions t).
Proof.
  intros H. destruct op; simpl in H; unfold_methods H; methods_inv; count_notices.
Qed.

Lemma walk_closings steps : forall st st',
  walk stateEdge st steps = Some st' ->
  (closedCount st + closings steps)%nat = closedCount st'.
Proof.
  induction steps as [|[a b] steps IH]; intros st st' H; simpl in H.
  - injection H as <-. unfold closings. simpl. lia.
  - destruct (State_eqb a st && stateEdge a b) eqn:Hstep; [|discriminate].
    apply andb_true_iff in Hstep. destruct Hstep as [Ha Hedge].
    apply State_eqb_eq in Ha. subst a. apply IH in H.
    unfold closings in *. simpl. rewrite <- H.
    destruct st, b; simpl in *; try discriminate; lia.
Qed.

(** X25: the server hears of a closed session exactly once, and exactly
    when it is closed: over Session::create and any run of operations,
    onSessionClosed is posted once if the session ends up Closed and not
    at all otherwise. *)
Theorem session_closed_posted_once now id allowPNG isPopup created ops s0 t0 s t :
  Session_create now id allowPNG isPopup created = Some (s0, t0) ->
  runAll ops s0 = Some (s, t) ->
  closedNotices (t0 ++ t) = closedCount (state_ s).
Proof.
  intros Hcreate Hrun.
  rewrite closedNotices_app, (create_notices_closings _ _ _ _ _ _ _ Hcreate).
  pose proof (walk_closings _ _ _ (create_walk _ _ _ _ _ _ _ Hcreate)) as H0.
  change (closedCount Pending) with 0%nat in H0. simpl in H0. rewrite H0. clear H0 Hcreate.
  revert s0 t Hrun. induction ops as [|op ops IH]; intros s0 t Hrun; simpl in Hrun.
  - unfold ret in Hrun. injection Hrun as <- <-. apply Nat.add_0_r.
  - apply andThen_Some in Hrun. destruct Hrun as (s1 & t1 & t2 & H1 & H2 & ->).
    rewrite closedNotices_app, Nat.add_assoc, (run_notices_closings _ _ _ _ H1).
    rewrite (walk_closings _ _ _ (run_walk _ _ _ _ H1)).
    apply IH. exact H2.
Qed.

Lemma handleEvents_loop_step c rest event eventIdx s :
  handleEvents_loop (String c rest) event eventIdx s
  = let event' := String.append event (String c EmptyString) in
    if Ascii.eqb c slash then
      if eventIdx =? curEventIdx_ s then
        (emit (ProcessEvent eventIdx event' (processEvent event')) >>
         (if processEvent event' then ret
          else emit (Log (LogCouldNotParseEvent event'))) >>
         update (set_curEventIdx_ (incr64 eventIdx)) >>
         handleEvents_loop rest EmptyString (incr64 eventIdx)) s
      else handleEvents_loop rest EmptyString (incr64 eventIdx) s
    else handleEvents_loop rest event' eventIdx s.
Proof. simpl. destruct (Ascii.eqb c slash); reflexivity. Qed.

Lemma wholeEvents_tail c events :
  events <> EmptyString -> wholeEvents (String c events) = wholeEvents events.
Proof. destruct events; [congruence|reflexivity]. Qed.

(** The loop of handleEvents_ over a batch in two parts, the first ending
    where an event ends: the loop over the first part, then the loop over
    the second entered with the sequence number the first part ends at. *)
Lemma handleEvents_loop_app before : forall rest event eventIdx s s1 t1,
  before <> EmptyString -> wholeEvents before = true ->
  handleEvents_loop before event eventIdx s = Some (s1, t1) ->
  handleEvents_loop (String.append before rest) event eventIdx s
  = match handleEvents_loop rest EmptyString (eventIdxAfter before eventIdx) s1 with
    | Some (s2, t2) => Some (s2, t1 ++ t2)
    | None => None
    end.
Proof.
  induction before as [|c before IH]; intros rest event eventIdx s s1 t1 Hne Hwhole H;
    [congruence|].
  rewrite append_cons, handleEvents_loop_step. rewrite handleEvents_loop_step in H.
  cbn zeta in *. cbn [eventIdxAfter].
  destruct (string_dec before EmptyString) as [->|Hne'].
  - (* the last character *)
    simpl in Hwhole. rewrite Hwhole in *.
    change (String.append EmptyString rest) with rest. cbn [eventIdxAfter].
    destruct (eventIdx =? curEventIdx_ s).
    + unfold andThen, emit, update in H |- *. simpl in H.
      destruct (processEvent _); unfold ret, emit in H |- *; simpl in H;
        injection H as <- <-;
        destruct (handleEvents_loop rest _ _ _) as [[s2 t2]|]; reflexivity.
    + simpl in H. unfold ret in H. injection H as <- <-.
      destruct (handleEvents_loop rest _ _ _) as [[s2 t2]|]; reflexivity.
  - rewrite wholeEvents_tail in Hwhole by exact Hne'.
    destruct (Ascii.eqb c slash).
    + destruct (eventIdx =? curEventIdx_ s).
      * unfold andThen, emit, update in H |- *.
        destruct (processEvent _); unfold ret, emit in H |- *;
          destruct (handleEvents_loop before EmptyString (incr64 eventIdx)
                      (set_curEventIdx_ (incr64 eventIdx) s)) as [[s1' t1']|] eqn:Hb;
          try discriminate; injection H as <- <-;
          rewrite (IH _ _ _ _ _ _ Hne' Hwhole Hb);
          destruct (handleEvents_loop rest _ _ _) as [[s2 t2]|]; reflexivity.
      * apply (IH _ _ _ _ _ _ Hne' Hwhole H).
    + apply (IH _ _ _ _ _ _ Hne' Hwhole H).
Qed.

Lemma curImgIdx__refreshed now s : curImgIdx_ (refreshed now s) = curImgIdx_ s.
Proof. unfold refreshed. destruct (1000 <=? _); reflexivity. Qed.

(** handleEvents_ over a batch in two parts, as [handleEvents_loop_app]. *)
Lemma handleEvents__app startIdx before rest s s1 t1 :
  wholeEvents before = true ->
  handleEvents_ startIdx before s = Some (s1, t1) ->
  handleEvents_ startIdx (String.append before rest) s
  = match handleEvents_loop rest EmptyString (eventIdxAfter before startIdx) s1 with
    | Some (s2, t2) => Some (s2, t1 ++ t2)
    | None => None
    end.
Proof.
  intros Hwhole H. unfold handleEvents_ in *.
  apply andThen_Some in H. destruct H as (s0 & t0 & t0' & H0 & H & ->).
  rewrite (andThen_run _ _ _ _ _ H0).
  destruct (string_dec before EmptyString) as [->|Hne].
  - simpl in H. unfold ret in H. injection H as <- <-.
    change (String.append EmptyString rest) with rest. simpl.
    destruct (handleEvents_loop rest _ _ _) as [[s2 t2]|]; [|reflexivity].
    rewrite app_nil_r. reflexivity.
  - rewrite (handleEvents_loop_app _ _ _ _ _ _ _ Hne Hwhole H).
    destruct (handleEvents_loop rest _ _ _) as [[s2 t2]|]; [|reflexivity].
    rewrite app_assoc. reflexivity.
Qed.

(** C10: for every image poll that a Pending or Open session accepts:
    when handleEvents_ has handled the events of the batch before an event
    text, the sequence number of that text is the eventIdx the session
    then expects, and processEvent cannot parse the text, then the call of
    processEvent is made under that number and returns false (no input is
    forwarded), the failure is logged, curEventIdx_ is set to the next
    64-bit value all the same, the rest of the batch is handled from that
    number on as a batch of its own would be, and the request goes on
    to be answered with the image. *)
Theorem unparsed_event_consumes_sequence_number now request a before tok rest s s1 t1 :
  isLive s = true -> route request = RouteImage a ->
  (a_mainIdx a =? curMainIdx_ s) && (curImgIdx_ s <? a_imgIdx a) = true ->
  a_events a = String.append before (String.append tok (String slash rest)) ->
  wholeEvents before = true -> noSlash tok = true ->
  handleEvents_ (a_startEventIdx a) before (rearmed now false (refreshed now s))
    = Some (s1, t1) ->
  curEventIdx_ s1 = eventIdxAfter before (a_startEventIdx a) ->
  processEvent (String.append tok (String slash EmptyString)) = false ->
  exists s2 t2 s' t3,
    handleEvents_loop rest EmptyString (incr64 (curEventIdx_ s1))
                      (set_curEventIdx_ (incr64 (curEventIdx_ s1)) s1) = Some (s2, t2) /\
    updateRootViewportSize_ (a_width a) (a_height a) (set_curImgIdx_ (a_imgIdx a) s2)
      = Some (s', t3) /\
    handleHTTPRequest now request s
    = Some (s', refreshTrace now s
                ++ t1
                ++ [ProcessEvent (curEventIdx_ s1)
                      (String.append tok (String slash EmptyString)) false;
                    Log (LogCouldNotParseEvent
                           (String.append tok (String slash EmptyString)))]
                ++ t2 ++ t3
                ++ [if a_immediate a =? 0 then SendCompressedImageWait
                    else SendCompressedImageNow]) /\
    curEventIdx_ s' = curEventIdx_ s2.
Proof.
  intros Hlive Hroute Hok Hevents Hwhole Hns Hbefore Hexpected Hfail.
  set (k := curEventIdx_ s1) in *.
  set (event := String.append tok (String slash EmptyString)) in *.
  destruct (handleEvents_loop_total rest EmptyString (incr64 k)
              (set_curEventIdx_ (incr64 k) s1)) as (s2 & t2 & Hrest).
  destruct (updateRootViewportSize__run (a_width a) (a_height a)
              (set_curImgIdx_ (a_imgIdx a) s2)) as (s' & t3 & Hview & _).
  exists s2, t2, s', t3. split; [exact Hrest|]. split; [exact Hview|].
  assert (Hcur : curEventIdx_ s' = curEventIdx_ s2).
  { unfold updateRootViewportSize_, when, andThen, update, emit in Hview.
    destruct (negb _ || negb _) in Hview; injection Hview as <- _; reflexivity. }
  split; [|exact Hcur].
  (* the token and the rest *)
  assert (Htoken : handleEvents_loop (String.append tok (String slash rest)) EmptyString
                     (eventIdxAfter before (a_startEventIdx a)) s1
                   = Some (s2, [ProcessEvent k event false; Log (LogCouldNotParseEvent event)]
                               ++ t2)).
  { rewrite (handleEvents_loop_scan tok EmptyString (String slash rest) _ Hns).
    change (String.append EmptyString tok) with tok.
    rewrite handleEvents_loop_step. cbn zeta.
    replace (Ascii.eqb slash slash) with true by reflexivity.
    rewrite <- Hexpected. fold k. rewrite Z.eqb_refl. fold event.
    rewrite Hfail. unfold andThen, emit, update. rewrite Hrest. reflexivity. }
  rewrite handleHTTPRequest_live by exact Hlive. rewrite Hroute. simpl.
  unfold imageRequest. rewrite curMainIdx__refreshed, curImgIdx__refreshed.
  apply andb_true_iff in Hok. destruct Hok as [Hm Hi].
  rewrite Hm. rewrite Z.ltb_antisym in Hi. apply negb_true_iff in Hi. rewrite Hi. simpl.
  rewrite (andThen_run _ _ _ _ _ (updateInactivityTimeout__run now false (refreshed now s))).
  rewrite Hevents.
  rewrite (andThen_run _ _ _ _ _
             (eq_trans (handleEvents__app _ _ _ _ _ _ Hwhole Hbefore)
                       ltac:(rewrite Htoken; reflexivity))).
  unfold andThen at 1. unfold update at 1. rewrite (andThen_run _ _ _ _ _ Hview).
  destruct (a_immediate a =? 0); unfold emit; simpl; rewrite <- !app_assoc; reflexivity.
Qed.

(** ** Download timeouts that fire when due *)

Lemma set_downloads__same s : set_downloads_ (downloads_ s) s = s.
Proof. destruct s; reflexivity. Qed.

Lemma set_downloads__twice m1 m2 s :
  set_downloads_ m2 (set_downloads_ m1 s) = set_downloads_ m2 s.
Proof. destruct s; reflexivity. Qed.

(** Running the timeouts of the keys [ks] at [now] erases the entries
    under those keys that are due, and does nothing else. *)
Lemma fireTimeouts_run now ks : forall s,
  exists m,
    runAll (map (OpDownloadTimeout now) ks) s = Some (set_downloads_ m s, []) /\
    forall k entry,
      m !! k = Some entry <->
      downloads_ s !! k = Some entry /\
      ~ (Timeout_due now (snd entry) = true /\ In k ks).
Proof.
  induction ks as [|k0 ks IH]; intros s.
  - exists (downloads_ s). simpl. unfold ret. rewrite set_downloads__same.
    split; [reflexivity|]. intros k entry. simpl. tauto.
  - cbn [map runAll run]. unfold andThen at 1. unfold fireDownloadTimeout. cbn beta.
    destruct (downloads_ s !! k0) as [[f0 tm0]|] eqn:Hk0.
    + destruct (Timeout_due now tm0) eqn:Hdue.
      * unfold downloadTimeoutReached.
        destruct (IH (set_downloads_ (delete k0 (downloads_ s)) s)) as (m & Hrun & Hm).
        exists m. unfold update. rewrite Hrun, set_downloads__twice.
        split; [reflexivity|]. intros k entry. rewrite Hm. simpl.
        destruct (Z.eq_dec k k0) as [->|Hne].
        -- rewrite lookup_delete_eq, Hk0. split; [intros [H _]; discriminate|].
           intros [[= <-] Hnot]. exfalso. apply Hnot. simpl. auto.
        -- rewrite lookup_delete_ne by congruence. split.
           ++ intros [Hl Hnot]. split; [exact Hl|]. intros [Hd [Heq|Hin]];
                [congruence|apply Hnot; simpl; auto].
           ++ intros [Hl Hnot]. split; [exact Hl|]. intros [Hd Hin]. apply Hnot; simpl; auto.
      * destruct (IH s) as (m & Hrun & Hm).
        exists m. unfold ret. rewrite Hrun. split; [reflexivity|].
        intros k entry. rewrite Hm. split.
        -- intros [Hl Hnot]. split; [exact Hl|]. intros [Hd [<-|Hin]];
             [|apply Hnot; simpl; auto].
           rewrite Hk0 in Hl. injection Hl as <-. simpl in Hd. congruence.
        -- intros [Hl Hnot]. split; [exact Hl|]. intros [Hd Hin]. apply Hnot; simpl; auto.
    + destruct (IH s) as (m & Hrun & Hm).
      exists m. unfold ret. rewrite Hrun. split; [reflexivity|].
      intros k entry. rewrite Hm. split.
      * intros [Hl Hnot]. split; [exact Hl|]. intros [Hd [<-|Hin]];
          [congruence|apply Hnot; simpl; auto].
      * intros [Hl Hnot]. split; [exact Hl|]. intros [Hd Hin]. apply Hnot; simpl; auto.
Qed.

(** Firing the download timeouts that are due at [now] leaves the session
    with exactly the entries that are not due, and changes nothing else. *)
Lemma fireDueDownloads_run now s :
  exists m,
    fireDueDownloads now s = Some (set_downloads_ m s, []) /\
    forall k entry,
      m !! k = Some entry <->
      downloads_ s !! k = Some entry /\ Timeout_due now (snd entry) = false.
Proof.
  unfold fireDueDownloads.
  destruct (fireTimeouts_run now (map fst (map_to_list (downloads_ s))) s) as (m & Hrun & Hm).
  exists m. split; [exact Hrun|]. intros k entry. rewrite Hm. split.
  - intros [Hl Hnot]. split; [exact Hl|].
    destruct (Timeout_due now (snd entry)) eqn:Hd; [|reflexivity].
    exfalso. apply Hnot. split; [reflexivity|].
    apply in_map_iff. exists (k, entry). split; [reflexivity|].
    apply list_elem_of_In, elem_of_map_to_list. exact Hl.
  - intros [Hl Hd]. split; [exact Hl|]. intros [Hd' _]. congruence.
Qed.

Lemma runTimely_run op s :
  exists m,
    (forall k entry, m !! k = Some entry -> downloads_ s !! k = Some entry) /\
    (forall k entry now, clockOf op = Some now ->
       (m !! k = Some entry <->
        downloads_ s !! k = Some entry /\ Timeout_due now (snd entry) = false)) /\
    (clockOf op = None -> m = downloads_ s) /\
    runTimely op s = match run op (set_downloads_ m s) with
                     | Some (s', t) => Some (s', t)
                     | None => None
                     end.
Proof.
  unfold runTimely. destruct (clockOf op) as [now|].
  - destruct (fireDueDownloads_run now s) as (m & Hrun & Hm).
    exists m. split; [intros k entry Hl; apply Hm in Hl; tauto|].
    split; [intros k entry now' [= <-]; apply Hm|].
    split; [discriminate|].
    rewrite (andThen_run _ _ _ _ _ Hrun). reflexivity.
  - exists (downloads_ s). rewrite set_downloads__same.
    split; [auto|]. split; [discriminate|]. split; [reflexivity|].
    destruct (run op s) as [[s' t]|]; reflexivity.
Qed.

(** One operation does not lower downloadIdx, and puts no entry under an
    index that was issued before. *)
Lemma run_download_absent op s s' t n k :
  downloadsBelow n s -> n + 1 < 2 ^ 64 -> run op s = Some (s', t) ->
  curDownloadIdx_ s <= curDownloadIdx_ s' /\
  (k <= curDownloadIdx_ s -> downloads_ s !! k = None -> downloads_ s' !! k = None).
Proof.
  unfold downloadsBelow.
  intros [Hcur Hkeys] Hn H. destruct op; simpl in H; unfold_methods H; methods_inv;
    rewrite ?downloads__rearmed, ?curDownloadIdx__rearmed; simpl;
    rewrite ?downloads__rearmed, ?curDownloadIdx__rearmed; simpl;
    rewrite ?incr64_small by lia;
    (split; [lia|intros Hk Hnone]);
    first
      [ exact Hnone
      | rewrite lookup_insert_ne by lia; exact Hnone
      | destruct (decide (k = downloadIdx)) as [->|Hne];
        [apply lookup_delete_eq|rewrite lookup_delete_ne by congruence; exact Hnone] ].
Qed.

Lemma Timeout_due_later now at_ timeout :
  Timeout_due now timeout = true -> now <= at_ -> Timeout_due at_ timeout = true.
Proof.
  unfold Timeout_due. destruct (expiresAt timeout); [|discriminate].
  intros H%Z.leb_le Hle. apply Z.leb_le. lia.
Qed.

Lemma downloadsBelow_fewer n m s :
  (forall k entry, m !! k = Some entry -> downloads_ s !! k = Some entry) ->
  downloadsBelow n s -> downloadsBelow n (set_downloads_ m s).
Proof.
  unfold downloadsBelow. intros Hm [Hcur Hkeys]. simpl. split; [exact Hcur|].
  intros k entry Hl. eapply Hkeys, Hm, Hl.
Qed.

Lemma runTimely_downloadsBelow op s s' t n :
  downloadsBelow n s -> n + 1 < 2 ^ 64 -> runTimely op s = Some (s', t) ->
  downloadsBelow (n + 1) s'.
Proof.
  intros Hdl Hn H. destruct (runTimely_run op s) as (m & Hsub & _ & _ & Hrun).
  rewrite Hrun in H.
  destruct (run op (set_downloads_ m s)) as [[s1 t1]|] eqn:H1; [|discriminate].
  injection H as <- <-.
  eapply run_downloadsBelow; [apply downloadsBelow_fewer; eassumption|exact Hn|exact H1].
Qed.

Lemma runAllTimely_downloadsBelow ops : forall s s' t n,
  downloadsBelow n s -> n + Z.of_nat (length ops) < 2 ^ 64 ->
  runAllTimely ops s = Some (s', t) ->
  downloadsBelow (n + Z.of_nat (length ops)) s'.
Proof.
  induction ops as [|op ops IH]; intros s s' t n Hdl Hn H; simpl in H.
  - unfold ret in H. injection H as <- <-. simpl. rewrite Z.add_0_r. exact Hdl.
  - apply andThen_Some in H. destruct H as (s1 & t1 & t2 & H1 & H2 & _).
    simpl length in *.
    replace (n + Z.of_nat (S (length ops))) with (n + 1 + Z.of_nat (length ops)) in * by lia.
    eapply IH; [|lia|exact H2].
    eapply runTimely_downloadsBelow; [exact Hdl|lia|exact H1].
Qed.

(** What one operation of the loop does to the entry under an index that
    was issued: no entry appears, and the entry goes only because its
    timeout is due at the clock reading of the operation. *)
Lemma runTimely_entry_step op s s' t n idx entry :
  downloadsBelow n s -> n + 1 < 2 ^ 64 -> idx <= curDownloadIdx_ s ->
  runTimely op s = Some (s', t) ->
  idx <= curDownloadIdx_ s' /\
  (downloads_ s !! idx = None -> downloads_ s' !! idx = None) /\
  (downloads_ s !! idx = Some entry ->
   downloads_ s' !! idx = Some entry \/
   (downloads_ s' !! idx = None /\
    exists now, clockOf op = Some now /\ Timeout_due now (snd entry) = true)).
Proof.
  intros Hdl Hn Hidx H.
  destruct (runTimely_run op s) as (m & Hsub & Hclock & Hnone & Hrun).
  rewrite Hrun in H.
  destruct (run op (set_downloads_ m s)) as [[s1 t1]|] eqn:H1; [|discriminate].
  injection H as <- <-.
  pose proof (downloadsBelow_fewer n m s Hsub Hdl) as Hdl'.
  destruct (run_download_absent op _ _ _ n idx Hdl' Hn H1) as [Hmono Habsent].
  simpl in Hmono, Habsent.
  split; [lia|]. split.
  - intros Hl. apply Habsent; [exact Hidx|].
    destruct (m !! idx) as [e|] eqn:Hm; [|reflexivity].
    apply Hsub in Hm. congruence.
  - intros Hl. destruct (m !! idx) as [e|] eqn:Hm.
    + pose proof (Hsub _ _ Hm) as He. rewrite Hl in He. injection He as <-.
      destruct entry as [file timeout].
      destruct (run_download_entry op (set_downloads_ m s) _ _ idx file timeout Hm H1)
        as [Hkeep|(now & -> & Hdue & Hgone)].
      * left. exact Hkeep.
      * right. split; [exact Hgone|]. exists now. split; [reflexivity|exact Hdue].
    + right. split; [apply Habsent; [exact Hidx|reflexivity]|].
      destruct (clockOf op) as [now|] eqn:Hc.
      * exists now. split; [reflexivity|].
        destruct (Timeout_due now (snd entry)) eqn:Hd; [reflexivity|].
        exfalso. assert (m !! idx = Some entry) by (apply (Hclock _ _ _ eq_refl); auto).
        congruence.
      * exfalso. rewrite (Hnone eq_refl) in Hm. congruence.
Qed.

(** The entry under an index that was issued, over any operations of the
    loop: it is as it was or gone for good, and it is as it was when no
    operation ran at a clock reading at which its timeout is due. *)
Lemma runAllTimely_entry idx entry ops : forall s s' t n,
  downloadsBelow n s -> n + Z.of_nat (length ops) < 2 ^ 64 ->
  idx <= curDownloadIdx_ s ->
  runAllTimely ops s = Some (s', t) ->
  (downloads_ s !! idx = None -> downloads_ s' !! idx = None) /\
  (downloads_ s !! idx = Some entry ->
   (downloads_ s' !! idx = Some entry \/ downloads_ s' !! idx = None) /\
   (forall at_, Forall (notAfter at_) ops -> Timeout_due at_ (snd entry) = false ->
                downloads_ s' !! idx = Some entry)).
Proof.
  induction ops as [|op ops IH]; intros s s' t n Hdl Hn Hidx H; simpl in H.
  - unfold ret in H. injection H as <- <-. auto.
  - apply andThen_Some in H. destruct H as (s1 & t1 & t2 & H1 & H2 & _).
    simpl length in Hn. rewrite Nat2Z.inj_succ in Hn.
    destruct (runTimely_entry_step op s s1 t1 n idx entry Hdl ltac:(lia) Hidx H1)
      as (Hidx1 & Hnone1 & Hsome1).
    pose proof (runTimely_downloadsBelow _ _ _ _ _ Hdl ltac:(lia) H1) as Hdl1.
    destruct (IH s1 s' t2 (n + 1) Hdl1 ltac:(lia) Hidx1 H2) as [Hnone2 Hsome2].
    split; [auto|].
    intros Hl. destruct (Hsome1 Hl) as [Hkeep|(Hgone & now & Hc & Hdue)].
    + destruct (Hsome2 Hkeep) as [Hcases Hkept]. split; [exact Hcases|].
      intros at_ Hall Hnotdue. apply (Hkept at_); [|exact Hnotdue].
      inversion Hall; assumption.
    + split; [right; auto|].
      intros at_ Hall Hnotdue. exfalso.
      inversion Hall as [|? ? Hop _]; subst. unfold notAfter in Hop. rewrite Hc in Hop.
      rewrite (Timeout_due_later _ _ _ Hdue Hop) in Hnotdue. discriminate.
Qed.

(** The iframe poll that serves the page of a completed download
    registers the file under the next downloadIdx, with a timeout of
    10000ms set at the clock reading of the poll. *)
Lemma iframe_poll_registers now request file queue s s1 t1 :
  isLive s = true -> route request = RouteIframe (curMainIdx_ s) ->
  iframeQueue_ s = DownloadIframe file :: queue ->
  runTimely (OpRequest now request) s = Some (s1, t1) ->
  curDownloadIdx_ s1 = incr64 (curDownloadIdx_ s) /\
  downloads_ s1 !! curDownloadIdx_ s1
    = Some (file, Timeout_set now (Timeout_create 10000)).
Proof.
  intros Hlive Hroute Hqueue H.
  destruct (runTimely_run (OpRequest now request) s) as (m & _ & _ & _ & Hrun).
  rewrite Hrun in H. clear Hrun.
  destruct (run (OpRequest now request) (set_downloads_ m s)) as [[s1' t1']|] eqn:H1;
    [|discriminate].
  injection H as <- <-. simpl in H1.
  rewrite handleHTTPRequest_live in H1 by exact Hlive.
  rewrite Hroute in H1. simpl in H1. unfold iframeRequest in H1.
  rewrite curMainIdx__refreshed in H1. simpl in H1. rewrite Z.eqb_refl in H1. simpl in H1.
  replace (iframeQueue_ (refreshed now (set_downloads_ m s)))
    with (DownloadIframe file :: queue) in H1
    by (unfold refreshed; destruct (1000 <=? _); simpl; symmetry; exact Hqueue).
  destruct ((_ >> _) (refreshed now (set_downloads_ m s))) as [[s2 t2]|] eqn:H2;
    [|discriminate].
  injection H1 as <- _. unfold runIframe in H2. unfold_methods H2. methods_inv;
    simpl; rewrite ?curDownloadIdx__rearmed;
    (split; [unfold refreshed; destruct (1000 <=? _); reflexivity|apply lookup_insert_eq]).
Qed.

(** A download request that the loop runs at clock reading [at_]: the
    timeouts due at [at_] have fired; a Pending or Open session then
    serves the file stored under the index or answers 400, and a Closing
    or Closed one answers 503. *)
Lemma download_request_timely at_ request k s :
  route request = RouteDownload k ->
  exists m,
    (forall idx entry,
       m !! idx = Some entry <->
       downloads_ s !! idx = Some entry /\ Timeout_due at_ (snd entry) = false) /\
    runTimely (OpRequest at_ request) s
    = Some (if isLive s then refreshed at_ (set_downloads_ m s) else set_downloads_ m s,
            if isLive s
            then refreshTrace at_ s
                 ++ [match m !! k with
                     | Some (file, _) => ServeFile file
                     | None => SendTextResponse 400 "ERROR: Outdated download index"
                     end]
            else [SendTextResponse 503 "ERROR: Browser session has been closed"]).
Proof.
  intros Hroute.
  destruct (runTimely_run (OpRequest at_ request) s) as (m & _ & Hclock & _ & Hrun).
  exists m. split; [intros idx entry; apply (Hclock idx entry at_ eq_refl)|].
  rewrite Hrun. simpl run.
  destruct (isLive s) eqn:Hlive.
  - rewrite handleHTTPRequest_live by exact Hlive. rewrite Hroute. simpl.
    unfold downloadRequest. rewrite downloads__refreshed. simpl.
    replace (refreshTrace at_ (set_downloads_ m s)) with (refreshTrace at_ s) by reflexivity.
    destruct (m !! k) as [[file timeout]|]; reflexivity.
  - rewrite handleHTTPRequest_closed by exact Hlive. reflexivity.
Qed.

(** C7: over the life of a session (fewer than 2^64 - 2 operations, so
    that downloadIdx has not wrapped), with download timeouts that fire
    when due.  The iframe poll that serves the page of a completed download
    at clock reading T stores the file under the new downloadIdx with the
    expiry T + 10000ms.  Whatever the loop runs afterwards and however
    often the download endpoint serves the file: a download request for
    the index at a clock reading before T + 10000ms, after operations none
    of which ran later than it, finds the entry as it was stored, expiry
    included, and is served the file; a download request at T + 10000ms
    or later finds no entry, and neither does a request for an index that
    was never issued (the indices issued are 1 to curDownloadIdx_); both
    are answered 400 "ERROR: Outdated download index".  These are the
    answers of a session that is Pending or Open; a Closing or Closed
    session answers every request 503. *)
Theorem download_entry_lifetime now0 id allowPNG isPopup created s0 t0 before s t
    now request file queue s1 t1 after s2 t2 :
  Session_create now0 id allowPNG isPopup created = Some (s0, t0) ->
  runAllTimely before s0 = Some (s, t) ->
  isLive s = true -> route request = RouteIframe (curMainIdx_ s) ->
  iframeQueue_ s = DownloadIframe file :: queue ->
  runTimely (OpRequest now request) s = Some (s1, t1) ->
  runAllTimely after s1 = Some (s2, t2) ->
  Z.of_nat (length before + length after) + 2 < 2 ^ 64 ->
  downloads_ s1 !! curDownloadIdx_ s1
    = Some (file, {| delayMs := 10000; expiresAt := Some (now + 10000 * ticks_per_ms) |}) /\
  forall at_ request' k,
    route request' = RouteDownload k ->
    exists s3 t3,
      runTimely (OpRequest at_ request') s2 = Some (s3, t3) /\
      (isLive s2 = false ->
       t3 = [SendTextResponse 503 "ERROR: Browser session has been closed"]) /\
      (k = curDownloadIdx_ s1 -> at_ < now + 10000 * ticks_per_ms ->
       Forall (notAfter at_) after ->
       downloads_ s3 !! k
         = Some (file, {| delayMs := 10000;
                          expiresAt := Some (now + 10000 * ticks_per_ms) |}) /\
       (isLive s2 = true -> t3 = refreshTrace at_ s2 ++ [ServeFile file])) /\
      (k = curDownloadIdx_ s1 -> now + 10000 * ticks_per_ms <= at_ ->
       downloads_ s3 !! k = None /\
       (isLive s2 = true ->
        t3 = refreshTrace at_ s2
             ++ [SendTextResponse 400 "ERROR: Outdated download index"])) /\
      (~ 0 < k <= curDownloadIdx_ s2 ->
       downloads_ s3 !! k = None /\
       (isLive s2 = true ->
        t3 = refreshTrace at_ s2
             ++ [SendTextResponse 400 "ERROR: Outdated download index"])).
Proof.
  intros Hcreate Hbefore Hlive Hroute Hqueue Hpoll Hafter Hlen.
  rewrite Nat2Z.inj_add in Hlen.
  pose proof (runAllTimely_downloadsBelow before s0 s t 0
                (create_downloadsBelow _ _ _ _ _ _ _ Hcreate) ltac:(lia) Hbefore) as Hdl.
  pose proof (runTimely_downloadsBelow _ _ _ _ _ Hdl ltac:(lia) Hpoll) as Hdl1.
  pose proof (runAllTimely_downloadsBelow after s1 s2 t2 _ Hdl1 ltac:(lia) Hafter) as Hdl2.
  destruct (iframe_poll_registers _ _ _ _ _ _ _ Hlive Hroute Hqueue Hpoll) as [Hidx Hentry].
  change (Timeout_set now (Timeout_create 10000))
    with {| delayMs := 10000; expiresAt := Some (now + 10000 * ticks_per_ms) |} in Hentry.
  split; [exact Hentry|].
  set (entry := (file, {| delayMs := 10000;
                          expiresAt := Some (now + 10000 * ticks_per_ms) |})) in *.
  destruct (runAllTimely_entry (curDownloadIdx_ s1) entry after s1 s2 t2 _ Hdl1 ltac:(lia)
              ltac:(lia) Hafter) as [_ Hsome].
  destruct (Hsome Hentry) as [Hcases Hkept]. clear Hsome.
  intros at_ request' k Hroute'.
  destruct (download_request_timely at_ request' k s2 Hroute') as (m & Hm & Hrun).
  eexists _, _. split; [exact Hrun|].
  assert (Hlookup : forall idx,
            downloads_ (if isLive s2 then refreshed at_ (set_downloads_ m s2)
                        else set_downloads_ m s2) !! idx = m !! idx).
  { intros idx. destruct (isLive s2); [rewrite downloads__refreshed|]; reflexivity. }
  split; [intros ->; reflexivity|]. split; [|split].
  - intros -> Hbeforeexpiry Hall.
    assert (Hnotdue : Timeout_due at_ (snd entry) = false)
      by (unfold Timeout_due; simpl; apply Z.leb_gt; lia).
    assert (Hmk : m !! curDownloadIdx_ s1 = Some entry)
      by (apply Hm; split; [apply (Hkept at_ Hall Hnotdue)|exact Hnotdue]).
    rewrite Hlookup, Hmk. split; [reflexivity|]. intros ->. reflexivity.
  - intros -> Hexpired.
    assert (Hmk : m !! curDownloadIdx_ s1 = None).
    { destruct (m !! curDownloadIdx_ s1) as [e|] eqn:He; [|reflexivity].
      apply Hm in He. destruct He as [He Hnotdue]. exfalso.
      destruct Hcases as [Hc|Hc]; rewrite Hc in He; [|discriminate].
      injection He as <-. unfold Timeout_due in Hnotdue. simpl in Hnotdue.
      apply Z.leb_gt in Hnotdue. lia. }
    rewrite Hlookup, Hmk. split; [reflexivity|]. intros ->. reflexivity.
  - intros Hnever.
    assert (Hmk : m !! k = None).
    { destruct (m !! k) as [e|] eqn:He; [|reflexivity].
      apply Hm in He. destruct He as [He _]. exfalso. apply Hnever.
      destruct Hdl2 as [_ Hkeys]. apply (Hkeys _ _ He). }
    rewrite Hlookup, Hmk. split; [reflexivity|]. intros ->. reflexivity.
Qed.

End SessionProperties.

(** ** The properties at the concrete instance *)

#[local] Existing Instance exampleExternals.

Example create_example :
  Session_create 0 7 true false true
  = Some (createdSession, [Log LogOpening; SetViewport 800 600]).
Proof. reflexivity. Qed.

Example ready_example :
  run OpAfterCreated createdSession
  = Some (openSession,
          [Log LogBrowserCreated; Transition Pending Open;
           WidgetCall "browserArea.setBrowser"]).
Proof. reflexivity. Qed.

Example close_example :
  run OpClose openSession
  = Some (closingSession,
          [Log LogCloseRequested; Transition Open Closing; CloseBrowser; CompressorFlush]).
Proof. reflexivity. Qed.

Lemma createdSession_reachable : reachable createdSession.
Proof. eapply reachable_create. exact create_example. Qed.

Lemma openSession_reachable : reachable openSession.
Proof. eapply reachable_run; [exact createdSession_reachable|exact ready_example]. Qed.

Lemma closingSession_reachable : reachable closingSession.
Proof. eapply reachable_run; [exact openSession_reachable|exact close_example]. Qed.

(** The theorem on C1 at the open session: a first poll with imgIdx 1 is
    accepted, and a poll with imgIdx 0 is answered 400. *)
Lemma first_poll_accepted_stale_poll_rejected :
  (exists s' t,
     handleHTTPRequest (ms 100) (GET "/7/image/0/1/1/800/600/0/") openSession
       = Some (s', t) /\
     curImgIdx_ s' = 1 /\ curMainIdx_ s' = curMainIdx_ openSession /\
     succeeded t = true /\ In SendCompressedImageNow t) /\
  handleHTTPRequest (ms 100) (GET "/7/image/0/0/1/800/600/0/") openSession
    = Some (refreshed (ms 100) openSession,
            refreshTrace (ms 100) openSession
            ++ [SendTextResponse 400 "ERROR: Outdated request"]).
Proof.
  split.
  - refine (image_poll_accepted_iff_fresh (ms 100) (GET "/7/image/0/1/1/800/600/0/")
              (Build_ImageArgs 0 1 1 800 600 0 "") openSession _ _);
      vm_compute; reflexivity.
  - refine (image_poll_accepted_iff_fresh (ms 100) (GET "/7/image/0/0/1/800/600/0/")
              (Build_ImageArgs 0 0 1 800 600 0 "") openSession _ _);
      vm_compute; reflexivity.
Defined.

(** C1 as stated fails in two ways.  A session that is Closing answers a
    poll for the current page with a fresh imgIdx with 503 and does not
    accept it; and a stale poll that arrives a second or more after the
    last security status refresh is answered 400 but moves
    lastSecurityStatusUpdateTime_. *)
Lemma closing_session_refuses_fresh_poll :
  reachable closingSession /\
  route (GET "/7/image/0/1/1/800/600/0/")
    = RouteImage (Build_ImageArgs 0 1 1 800 600 0 "") /\
  curMainIdx_ closingSession = 0 /\ curImgIdx_ closingSession < 1 /\
  handleHTTPRequest (ms 100) (GET "/7/image/0/1/1/800/600/0/") closingSession
    = Some (closingSession,
            [SendTextResponse 503 "ERROR: Browser session has been closed"]) /\
  handleHTTPRequest (ms 1000) (GET "/7/image/0/0/1/800/600/0/") openSession
    = Some (set_lastSecurityStatusUpdateTime_ (ms 1000) openSession,
            [SetSecurityStatus; SendTextResponse 400 "ERROR: Outdated request"]) /\
  lastSecurityStatusUpdateTime_ (set_lastSecurityStatusUpdateTime_ (ms 1000) openSession)
    <> lastSecurityStatusUpdateTime_ openSession.
Proof.
  split; [exact closingSession_reachable|].
  split; [reflexivity|]. split; [reflexivity|]. split; [reflexivity|].
  split; [reflexivity|]. split; [reflexivity|].
  vm_compute. discriminate.
Qed.


Example overlapping_polls_trace :
  option_map (fun r => (processed (snd r), curEventIdx_ (fst r)))
    (runAll overlappingPolls openSession)
  = Some ([0; 1; 2; 3], 4).
Proof. vm_compute. reflexivity. Qed.

Lemma overlappingPolls_keep : Forall keepsGeneration overlappingPolls.
Proof.
  repeat constructor; vm_compute; intuition discriminate.
Defined.

(** The theorem on C2 at four polls of the open session whose batches
    overlap, the third a replay of the second. *)
Lemma overlapping_polls_processed_once :
  match runAll overlappingPolls openSession with
  | Some (s', t) =>
      NoDup (processed t) /\
      Forall (fun i => curEventIdx_ openSession <= i < curEventIdx_ s') (processed t) /\
      curEventIdx_ openSession <= curEventIdx_ s' /\
      (forall startIdx events s0 s1 t1,
         batchFits startIdx events -> 0 <= curEventIdx_ s0 ->
         handleEvents_ startIdx events s0 = Some (s1, t1) ->
         curEventIdx_ s1 = Z.max (curEventIdx_ s0) (startIdx + slashes events) /\
         processed t1 = seqZ (Z.max (curEventIdx_ s0) startIdx)
                             (startIdx + slashes events - Z.max (curEventIdx_ s0) startIdx))
  | None => False
  end.
Proof.
  destruct (runAll overlappingPolls openSession) as [[s' t]|] eqn:Hrun.
  - refine (events_applied_at_most_once overlappingPolls openSession s' t
              overlappingPolls_keep _ Hrun).
    vm_compute. discriminate.
  - vm_compute in Hrun. discriminate Hrun.
Defined.

(** C2 as stated fails at the top of the 64-bit range: a batch that
    starts at 2^64 - 1 wraps the expectation to zero, so a later batch
    that starts at 2^64 - 1 again has its first event processed a second
    time under the same sequence number. *)
Lemma wrapped_sequence_number_processed_twice :
  option_map (fun r => processed (snd r))
    (runAll [OpRequest (ms 100)
               (GET "/7/image/0/1/1/800/600/18446744073709551615/A/B/");
             OpRequest (ms 200)
               (GET "/7/image/0/2/1/800/600/18446744073709551615/A/")]
            openSession)
  = Some [18446744073709551615; 0; 18446744073709551615] /\
  ~ NoDup [18446744073709551615; 0; 18446744073709551615].
Proof.
  split; [vm_compute; reflexivity|].
  intros Hnd. apply NoDup_cons in Hnd. destruct Hnd as [Hnotin _].
  apply Hnotin. right. left.
Qed.

(** The theorem on C3 at the fresh session and a request of 801 x 600. *)
Lemma delivered_frame_801_600 :
  exists s1 t1 w h,
    updateRootViewportSize_ 801 600 freshSession = Some (s1, t1) /\
    sendViewportToCompressor_ s1 = Some (s1, [UpdateImage w h]) /\
    rootViewport_ s1 = {| width := clamp 801; height := clamp 600 |} /\
    paddedRootViewport_ s1 = {| width := clamp 801 + 4 - 1; height := clamp 600 + 8 - 1 |} /\
    Z.rem w 4 = 0 /\
    (forall w', w' <= width (paddedRootViewport_ s1) -> Z.rem w' 4 = 0 -> w' <= w) /\
    Z.rem h 8 = 0 /\
    (forall h', h' <= height (paddedRootViewport_ s1) -> Z.rem h' 8 = 0 -> h' <= h) /\
    clamp 801 <= w < clamp 801 + 4 /\
    clamp 600 <= h < clamp 600 + 8.
Proof.
  refine (delivered_frame_is_largest_with_signal 801 600 freshSession _ _ _).
  - unfold viewportFits. simpl. lia.
  - simpl. lia.
  - simpl. lia.
Defined.

(** C3 as stated fails: with Wmod = 4, Hmod = 8 and no iframe waiting
    (width signal 0), a poll that requests 801 x 600 is followed by a frame
    of width 804, which is outside [800,804). *)
Lemma frame_801_is_804_wide :
  traceOf (thenRun [OpAfterCreated; OpRequest (ms 1000) (GET "/7/image/0/1/1/801/600/0/")]
                   OpWidgetViewDirty)
  = Some [Render; UpdateImage 804 600]
  /\ ~ (800 <= 804 < 804).
Proof. split; [vm_compute; reflexivity|lia]. Qed.

(** The theorem on C4 at Session::create and at the three callbacks that
    take session 7 from Pending to Closed. *)
Lemma lifecycle_walks :
  walk stateEdge Pending (transitions [Log LogOpening; SetViewport 800 600])
    = Some (state_ createdSession) /\
  walk stateEdge (state_ openSession)
       (transitions [Log LogCloseRequested; Transition Open Closing;
                     CloseBrowser; CompressorFlush])
    = Some (state_ closingSession).
Proof.
  split.
  - exact (proj1 state_changes_along_edges 0 7 true false true _ _ create_example).
  - exact (proj2 state_changes_along_edges OpClose openSession _ _ close_example).
Defined.

(** C4 as stated fails: when the browser reports its close while the
    session is Open (no close() came first), state_ goes from Open to
    Closed in one step, which is neither on the chain nor the edge from
    Pending to Closed. *)
Lemma open_session_closes_in_one_step :
  reachable openSession /\
  traceOf (run (OpBeforeClose (ms 5000)) openSession)
    = Some [Transition Open Closed; WidgetCall "browserArea.setBrowser";
            CompressorFlush; Log LogSessionClosed; PostSessionClosed 7] /\
  chainEdge Open Closed = false /\
  walk chainEdge Open
       (transitions [Transition Open Closed; WidgetCall "browserArea.setBrowser";
                     CompressorFlush; Log LogSessionClosed; PostSessionClosed 7]) = None.
Proof.
  split; [exact openSession_reachable|].
  split; [vm_compute; reflexivity|]. split; reflexivity.
Qed.


(** The theorem on C5 at the open session and a poll that carries one
    event. *)
Lemma counters_after_poll :
  match run pollWithEvent openSession with
  | Some (s', _) =>
      curMainIdx_ openSession <= curMainIdx_ s' /\
      curDownloadIdx_ openSession <= curDownloadIdx_ s' /\
      (curMainIdx_ s' = curMainIdx_ openSession ->
       curImgIdx_ openSession <= curImgIdx_ s' /\
       curEventIdx_ openSession <= curEventIdx_ s') /\
      (curMainIdx_ s' <> curMainIdx_ openSession ->
       curMainIdx_ s' = curMainIdx_ openSession + 1 /\
       curImgIdx_ s' = 0 /\ curEventIdx_ s' = 0)
  | None => False
  end.
Proof.
  destruct (run pollWithEvent openSession) as [[s' t]|] eqn:Hrun.
  - refine (counters_grow_within_a_generation pollWithEvent openSession s' t _ _ Hrun).
    + vm_compute. intuition discriminate.
    + vm_compute. intuition discriminate.
  - vm_compute in Hrun. discriminate Hrun.
Defined.

(** C5 as stated fails: after a poll has raised imgIdx and eventIdx to 1,
    the close endpoint is answered "OK" and assigns both the value 0.
    (Within a generation eventIdx also falls when it wraps: a second poll
    whose one event has sequence number 2^64 - 1 leaves it at 0.) *)
Lemma close_endpoint_resets_counters :
  option_map (fun r => (curMainIdx_ (fst r), curImgIdx_ (fst r), curEventIdx_ (fst r)))
    (sessionAfter [OpAfterCreated; pollWithEvent])
  = Some (0, 1, 1) /\
  option_map (fun r => (curMainIdx_ (fst r), curImgIdx_ (fst r), curEventIdx_ (fst r), snd r))
    (thenRun [OpAfterCreated; pollWithEvent] closeSignal)
  = Some (1, 0, 0, [SendTextResponse 200 "OK"]) /\
  ~ (1 <= 0) /\
  option_map (fun r => (curMainIdx_ (fst r), curEventIdx_ (fst r)))
    (thenRun [OpAfterCreated; pollWithEvent]
       (OpRequest (ms 200) (GET "/7/image/0/2/1/800/600/18446744073709551615/A/")))
  = Some (0, 0).
Proof.
  split; [vm_compute; reflexivity|]. split; [vm_compute; reflexivity|].
  split; [lia|vm_compute; reflexivity].
Qed.

(** The theorem on C6 at the open session and a request for the main
    page. *)
Lemma main_page_rearms_long_timer :
  match handleHTTPRequest (ms 100) (GET "/7/") openSession with
  | Some (s', t) =>
      (succeeded t = true -> longRearmed (ms 100) openSession s') /\
      (succeeded t = false -> timersUntouched openSession s')
  | None => False
  end.
Proof.
  destruct (handleHTTPRequest (ms 100) (GET "/7/") openSession) as [[s' t]|] eqn:Hrun.
  - exact (accepted_request_timers (ms 100) (GET "/7/") openSession s' t Hrun).
  - vm_compute in Hrun. discriminate Hrun.
Defined.

(** C6 as stated fails for the two kinds of request it names last.  After
    the close endpoint has armed the short timer, an iframe poll on the
    empty queue is answered "OK" and the long timer stays disarmed; and a
    download fetch 5 seconds after the download was registered leaves the
    long timer at the expiry it had, 1s + 30s, instead of 6s + 30s. *)
Lemma empty_iframe_poll_and_download_leave_timers :
  option_map (fun r => (expiresAt (inactivityTimeoutLong_ (fst r)),
                        expiresAt (inactivityTimeoutShort_ (fst r)), snd r))
    (thenRun [OpAfterCreated; closeSignal] (OpRequest (ms 300) (GET "/7/iframe/1/0/")))
  = Some (None, Some (ms 4200), [SendTextResponse 200 "OK"]) /\
  option_map (fun r => (expiresAt (inactivityTimeoutLong_ (fst r)), snd r))
    (thenRun [OpAfterCreated; OpDownloadCompleted report;
              OpRequest (ms 1000) (GET "/7/iframe/0/0/")]
             (OpRequest (ms 6000) (GET "/7/download/1/report.pdf")))
  = Some (Some (ms 31000), [SetSecurityStatus; ServeFile report]) /\
  Some (ms 31000) <> Some (ms 6000 + ms 30000).
Proof.
  split; [vm_compute; reflexivity|]. split; [vm_compute; reflexivity|].
  vm_compute. discriminate.
Qed.

(** The theorem on C7 at session 7: a download completes, its page is
    polled at 1s, and the file is fetched at 2s and at 3s. *)
Lemma download_registered_at_1s :
  match runAllTimely downloadCompleted createdSession with
  | Some (s, _) =>
    match runTimely downloadPoll s with
    | Some (s1, _) =>
      match runAllTimely downloadFetches s1 with
      | Some (s2, _) =>
          curDownloadIdx_ s1 = 1 /\ isLive s2 = true /\
          downloads_ s1 !! curDownloadIdx_ s1
            = Some (report, {| delayMs := 10000;
                               expiresAt := Some (ms 1000 + 10000 * ticks_per_ms) |}) /\
          forall at_ request' k,
            route request' = RouteDownload k ->
            exists s3 t3,
              runTimely (OpRequest at_ request') s2 = Some (s3, t3) /\
              (isLive s2 = false ->
               t3 = [SendTextResponse 503 "ERROR: Browser session has been closed"]) /\
              (k = curDownloadIdx_ s1 -> at_ < ms 1000 + 10000 * ticks_per_ms ->
               Forall (notAfter at_) downloadFetches ->
               downloads_ s3 !! k
                 = Some (report, {| delayMs := 10000;
                                    expiresAt := Some (ms 1000 + 10000 * ticks_per_ms) |}) /\
               (isLive s2 = true -> t3 = refreshTrace at_ s2 ++ [ServeFile report])) /\
              (k = curDownloadIdx_ s1 -> ms 1000 + 10000 * ticks_per_ms <= at_ ->
               downloads_ s3 !! k = None /\
               (isLive s2 = true ->
                t3 = refreshTrace at_ s2
                     ++ [SendTextResponse 400 "ERROR: Outdated download index"])) /\
              (~ 0 < k <= curDownloadIdx_ s2 ->
               downloads_ s3 !! k = None /\
               (isLive s2 = true ->
                t3 = refreshTrace at_ s2
                     ++ [SendTextResponse 400 "ERROR: Outdated download index"]))
      | None => False
      end
    | None => False
    end
  | None => False
  end.
Proof.
  destruct (runAllTimely downloadCompleted createdSession) as [[s t]|] eqn:Hbefore;
    [|vm_compute in Hbefore; discriminate Hbefore].
  pose proof Hbefore as Hs. vm_compute in Hs. injection Hs as <- <-.
  destruct (runTimely downloadPoll _) as [[s1 t1]|] eqn:Hpoll;
    [|vm_compute in Hpoll; discriminate Hpoll].
  pose proof Hpoll as Hs. vm_compute in Hs. injection Hs as <- <-.
  destruct (runAllTimely downloadFetches _) as [[s2 t2]|] eqn:Hafter;
    [|vm_compute in Hafter; discriminate Hafter].
  pose proof Hafter as Hs. vm_compute in Hs. injection Hs as <- <-.
  split; [reflexivity|]. split; [reflexivity|].
  refine (download_entry_lifetime 0 7 true false true createdSession _ downloadCompleted
            _ _ (ms 1000) (GET "/7/iframe/0/0/") report [] _ _ downloadFetches _ _
            create_example Hbefore _ _ _ Hpoll Hafter _).
  - reflexivity.
  - reflexivity.
  - reflexivity.
  - vm_compute. reflexivity.
Defined.

(** Without any explicit firing of the timeout: the file registered at 1s
    is served at 10.999s and gone at 11s, however often it was fetched. *)
Example download_expires_on_time :
  traceOf (thenRunTimely (downloadCompleted ++ downloadPoll :: downloadFetches)
             (OpRequest (ms 10999) (GET "/7/download/1/report.pdf")))
    = Some [SetSecurityStatus; ServeFile report] /\
  traceOf (thenRunTimely (downloadCompleted ++ downloadPoll :: downloadFetches)
             (OpRequest (ms 11000) (GET "/7/download/1/report.pdf")))
    = Some [SetSecurityStatus; SendTextResponse 400 "ERROR: Outdated download index"] /\
  traceOf (thenRunTimely (downloadCompleted ++ downloadPoll :: downloadFetches)
             (OpRequest (ms 20000) (GET "/7/download/1/report.pdf")))
    = Some [SetSecurityStatus; SendTextResponse 400 "ERROR: Outdated download index"] /\
  traceOf (thenRunTimely (downloadCompleted ++ downloadPoll :: downloadFetches)
             (OpRequest (ms 4000) (GET "/7/download/2/report.pdf")))
    = Some [SetSecurityStatus; SendTextResponse 400 "ERROR: Outdated download index"].
Proof. repeat split; vm_compute; reflexivity. Qed.

(** The same with the timeout run as an operation of its own. *)
Example download_served_twice_then_expires :
  traceOf (thenRun downloadStory (OpRequest (ms 10999) (GET "/7/download/1/report.pdf")))
    = Some [SetSecurityStatus; ServeFile report] /\
  traceOf (thenRun (downloadStory ++ [OpDownloadTimeout (ms 11000) 1])
                   (OpRequest (ms 11001) (GET "/7/download/1/report.pdf")))
    = Some [SetSecurityStatus; SendTextResponse 400 "ERROR: Outdated download index"].
Proof. split; vm_compute; reflexivity. Qed.

(** Once the browser has gone, a download request is answered 503 like
    every request, whether the entry has expired or not. *)
Example closed_session_answers_503_for_expired_download :
  option_map (fun r => (state_ (fst r), downloads_ (fst r) !! 1))
    (sessionAfter (downloadStory ++ [OpBeforeClose (ms 4000); OpDownloadTimeout (ms 11000) 1]))
  = Some (Closed, None) /\
  traceOf (thenRun (downloadStory ++ [OpBeforeClose (ms 4000); OpDownloadTimeout (ms 11000) 1])
                   (OpRequest (ms 12000) (GET "/7/download/1/report.pdf")))
  = Some [SendTextResponse 503 "ERROR: Browser session has been closed"].
Proof. split; vm_compute; reflexivity. Qed.

(** The theorem on C8 at the session Session::create returned. *)
Lemma close_before_ready :
  close createdSession
    = Some (set_closeOnOpen_ true createdSession, [Log LogCloseDeferred]) /\
  forall ops s1 t1,
    runAll ops (set_closeOnOpen_ true createdSession) = Some (s1, t1) ->
    state_ s1 = Pending ->
    exists s2 t2,
      OnAfterCreated s1 = Some (s2, t2) /\
      transitions t2 = [(Pending, Open); (Open, Closing)] /\
      In CloseBrowser t2 /\
      state_ s2 = Closing.
Proof.
  refine (close_while_pending_closes_on_open createdSession _).
  reflexivity.
Defined.

Example close_then_ready :
  option_map (fun r => (state_ (fst r), snd r))
    (sessionAfter [OpClose; OpRequest (ms 500) (GET "/7/"); OpAfterCreated])
  = Some (Closing,
          [Log LogCloseDeferred;
           SendHTMLResponse 200 (PreMainHTML 7);
           Log LogBrowserCreated; Transition Pending Open;
           WidgetCall "browserArea.setBrowser";
           Log LogCloseRequested; Transition Open Closing;
           CloseBrowser; CompressorFlush]).
Proof. vm_compute. reflexivity. Qed.

(** The theorem on C9 at the open session: two backspace shortcuts, the
    first one second after the session was created, the second 50ms on. *)
Lemma navigate_debounce_two_backs :
  exists s1 t1 s2 t2,
    navigate_ (ms 1000) (-1) openSession = Some (s1, t1) /\
    length (navigations t1) = 1%nat /\
    navigate_ (ms 1050) (-1) s1 = Some (s2, t2) /\
    (elapsed_ms (ms 1050) (ms 1000) <= 200 -> t2 = [] /\ s2 = s1) /\
    (ms 1050 - ms 1000 <= 200 * ticks_per_ms -> t2 = [] /\ s2 = s1) /\
    (200 < elapsed_ms (ms 1050) (ms 1000) -> length (navigations t2) = 1%nat) /\
    (ms 1050 - ms 1000 = 50 * ticks_per_ms -> length (navigations (t1 ++ t2)) = 1%nat) /\
    (ms 1050 - ms 1000 = 300 * ticks_per_ms -> length (navigations (t1 ++ t2)) = 2%nat).
Proof.
  refine (navigate_debounce (ms 1000) (ms 1050) (-1) (-1) openSession _ _ _ _).
  - lia.
  - lia.
  - reflexivity.
  - vm_compute. reflexivity.
Defined.

Example two_backspaces_50ms_apart :
  traceOf (sessionAfter [OpAfterCreated;
                         OpPreKeyEvent (ms 1000) true false false;
                         OpPreKeyEvent (ms 1050) true false false])
  = Some [Log LogBrowserCreated; Transition Pending Open;
          WidgetCall "browserArea.setBrowser"; GoBack].
Proof. vm_compute. reflexivity. Qed.

Example two_backspaces_300ms_apart :
  traceOf (sessionAfter [OpAfterCreated;
                         OpPreKeyEvent (ms 1000) true false false;
                         OpPreKeyEvent (ms 1300) true false false])
  = Some [Log LogBrowserCreated; Transition Pending Open;
          WidgetCall "browserArea.setBrowser"; GoBack; GoBack].
Proof. vm_compute. reflexivity. Qed.

Example backspaces_200ms_apart_debounced :
  traceOf (sessionAfter [OpAfterCreated;
                         OpPreKeyEvent (ms 1000) true false false;
                         OpPreKeyEvent (ms 1200) true false false])
  = Some [Log LogBrowserCreated; Transition Pending Open;
          WidgetCall "browserArea.setBrowser"; GoBack].
Proof. vm_compute. reflexivity. Qed.

(** C9 as stated fails when the first of the two triggers is itself
    suppressed: lastNavigateOperationTime_ starts at the time the session
    was constructed, so two backspace shortcuts 100ms and 150ms after
    that send no command at all, and of two shortcuts 300ms apart, 100ms
    and 400ms after construction, only the second sends one. *)
Lemma early_triggers_send_fewer_commands :
  option_map (fun r => navigations (snd r))
    (sessionAfter [OpAfterCreated;
                   OpPreKeyEvent (ms 100) true false false;
                   OpPreKeyEvent (ms 150) true false false])
  = Some [] /\
  option_map (fun r => navigations (snd r))
    (sessionAfter [OpAfterCreated;
                   OpPreKeyEvent (ms 100) true false false;
                   OpPreKeyEvent (ms 400) true false false])
  = Some [GoBack].
Proof. split; vm_compute; reflexivity. Qed.

(** The theorem on C10 at the open session and a poll with the batch
    "A/9/B/": the event text "9/" does not parse, "A/" comes before it and
    "B/" after it. *)
Lemma unparsed_event_between_parsed_events :
  exists s2 t2 s' t3,
    handleEvents_loop "B/" EmptyString (incr64 1)
      (set_curEventIdx_ (incr64 1)
         (set_curEventIdx_ 1 (rearmed (ms 100) false (refreshed (ms 100) openSession))))
      = Some (s2, t2) /\
    updateRootViewportSize_ 800 600 (set_curImgIdx_ 1 s2) = Some (s', t3) /\
    handleHTTPRequest (ms 100) (GET "/7/image/0/1/1/800/600/0/A/9/B/") openSession
    = Some (s', refreshTrace (ms 100) openSession
                ++ [ProcessEvent 0 "A/" true]
                ++ [ProcessEvent 1 (String.append "9" (String slash EmptyString)) false;
                    Log (LogCouldNotParseEvent
                           (String.append "9" (String slash EmptyString)))]
                ++ t2 ++ t3 ++ [SendCompressedImageNow]) /\
    curEventIdx_ s' = curEventIdx_ s2.
Proof.
  refine (unparsed_event_consumes_sequence_number (ms 100)
            (GET "/7/image/0/1/1/800/600/0/A/9/B/")
            (Build_ImageArgs 0 1 1 800 600 0 "A/9/B/") "A/" "9" "B/" openSession
            (set_curEventIdx_ 1 (rearmed (ms 100) false (refreshed (ms 100) openSession)))
            [ProcessEvent 0 "A/" true] _ _ _ _ _ _ _ _ _);
    reflexivity.
Defined.

Example poll_with_unparsed_event :
  option_map (fun r => (curEventIdx_ (fst r), snd r))
    (run (OpRequest (ms 100) (GET "/7/image/0/1/1/800/600/0/A/9/B/")) openSession)
  = Some (3, [ProcessEvent 0 "A/" true;
              ProcessEvent 1 "9/" false; Log (LogCouldNotParseEvent "9/");
              ProcessEvent 2 "B/" true; SendCompressedImageNow]).
Proof. vm_compute. reflexivity. Qed.

(** ** The invariants of the session at the concrete instance *)

Lemma exampleExternals_signalsFit : signalsFit.
Proof. unfold signalsFit. simpl. lia. Qed.

Lemma open_session_holds_browser :
  browserMatchesState openSession /\ exists s' t, close openSession = Some (s', t).
Proof.
  exact (browser_present_iff_open_or_closing openSession openSession_reachable).
Defined.

Lemma open_session_signals :
  signalsTrackState openSession /\
  exists w h,
    sendViewportToCompressor_ openSession = Some (openSession, [UpdateImage w h]) /\
    Z.rem w WidthSignalModulus
      = match iframeQueue_ openSession with
        | [] => WidthSignalNoNewIframe
        | _ :: _ => WidthSignalNewIframe
        end /\
    Z.rem h HeightSignalModulus = heightSignal_ openSession.
Proof.
  exact (signals_track_queue_and_cursor openSession exampleExternals_signalsFit
           openSession_reachable).
Defined.

Lemma open_session_timers : timersMatchState openSession.
Proof. exact (inactivity_timers_match_state openSession openSession_reachable). Defined.

Lemma prev_page_one_response :
  match handleHTTPRequest (ms 100) (GET "/7/prev/") openSession with
  | Some (_, t) => length (responses t) = 1%nat
  | None => False
  end.
Proof.
  destruct (handleHTTPRequest (ms 100) (GET "/7/prev/") openSession) as [[s' t]|] eqn:H.
  - exact (one_response_per_request _ _ _ _ _ H).
  - vm_compute in H. discriminate H.
Defined.

Lemma open_session_can_close :
  exists s' t', run OpClose openSession = Some (s', t').
Proof.
  refine (session_never_aborts 0 7 true false true [OpAfterCreated] OpClose
            createdSession _ openSession _ exampleExternals_signalsFit create_example _ _ _).
  - vm_compute. reflexivity.
  - vm_compute. reflexivity.
  - exact I.
Defined.

Lemma prev_next_prev_navigate_once :
  match runAll [prevPage 1000; nextPage 1500; prevPage 2000] (stateAfter mainLoaded) with
  | Some (s', t) =>
      curMainIdx_ (stateAfter mainLoaded) = 1 /\
      prevNextClicked_ (stateAfter mainLoaded) = false /\
      navigations t = [GoBack] /\ prevNextClicked_ s' = true /\
      (length (navigations t) <= 1)%nat /\
      (prevNextClicked_ (stateAfter mainLoaded) = true -> navigations t = [])
  | None => False
  end /\
  match runAll [nextPage 1500; prevPage 2000] (stateAfter (mainLoaded ++ [prevPage 1000])) with
  | Some (_, t) =>
      prevNextClicked_ (stateAfter (mainLoaded ++ [prevPage 1000])) = true /\
      navigations t = []
  | None => False
  end.
Proof.
  split.
  - destruct (runAll [prevPage 1000; nextPage 1500; prevPage 2000] (stateAfter mainLoaded))
      as [[s' t]|] eqn:H.
    + split; [reflexivity|]. split; [reflexivity|].
      split; [vm_compute in H; injection H as _ <-; reflexivity|].
      split; [vm_compute in H; injection H as <- _; reflexivity|].
      refine (prev_next_navigate_once _ _ _ _ _ H).
      repeat (apply List.Forall_cons; [first [left; reflexivity|right; reflexivity]|]).
      apply List.Forall_nil.
    + vm_compute in H. discriminate H.
  - destruct (runAll [nextPage 1500; prevPage 2000]
                     (stateAfter (mainLoaded ++ [prevPage 1000]))) as [[s' t]|] eqn:H.
    + split; [reflexivity|].
      refine (proj2 (prev_next_navigate_once _ _ _ _ _ H) eq_refl).
      repeat (apply List.Forall_cons; [first [left; reflexivity|right; reflexivity]|]).
      apply List.Forall_nil.
    + vm_compute in H. discriminate H.
Defined.

Lemma close_signal_starts_generation :
  match handleHTTPRequest (ms 200) (GET "/7/close/0/") openSession with
  | Some (s', _) =>
      curMainIdx_ s' = incr64 (curMainIdx_ openSession) /\
      curImgIdx_ s' = 0 /\ curEventIdx_ s' = 0 /\ isLive s' = true /\
      forall ops s'' t'' now' request',
        runAll ops s' = Some (s'', t'') ->
        Z.of_nat (length ops) + 1 < 2 ^ 64 ->
        carriesMainIdx (curMainIdx_ openSession) request' ->
        handleHTTPRequest now' request' s''
        = if isLive s''
          then Some (refreshed now' s'',
                     refreshTrace now' s''
                     ++ [SendTextResponse 400 "ERROR: Outdated request"])
          else Some (s'', [SendTextResponse 503 "ERROR: Browser session has been closed"])
  | None => False
  end.
Proof.
  destruct (handleHTTPRequest (ms 200) (GET "/7/close/0/") openSession) as [[s' t]|] eqn:H.
  - refine (new_generation_rejects_old_requests _ _ _ _ _ _ _ H).
    + reflexivity.
    + left. reflexivity.
  - vm_compute in H. discriminate H.
Defined.

(** After the close signal and a reload of the main page, a poll of the
    first generation is answered 400; after close() it is answered 503. *)
Example old_poll_after_reload_and_after_close :
  traceOf (thenRun [OpAfterCreated; closeSignal; OpRequest (ms 300) (GET "/7/")]
                   (OpRequest (ms 400) (GET "/7/image/0/1/1/800/600/0/")))
  = Some [SendTextResponse 400 "ERROR: Outdated request"] /\
  traceOf (thenRun [OpAfterCreated; closeSignal; OpClose]
                   (OpRequest (ms 400) (GET "/7/image/0/1/1/800/600/0/")))
  = Some [SendTextResponse 503 "ERROR: Browser session has been closed"].
Proof. split; vm_compute; reflexivity. Qed.

Lemma post_and_oversized_index_rejected :
  handleHTTPRequest (ms 100) {| method := "POST"; path := "/7/" |} openSession
  = Some (refreshed (ms 100) openSession,
          refreshTrace (ms 100) openSession
          ++ [SendTextResponse 400 "ERROR: Invalid request URI or method"]) /\
  handleHTTPRequest (ms 100) (GET "/7/close/18446744073709551616/") openSession
  = Some (refreshed (ms 100) openSession,
          refreshTrace (ms 100) openSession
          ++ [SendTextResponse 400 "ERROR: Invalid request URI or method"]).
Proof.
  split.
  - apply unparsable_request_rejected; [reflexivity|]. left. discriminate.
  - apply unparsable_request_rejected; [reflexivity|]. right. right.
    exists "18446744073709551616". split; [right; right; reflexivity|reflexivity].
Defined.

Lemma clipboard_iframe_served :
  match runAll [OpClipboardButton; OpRequest (ms 100) (GET "/7/iframe/0/1/")]
               openSession with
  | Some (s', t) =>
      exists served,
        iframeQueue_ openSession
        ++ flat_map enqueued [OpClipboardButton; OpRequest (ms 100) (GET "/7/iframe/0/1/")]
        = served ++ iframeQueue_ s' /\
        Forall2 servesIframe served (iframePages t)
  | None => False
  end.
Proof.
  destruct (runAll [OpClipboardButton; OpRequest (ms 100) (GET "/7/iframe/0/1/")]
                   openSession) as [[s' t]|] eqn:H.
  - exact (iframes_served_in_queue_order _ _ _ _ H).
  - vm_compute in H. discriminate H.
Defined.

Lemma closed_session_posted_once :
  match runAll [OpAfterCreated; OpClose; OpBeforeClose (ms 300); OpClose] createdSession with
  | Some (s, t) =>
      closedNotices ([Log LogOpening; SetViewport 800 600] ++ t) = closedCount (state_ s)
  | None => False
  end.
Proof.
  destruct (runAll [OpAfterCreated; OpClose; OpBeforeClose (ms 300); OpClose] createdSession)
    as [[s t]|] eqn:H.
  - exact (session_closed_posted_once 0 7 true false true _ _ _ _ _ create_example H).
  - vm_compute in H. discriminate H.
Defined.

(** * Properties of the text functions *)

Section TextProperties.
(** * Properties of the text layout *)

Import Text.

Lemma get_inside str : forall n, (n < String.length str)%nat -> exists c, String.get n str = Some c.
Proof.
  induction str as [|c str IH]; intros n Hn; simpl in *; [lia|].
  destruct n; [eauto|]. apply IH. lia.
Qed.

Lemma byteAt_inside str idx :
  0 <= idx < size str -> exists c, byteAt str idx = Returns c /\ 0 <= c < 256.
Proof.
  intros [H0 H1]. unfold byteAt, size in *.
  replace ((0 <=? idx) && (idx <? Z.of_nat (String.length str))) with true
    by (symmetry; apply andb_true_iff; split; [apply Z.leb_le|apply Z.ltb_lt]; lia).
  destruct (get_inside str (Z.to_nat idx) ltac:(lia)) as [c ->].
  exists (Z.of_nat (nat_of_ascii c)). split; [reflexivity|].
  pose proof (nat_ascii_bounded c). lia.
Qed.

Lemma lands_impl (P Q : Z -> Prop) r : (forall i, P i -> Q i) -> lands P r -> lands Q r.
Proof. destruct r; simpl; auto. Qed.

Lemma lands_bind (P Q : Z -> Prop) (c : Checked Z) (f : Z -> Checked Z) :
  lands P c -> (forall i, P i -> lands Q (f i)) -> lands Q (c ≫= f).
Proof. destruct c; simpl; auto. Qed.

Lemma lands_CHECK (Q : Z -> Prop) b (c : Checked Z) :
  (b = true -> lands Q c) -> lands Q (CHECK b ≫= fun _ => c).
Proof. destruct b; simpl; auto. Qed.

Lemma continuationBytes_lands str n : forall idx,
  0 <= idx -> idx + Z.of_nat n <= size str ->
  lands (fun r => r = idx + Z.of_nat n) (continuationBytes str idx n).
Proof.
  induction n as [|n IH]; intros idx H0 H1; simpl; [lia|].
  destruct (byteAt_inside str idx ltac:(lia)) as (c & -> & _). simpl.
  apply lands_CHECK. intros _.
  eapply lands_impl; [|apply IH; lia]. simpl. intros; lia.
Qed.

Lemma jumpChar_lands str idx :
  0 <= idx -> lands (fun r => idx + 1 <= r <= idx + 4 /\ r <= size str) (jumpChar str idx).
Proof.
  intros H0. unfold jumpChar.
  apply lands_CHECK. intros Hlt%Z.ltb_lt.
  destruct (byteAt_inside str idx ltac:(lia)) as (c & -> & _).
  assert (Hmulti : forall bytes, 2 <= bytes <= 4 ->
            lands (fun r => idx + 1 <= r <= idx + 4 /\ r <= size str)
                  (CHECK (idx + bytes <=? size str) ≫= fun _ =>
                   continuationBytes str (idx + 1) (Z.to_nat (bytes - 1)))).
  { intros bytes Hb. apply lands_CHECK. intros Hfit%Z.leb_le.
    eapply lands_impl; [|apply continuationBytes_lands; lia]. simpl. intros; lia. }
  change (lands (fun r => idx + 1 <= r <= idx + 4 /\ r <= size str)
    (if negb (Z.land c 128 =? 0)
     then CHECK (negb (Z.land c 64 =? 0)) ≫= fun _ =>
          (if Z.land c 32 =? 0 then Returns 2
           else if Z.land c 16 =? 0 then Returns 3
           else CHECK (Z.land c 8 =? 0) ≫= fun _ => Returns 4) ≫= fun bytes =>
          CHECK (idx + bytes <=? size str) ≫= fun _ =>
          continuationBytes str (idx + 1) (Z.to_nat (bytes - 1))
     else Returns (idx + 1))).
  destruct (Z.land c 128 =? 0); [simpl; lia|].
  apply lands_CHECK. intros _.
  destruct (Z.land c 32 =? 0); [apply (Hmulti 2); lia|].
  destruct (Z.land c 16 =? 0); [apply (Hmulti 3); lia|].
  destruct (Z.land c 8 =? 0); [apply (Hmulti 4); lia|exact I].
Qed.

Lemma jumpChars_lands str count : forall idx,
  0 <= idx <= size str ->
  lands (fun r => idx + Z.of_nat count <= r <= idx + 4 * Z.of_nat count /\ r <= size str)
        (jumpChars str idx count).
Proof.
  induction count as [|count IH]; intros idx H0; simpl; [lia|].
  eapply lands_bind; [apply jumpChar_lands; lia|]. simpl.
  intros i Hi. eapply lands_impl; [|apply IH; lia]. simpl. intros; lia.
Qed.

Lemma jumpUTF8Chars_lands str idx count :
  lands (fun r => 0 <= idx /\ 0 <= count /\
                  idx + count <= r <= idx + 4 * count /\ r <= size str /\
                  startsCharacter str r)
        (jumpUTF8Chars str idx count).
Proof.
  unfold jumpUTF8Chars.
  destruct ((0 <=? idx) && (idx <=? size str)) eqn:Hidx; simpl; [|exact I].
  apply andb_true_iff in Hidx. destruct Hidx as [H0%Z.leb_le H1%Z.leb_le].
  destruct (Z.leb_spec 0 count) as [Hc|Hc]; simpl; [|exact I].
  pose proof (jumpChars_lands str (Z.to_nat count) idx ltac:(lia)) as Hl.
  destruct (jumpChars str idx (Z.to_nat count)) as [r| |]; simpl in *; [|exact I|exact Hl].
  rewrite Z2Nat.id in Hl by lia.
  destruct (Z.leb_spec r (size str)) as [Hr|Hr]; simpl; [|exact I].
  destruct (Z.eqb_spec r (size str)) as [Heq|Hne]; simpl.
  - repeat split; try lia. intros c. unfold byteAt.
    replace (r <? size str) with false by (symmetry; apply Z.ltb_ge; lia).
    rewrite andb_false_r. discriminate.
  - destruct (byteAt_inside str r ltac:(lia)) as (c & Hc' & _). rewrite Hc'. simpl.
    destruct (Z.eqb_spec (Z.land c 192) 128) as [Hcont|Hcont]; simpl; [exact I|].
    repeat split; try lia. intros c'. rewrite Hc'. intros [= <-]. exact Hcont.
Qed.

(** A test on a byte that holds for all 256 values. *)
Lemma byte_forall (P : Z -> bool) :
  forallb P (seqZ 0 256) = true -> forall c, 0 <= c < 256 -> P c = true.
Proof.
  intros H c Hc. rewrite forallb_forall in H. apply H.
  apply list_elem_of_In, elem_of_seqZ. lia.
Qed.

Lemma continuation_is_no_lead c :
  0 <= c < 256 -> Z.land c 0xC0 = 0x80 ->
  (Z.land c 0x80 =? 0) = false /\ (Z.land c 0x40 =? 0) = true.
Proof.
  intros Hc Hcont.
  pose proof (byte_forall
    (fun c => implb (Z.land c 0xC0 =? 0x80)
                    (negb (Z.land c 0x80 =? 0) && (Z.land c 0x40 =? 0)))
    ltac:(vm_compute; reflexivity) c Hc) as H.
  simpl in H. rewrite (proj2 (Z.eqb_eq _ _) Hcont) in H. simpl in H.
  apply andb_true_iff in H. destruct H as [H1 H2].
  apply negb_true_iff in H1. auto.
Qed.

Lemma jumpChars_add str a : forall b idx,
  jumpChars str idx (a + b) = jumpChars str idx a ≫= fun i => jumpChars str i b.
Proof.
  induction a as [|a IH]; intros b idx; simpl; [reflexivity|].
  destruct (jumpChar str idx) as [i| |]; simpl; [apply IH|reflexivity|reflexivity].
Qed.

(** X1: jumpUTF8Chars never reads a byte outside the string, whatever the
    bytes, the start index and the count are: it returns or stops in a
    CHECK. *)
Theorem jumpUTF8Chars_reads_inside (str : string) (idx count : Z) :
  readsInside (jumpUTF8Chars str idx count).
Proof.
  pose proof (jumpUTF8Chars_lands str idx count) as H.
  destruct (jumpUTF8Chars str idx count); [exact I|exact I|contradiction].
Qed.

(** X2: when jumpUTF8Chars returns, the start index and the count were not
    negative, the result lies between one and four bytes per character
    past the start and within the string, and the byte at the result, if
    any, is not a continuation byte (10xxxxxx). *)
Theorem jumpUTF8Chars_result (str : string) (idx count r : Z) :
  jumpUTF8Chars str idx count = Returns r ->
  0 <= idx /\ 0 <= count /\
  idx + count <= r <= idx + 4 * count /\ r <= size str /\
  startsCharacter str r.
Proof.
  intros H. pose proof (jumpUTF8Chars_lands str idx count) as Hl.
  rewrite H in Hl. exact Hl.
Qed.

(** X3: jumping over a + b characters is jumping over a characters and
    then over b more from where that ended, with the same outcome also
    when a CHECK fails. *)
Theorem jumpUTF8Chars_add (str : string) (idx a b : Z) :
  0 <= a -> 0 <= b ->
  jumpUTF8Chars str idx (a + b)
  = jumpUTF8Chars str idx a ≫= fun i => jumpUTF8Chars str i b.
Proof.
  intros Ha Hb. unfold jumpUTF8Chars.
  destruct ((0 <=? idx) && (idx <=? size str)) eqn:Hidx; simpl; [|reflexivity].
  apply andb_true_iff in Hidx. destruct Hidx as [H0%Z.leb_le H1%Z.leb_le].
  replace (0 <=? a + b) with true by (symmetry; apply Z.leb_le; lia).
  replace (0 <=? a) with true by (symmetry; apply Z.leb_le; lia).
  replace (0 <=? b) with true by (symmetry; apply Z.leb_le; lia).
  simpl. rewrite Z2Nat.inj_add, jumpChars_add by lia.
  pose proof (jumpChars_lands str (Z.to_nat a) idx ltac:(lia)) as Hl.
  destruct (jumpChars str idx (Z.to_nat a)) as [i| |]; simpl in *;
    [|reflexivity|reflexivity].
  rewrite Z2Nat.id in Hl by lia.
  assert (Hi0 : (0 <=? i) = true) by (apply Z.leb_le; lia).
  assert (Hi1 : (i <=? size str) = true) by (apply Z.leb_le; lia).
  rewrite Hi1. simpl.
  destruct (Z.eqb_spec i (size str)) as [Heq|Hne]; simpl.
  { rewrite Hi0, Hi1. reflexivity. }
  destruct (byteAt_inside str i ltac:(lia)) as (c & Hc & Hrange). rewrite Hc. simpl.
  destruct (Z.eqb_spec (Z.land c 192) 128) as [Hcont|Hcont]; simpl.
  2:{ rewrite Hi0, Hi1. reflexivity. }
  (* the a-th character ends before a continuation byte: both sides stop *)
  destruct (Z.to_nat b) as [|nb]; simpl.
  - rewrite Hi1. simpl. destruct (Z.eqb_spec i (size str)); [contradiction|]. simpl.
    rewrite Hc. simpl. rewrite (proj2 (Z.eqb_eq _ _) Hcont). reflexivity.
  - unfold jumpChar.
    replace (i <? size str) with true by (symmetry; apply Z.ltb_lt; lia).
    simpl. rewrite Hc. simpl.
    destruct (continuation_is_no_lead c Hrange Hcont) as [-> ->]. reflexivity.
Qed.

(** ** jumpUTF8Chars on well-formed text *)

Lemma range_forall (P : Z -> bool) lo n :
  forallb P (seqZ lo n) = true -> forall c, lo <= c < lo + n -> P c = true.
Proof.
  intros H c Hc. rewrite forallb_forall in H. apply H.
  apply list_elem_of_In, elem_of_seqZ. lia.
Qed.

Lemma size_append a b : size (String.append a b) = size a + size b.
Proof.
  unfold size. induction a as [|c a IH].
  - change (String.append EmptyString b) with b. simpl. lia.
  - change (String.append (String c a) b) with (String c (String.append a b)).
    simpl String.length. lia.
Qed.

Lemma size_String c s : size (String c s) = 1 + size s.
Proof. unfold size. simpl String.length. lia. Qed.

Lemma size_nonneg s : 0 <= size s.
Proof. unfold size. lia. Qed.

Lemma byteAt_append pre s i :
  0 <= i -> byteAt (String.append pre s) (size pre + i) = byteAt s i.
Proof.
  intros Hi. unfold byteAt. rewrite size_append.
  pose proof (size_nonneg pre) as Hp.
  replace (0 <=? size pre + i) with true by (symmetry; apply Z.leb_le; lia).
  replace (0 <=? i) with true by (symmetry; apply Z.leb_le; lia).
  simpl.
  destruct (Z.ltb_spec i (size s)) as [Hlt|Hge].
  - replace (size pre + i <? size pre + size s) with true
      by (symmetry; apply Z.ltb_lt; lia).
    replace (Z.to_nat (size pre + i)) with (Z.to_nat i + String.length pre)%nat
      by (unfold size; lia).
    rewrite <- append_correct2. reflexivity.
  - replace (size pre + i <? size pre + size s) with false
      by (symmetry; apply Z.ltb_ge; lia).
    reflexivity.
Qed.

Lemma continuationBytes_append pre s n : forall i,
  0 <= i ->
  continuationBytes (String.append pre s) (size pre + i) n
  = shift (size pre) (continuationBytes s i n).
Proof.
  induction n as [|n IH]; intros i Hi; simpl; [reflexivity|].
  rewrite byteAt_append by lia.
  destruct (byteAt s i) as [c| |]; simpl; try reflexivity.
  destruct (Z.land c 192 =? 128); simpl; [|reflexivity].
  replace (size pre + i + 1) with (size pre + (i + 1)) by lia.
  apply IH. lia.
Qed.

(** Stepping over a character does not depend on the text before it. *)
Lemma jumpChar_append pre s i :
  0 <= i ->
  jumpChar (String.append pre s) (size pre + i) = shift (size pre) (jumpChar s i).
Proof.
  intros Hi. unfold jumpChar. rewrite size_append, byteAt_append by lia.
  replace (size pre + i <? size pre + size s) with (i <? size s)
    by (destruct (Z.ltb_spec i (size s)); symmetry; [apply Z.ltb_lt|apply Z.ltb_ge]; lia).
  destruct (i <? size s); simpl; [|reflexivity].
  destruct (byteAt s i) as [c| |]; simpl; try reflexivity.
  assert (Hmulti : forall bytes,
    (CHECK (size pre + i + bytes <=? size pre + size s) ≫= fun _ =>
     continuationBytes (String.append pre s) (size pre + i + 1) (Z.to_nat (bytes - 1)))
    = shift (size pre)
        (CHECK (i + bytes <=? size s) ≫= fun _ =>
         continuationBytes s (i + 1) (Z.to_nat (bytes - 1)))).
  { intros bytes.
    replace (size pre + i + bytes <=? size pre + size s) with (i + bytes <=? size s)
      by (destruct (Z.leb_spec (i + bytes) (size s)); symmetry;
          [apply Z.leb_le|apply Z.leb_gt]; lia).
    destruct (i + bytes <=? size s); simpl; [|reflexivity].
    replace (size pre + i + 1) with (size pre + (i + 1)) by lia.
    apply continuationBytes_append. lia. }
  destruct (Z.land c 128 =? 0); simpl; [f_equal; lia|].
  destruct (Z.land c 64 =? 0); simpl; [reflexivity|].
  destruct (Z.land c 32 =? 0); [apply (Hmulti 2)|].
  destruct (Z.land c 16 =? 0); [apply (Hmulti 3)|].
  destruct (Z.land c 8 =? 0); [apply (Hmulti 4)|reflexivity].
Qed.

Lemma byteAt_head c s : byteAt (String c s) 0 = Returns (Z.of_nat (nat_of_ascii c)).
Proof. unfold byteAt. rewrite size_String. pose proof (size_nonneg s).
  replace (0 <? 1 + size s) with true by (symmetry; apply Z.ltb_lt; lia). reflexivity. Qed.

Lemma byteAt_tail c s i : 0 <= i -> byteAt (String c s) (1 + i) = byteAt s i.
Proof.
  intros Hi. change (String c s) with (String.append (String c EmptyString) s).
  change 1 with (size (String c EmptyString)) at 1. apply byteAt_append. exact Hi.
Qed.

Lemma byte_value v : 0 <= v < 256 -> Z.of_nat (nat_of_ascii (byte v)) = v.
Proof. intros Hv. unfold byte. rewrite nat_ascii_embedding by lia. lia. Qed.

Lemma lead1 cp : 0 <= cp < 0x80 -> leadOf 1 cp = true.
Proof. apply (range_forall (leadOf 1) 0 128). vm_compute. reflexivity. Qed.

Lemma lead2 x : 0 <= x < 32 -> leadOf 2 (Z.lor 0xC0 x) = true.
Proof.
  apply (range_forall (fun x => leadOf 2 (Z.lor 0xC0 x)) 0 32). vm_compute. reflexivity.
Qed.

Lemma lead3 x : 0 <= x < 16 -> leadOf 3 (Z.lor 0xE0 x) = true.
Proof.
  apply (range_forall (fun x => leadOf 3 (Z.lor 0xE0 x)) 0 16). vm_compute. reflexivity.
Qed.

Lemma lead4 x : 0 <= x < 8 -> leadOf 4 (Z.lor 0xF0 x) = true.
Proof.
  apply (range_forall (fun x => leadOf 4 (Z.lor 0xF0 x)) 0 8). vm_compute. reflexivity.
Qed.

Lemma continues_low6 y : continues (Z.lor 0x80 (Z.land y 0x3F)) = true.
Proof.
  change 63 with (Z.ones 6). rewrite Z.land_ones by lia.
  pose proof (Z.mod_pos_bound y (2 ^ 6) ltac:(lia)) as Hb.
  apply (range_forall (fun x => continues (Z.lor 0x80 x)) 0 64); [|lia].
  vm_compute. reflexivity.
Qed.

Lemma shiftr_below cp n k : 0 <= cp < 2 ^ (n + k) -> 0 <= n -> 0 <= k -> 0 <= Z.shiftr cp n < 2 ^ k.
Proof.
  intros Hcp Hn Hk. rewrite Z.shiftr_div_pow2 by lia. split.
  - apply Z.div_pos; lia.
  - apply Z.div_lt_upper_bound; [lia|]. rewrite <- Z.pow_add_r by lia. lia.
Qed.

Lemma append_String c a b :
  String.append (String c a) b = String c (String.append a b).
Proof. reflexivity. Qed.

Lemma append_Empty b : String.append EmptyString b = b.
Proof. reflexivity. Qed.

Lemma append_assoc a b c :
  String.append (String.append a b) c = String.append a (String.append b c).
Proof.
  induction a as [|x a IH]; [reflexivity|].
  rewrite !append_String, IH. reflexivity.
Qed.

Lemma size_bytesOf vs : size (bytesOf vs) = Z.of_nat (length vs).
Proof.
  induction vs as [|v vs IH]; [reflexivity|].
  simpl bytesOf. rewrite size_String, IH. simpl length. lia.
Qed.

Lemma continuationBytes_String c s n i :
  0 <= i ->
  continuationBytes (String c s) (1 + i) n = shift 1 (continuationBytes s i n).
Proof.
  intros Hi. change (String c s) with (String.append (String c EmptyString) s).
  change 1 with (size (String c EmptyString)). apply continuationBytes_append. exact Hi.
Qed.

Lemma continuationBytes_bytesOf vs post :
  Forall (fun v => continues v = true) vs ->
  continuationBytes (String.append (bytesOf vs) post) 0 (length vs)
  = Returns (Z.of_nat (length vs)).
Proof.
  induction 1 as [|v vs Hv _ IH]; [reflexivity|].
  simpl bytesOf. rewrite append_String.
  cbn [length continuationBytes]. rewrite byteAt_head.
  unfold continues in Hv. apply andb_true_iff in Hv. destruct Hv as [Hv Hc].
  apply andb_true_iff in Hv. destruct Hv as [H0%Z.leb_le H1%Z.ltb_lt].
  rewrite byte_value by lia.
  change (Returns v ≫= _) with
    (CHECK (Z.land v 192 =? 128) ≫= fun _ =>
     continuationBytes (String (byte v) (String.append (bytesOf vs) post)) (0 + 1) (length vs)).
  change (Z.land v 192 =? 128) with (Z.land v 0xC0 =? 0x80). rewrite Hc.
  change (CHECK true ≫= ?f) with (f tt). cbv beta.
  replace (0 + 1) with (1 + 0) by lia.
  rewrite continuationBytes_String, IH by lia. simpl. f_equal. lia.
Qed.

(** A lead byte for [1 + length vs] bytes followed by the continuation
    bytes [vs] is stepped over as one character. *)
Lemma jumpChar_bytesOf v vs post :
  leadOf (1 + Z.of_nat (length vs)) v = true ->
  (length vs <= 3)%nat ->
  Forall (fun v => continues v = true) vs ->
  jumpChar (String.append (bytesOf (v :: vs)) post) 0
  = Returns (1 + Z.of_nat (length vs)).
Proof.
  intros Hlead Hlen Hvs. simpl bytesOf. rewrite append_String.
  unfold jumpChar. rewrite size_String, size_append, size_bytesOf, byteAt_head.
  pose proof (size_nonneg post) as Hp.
  replace (0 <? 1 + (Z.of_nat (length vs) + size post)) with true
    by (symmetry; apply Z.ltb_lt; lia).
  unfold leadOf in Hlead.
  apply andb_true_iff in Hlead. destruct Hlead as [Hlead Hbits].
  apply andb_true_iff in Hlead. destruct Hlead as [Hlead _].
  apply andb_true_iff in Hlead. destruct Hlead as [H0%Z.leb_le H1%Z.ltb_lt].
  rewrite byte_value by lia.
  change (CHECK true ≫= ?f) with (f tt). cbv beta.
  change (Returns v ≫= ?f) with (f v). cbv beta.
  pose proof (continuationBytes_bytesOf vs post Hvs) as Hcont.
  assert (Hrest : forall bytes, bytes = 1 + Z.of_nat (length vs) ->
    (CHECK (0 + bytes <=? 1 + (Z.of_nat (length vs) + size post)) ≫= fun _ =>
     continuationBytes (String (byte v) (String.append (bytesOf vs) post)) (0 + 1)
       (Z.to_nat (bytes - 1)))
    = Returns (1 + Z.of_nat (length vs))).
  { intros bytes ->.
    replace (0 + (1 + Z.of_nat (length vs)) <=? 1 + (Z.of_nat (length vs) + size post))
      with true by (symmetry; apply Z.leb_le; lia).
    change (CHECK true ≫= ?f) with (f tt). cbv beta.
    replace (Z.to_nat (1 + Z.of_nat (length vs) - 1)) with (length vs) by lia.
    replace (0 + 1) with (1 + 0) by lia.
    rewrite continuationBytes_String, Hcont by lia. reflexivity. }
  destruct vs as [|v2 [|v3 [|v4 [|v5 vs]]]]; simpl length in *; try lia;
    simpl Z.of_nat in *.
  - change (1 + 0) with 1 in Hbits. simpl in Hbits. rewrite Hbits. reflexivity.
  - change (1 + 1) with 2 in Hbits. simpl in Hbits.
    apply andb_true_iff in Hbits. destruct Hbits as [Hbits ->].
    apply andb_true_iff in Hbits. destruct Hbits as [-> ->].
    apply (Hrest 2). reflexivity.
  - change (1 + 2) with 3 in Hbits. simpl in Hbits.
    apply andb_true_iff in Hbits. destruct Hbits as [Hbits ->].
    apply andb_true_iff in Hbits. destruct Hbits as [Hbits Hb].
    apply andb_true_iff in Hbits. destruct Hbits as [-> ->].
    apply negb_true_iff in Hb. rewrite Hb.
    apply (Hrest 3). reflexivity.
  - change (1 + 3) with 4 in Hbits. simpl in Hbits.
    apply andb_true_iff in Hbits. destruct Hbits as [Hbits H8].
    apply andb_true_iff in Hbits. destruct Hbits as [Hbits Hb16].
    apply andb_true_iff in Hbits. destruct Hbits as [Hbits Hb32].
    apply andb_true_iff in Hbits. destruct Hbits as [-> ->].
    apply negb_true_iff in Hb16, Hb32. rewrite Hb16, Hb32, H8.
    apply (Hrest 4). reflexivity.
Qed.

Lemma utf8_shape cp :
  codePoint cp ->
  exists v vs,
    utf8 cp = bytesOf (v :: vs) /\
    leadOf (1 + Z.of_nat (length vs)) v = true /\
    (length vs <= 3)%nat /\
    Forall (fun v => continues v = true) vs.
Proof.
  unfold codePoint, utf8. intros Hcp.
  destruct (Z.ltb_spec cp 128) as [H1|H1].
  { exists cp, []. repeat split; [apply lead1; lia|simpl; lia|constructor]. }
  destruct (Z.ltb_spec cp 2048) as [H2|H2].
  { eexists _, [_]. split; [reflexivity|].
    split; [apply lead2, (shiftr_below cp 6 5); lia|].
    split; [simpl; lia|]. repeat constructor; apply continues_low6. }
  destruct (Z.ltb_spec cp 65536) as [H3|H3].
  { eexists _, [_; _]. split; [reflexivity|].
    split; [apply lead3, (shiftr_below cp 12 4); lia|].
    split; [simpl; lia|]. repeat constructor; apply continues_low6. }
  eexists _, [_; _; _]. split; [reflexivity|].
  split; [apply lead4, (shiftr_below cp 18 3); lia|].
  split; [simpl; lia|]. repeat constructor; apply continues_low6.
Qed.

Lemma jumpChar_utf8 cp post :
  codePoint cp ->
  jumpChar (String.append (utf8 cp) post) 0 = Returns (size (utf8 cp)).
Proof.
  intros Hcp. destruct (utf8_shape cp Hcp) as (v & vs & -> & Hlead & Hlen & Hvs).
  rewrite jumpChar_bytesOf by assumption.
  rewrite size_bytesOf. simpl length. f_equal. lia.
Qed.

Lemma utf8_starts cp post c :
  codePoint cp ->
  byteAt (String.append (utf8 cp) post) 0 = Returns c -> Z.land c 0xC0 <> 0x80.
Proof.
  intros Hcp. destruct (utf8_shape cp Hcp) as (v & vs & -> & Hlead & _).
  simpl bytesOf. rewrite append_String, byteAt_head.
  unfold leadOf in Hlead.
  apply andb_true_iff in Hlead. destruct Hlead as [Hlead _].
  apply andb_true_iff in Hlead. destruct Hlead as [Hlead Hno].
  apply andb_true_iff in Hlead. destruct Hlead as [H0%Z.leb_le H1%Z.ltb_lt].
  rewrite byte_value by lia. intros [= <-].
  apply negb_true_iff, Z.eqb_neq in Hno. exact Hno.
Qed.

Lemma utf8_all_app a b :
  utf8_all (a ++ b) = String.append (utf8_all a) (utf8_all b).
Proof.
  induction a as [|cp a IH]; [reflexivity|].
  simpl. rewrite IH, append_assoc. reflexivity.
Qed.

Lemma jumpChars_utf8 chars : forall pre post,
  Forall codePoint chars ->
  jumpChars (String.append pre (String.append (utf8_all chars) post))
            (size pre) (length chars)
  = Returns (size pre + size (utf8_all chars)).
Proof.
  induction chars as [|cp chars IH]; intros pre post Hcps.
  - simpl. f_equal. unfold size. simpl. lia.
  - inversion Hcps as [|? ? Hcp Hrest]; subst.
    cbn [length jumpChars utf8_all]. rewrite append_assoc.
    replace (size pre) with (size pre + 0) at 1 by lia.
    rewrite jumpChar_append, jumpChar_utf8 by (assumption || lia).
    cbn [shift]. change (Returns ?i ≫= ?f) with (f i). cbv beta.
    rewrite <- (append_assoc pre (utf8 cp)), <- size_append.
    rewrite IH by assumption.
    rewrite !size_append. f_equal. lia.
Qed.

(** X4: on text that is the UTF-8 encoding of code points, started at the
    first byte of a character, jumpUTF8Chars returns the index of the
    first byte after the next [count] characters: it advances by exactly
    the encoded length of each. *)
Theorem jumpUTF8Chars_utf8 (before chars after : list Z) :
  Forall codePoint (chars ++ after) ->
  jumpUTF8Chars (utf8_all (before ++ chars ++ after))
                (size (utf8_all before)) (Z.of_nat (length chars))
  = Returns (size (utf8_all (before ++ chars))).
Proof.
  intros Hcps. apply Forall_app in Hcps. destruct Hcps as [Hchars Hafter].
  rewrite !utf8_all_app. unfold jumpUTF8Chars. rewrite !size_append.
  pose proof (size_nonneg (utf8_all before)) as Hb.
  pose proof (size_nonneg (utf8_all chars)) as Hc.
  pose proof (size_nonneg (utf8_all after)) as Ha.
  replace ((0 <=? size (utf8_all before))
           && (size (utf8_all before)
               <=? size (utf8_all before) + (size (utf8_all chars) + size (utf8_all after))))
    with true
    by (symmetry; apply andb_true_iff; split; apply Z.leb_le; lia).
  replace (0 <=? Z.of_nat (length chars)) with true by (symmetry; apply Z.leb_le; lia).
  change (CHECK true ≫= ?f) with (f tt). cbv beta.
  rewrite Nat2Z.id, jumpChars_utf8 by assumption.
  change (Returns ?i ≫= ?f) with (f i). cbv beta.
  replace (size (utf8_all before) + size (utf8_all chars)
           <=? size (utf8_all before) + (size (utf8_all chars) + size (utf8_all after)))
    with true by (symmetry; apply Z.leb_le; lia).
  change (CHECK true ≫= ?f) with (f tt). cbv beta.
  destruct after as [|cp after].
  - replace (size (utf8_all before) + size (utf8_all chars)
             =? size (utf8_all before) + (size (utf8_all chars) + size (utf8_all [])))
      with true by (symmetry; apply Z.eqb_eq; unfold size; simpl; lia).
    reflexivity.
  - inversion Hafter as [|? ? Hcp _]; subst.
    destruct (utf8_shape cp Hcp) as (v & vs & Hshape & _).
    assert (0 < size (utf8_all (cp :: after))) as Hpos.
    { cbn [utf8_all]. rewrite size_append, Hshape. simpl bytesOf.
      rewrite size_String. pose proof (size_nonneg (bytesOf vs)).
      pose proof (size_nonneg (utf8_all after)). lia. }
    replace (size (utf8_all before) + size (utf8_all chars)
             =? size (utf8_all before)
                + (size (utf8_all chars) + size (utf8_all (cp :: after))))
      with false by (symmetry; apply Z.eqb_neq; lia).
    cbn [negb].
    rewrite <- append_assoc, <- size_append.
    pose proof (byteAt_append (String.append (utf8_all before) (utf8_all chars))
                  (utf8_all (cp :: after)) 0 ltac:(lia)) as Hat.
    rewrite Z.add_0_r in Hat. rewrite Hat. clear Hat.
    change (CHECK true ≫= ?f) with (f tt). cbv beta.
    cbn [utf8_all].
    destruct (byteAt (String.append (utf8 cp) (utf8_all after)) 0) as [c| |] eqn:Hbyte.
    + pose proof (utf8_starts cp _ c Hcp Hbyte) as Hno.
      apply Z.eqb_neq in Hno.
      change (Returns c ≫= ?f) with (f c). cbv beta.
      change (Z.land c 192 =? 128) with (Z.land c 0xC0 =? 0x80). rewrite Hno.
      reflexivity.
    + exfalso. rewrite Hshape in Hbyte. simpl bytesOf in Hbyte.
      rewrite append_String, byteAt_head in Hbyte. discriminate.
    + exfalso. rewrite Hshape in Hbyte. simpl bytesOf in Hbyte.
      rewrite append_String, byteAt_head in Hbyte. discriminate.
Qed.

(** ** The scrolling window *)

Lemma clampOffset__clamped o : offsetClamped (clampOffset_ o).
Proof. unfold offsetClamped, clampOffset_, textWidth. simpl. lia. Qed.

Lemma clampOffset__fixed o : offsetClamped o -> clampOffset_ o = o.
Proof.
  unfold offsetClamped, clampOffset_, set_offset_, textWidth. destruct o as [l w off]. simpl.
  intros [H0 H1]. f_equal. lia.
Qed.

(** X5: the constructor and every mutator of OverflowTextLayout (setText,
    setWidth, setOffset, makeVisible) leave the scroll offset clamped: it
    is never negative, and when it is not zero the window ends at most one
    pixel after the text. *)
Theorem offset_always_clamped (l : TextLayout) (o : OverflowTextLayout)
    (newText : string) (answers : Pango) (agrees : bool) (width offset idx : Z) :
  offsetClamped (OverflowTextLayout_new l) /\
  leaves offsetClamped (setText newText answers agrees o) /\
  leaves offsetClamped (setWidth width o) /\
  offsetClamped (setOffset offset o) /\
  leaves offsetClamped (makeVisible idx o).
Proof.
  split; [unfold offsetClamped; simpl; lia|].
  split; [unfold setText, TextLayout_setText; destruct agrees; simpl;
          [apply clampOffset__clamped|exact I]|].
  split; [unfold setWidth; destruct (0 <=? width); simpl;
          [apply clampOffset__clamped|exact I]|].
  split; [apply clampOffset__clamped|].
  unfold makeVisible, TextLayout_indexToXCoord.
  destruct ((0 <=? idx) && (idx <=? size (text (textLayout_ o)))); simpl;
    [apply clampOffset__clamped|exact I].
Qed.

(** X6: makeVisible brings the cursor of an index into the window: when
    the window is at least one pixel wide and Pango places the cursor
    within the width of the text, the x coordinate that indexToXCoord
    reports afterwards lies in [0, width). *)
Theorem makeVisible_shows_index (idx x : Z) (o : OverflowTextLayout) :
  1 <= width_ o ->
  TextLayout_indexToXCoord idx (textLayout_ o) = Returns x ->
  0 <= x <= textWidth o ->
  exists o' x',
    makeVisible idx o = Returns o' /\
    width_ o' = width_ o /\
    indexToXCoord idx o' = Returns x' /\
    0 <= x' < width_ o'.
Proof.
  intros Hw Hx Hin. unfold makeVisible, indexToXCoord. rewrite Hx. simpl.
  eexists _, _. split; [reflexivity|]. split; [reflexivity|].
  unfold setOffset, clampOffset_, set_offset_. simpl. rewrite Hx. simpl.
  split; [reflexivity|]. unfold textWidth in *. simpl. lia.
Qed.

(** X7: makeVisible does not scroll when it need not: on a layout whose
    offset is clamped, an index whose cursor is already inside the window
    leaves the layout as it is. *)
Theorem makeVisible_keeps_visible (idx x : Z) (o : OverflowTextLayout) :
  offsetClamped o ->
  TextLayout_indexToXCoord idx (textLayout_ o) = Returns x ->
  0 <= x - offset_ o < width_ o ->
  makeVisible idx o = Returns o.
Proof.
  intros Hcl Hx Hvis. unfold makeVisible. rewrite Hx. simpl. f_equal.
  replace (Z.max (Z.min (offset_ o) x) (x + 1 - width_ o)) with (offset_ o) by lia.
  unfold setOffset.
  replace (set_offset_ (offset_ o) o) with o by (destruct o; reflexivity).
  apply clampOffset__fixed. exact Hcl.
Qed.

(** ** The rendering buffer *)

(** X8: the Graymap that ensureGraymapRendered makes has the extents of
    the layout, at least 1 x 1, a buffer of width * height bytes, and nine
    times that size still fits an int; the constructor stops in a CHECK
    exactly when the width is not below (INT_MAX / 9) / height. *)
Theorem ensureGraymapRendered_fits (l : TextLayout) :
  match ensureGraymapRendered l with
  | Returns g =>
      width g = TextLayout_width l /\ height g = TextLayout_height l /\
      1 <= width g /\ 1 <= height g /\
      Z.of_nat (length (buffer g)) = width g * height g /\
      9 * (width g * height g) < INT_MAX /\
      width g < INT_MAX / 9 / height g
  | CheckFails => INT_MAX / 9 / TextLayout_height l <= TextLayout_width l
  | ReadsOutOfBounds => False
  end.
Proof.
  unfold ensureGraymapRendered, Graymap_new, TextLayout_width, TextLayout_height, getExtents.
  simpl fst. simpl snd.
  set (w := Z.max (pixelExtentsWidth (pango l)) 1).
  set (h := Z.max (pixelExtentsHeight (pango l)) 1).
  assert (Hw : 1 <= w) by (subst w; lia).
  assert (Hh : 1 <= h) by (subst h; lia).
  replace (1 <=? w) with true by (symmetry; apply Z.leb_le; lia).
  replace (1 <=? h) with true by (symmetry; apply Z.leb_le; lia).
  simpl.
  change (Z.quot INT_MAX 9) with 238609294.
  change (INT_MAX / 9) with 238609294. change INT_MAX with 2147483647.
  rewrite Z.quot_div_nonneg by lia.
  destruct (Z.ltb_spec w (238609294 / h)) as [Hlt|Hge]; simpl; [|exact Hge].
  assert (Hwh : w * h < 238609294).
  { pose proof (Z.mul_div_le 238609294 h ltac:(lia)). nia. }
  repeat split; try lia; try exact Hlt.
  rewrite repeat_length. nia.
Qed.

(** ** Indices handed back to the caller *)

(** X9: an index that xCoordToIndex or visualMoveIdx returns is a position
    in the text: between 0 and its size in bytes. *)
Theorem returned_index_within_text (o : OverflowTextLayout) :
  (forall x r, xCoordToIndex x o = Returns r ->
               0 <= r <= size (text (textLayout_ o))) /\
  (forall idx forward r, visualMoveIdx idx forward o = Returns r ->
               0 <= r <= size (text (textLayout_ o))).
Proof.
  split.
  - intros x r. unfold xCoordToIndex, TextLayout_xCoordToIndex.
    destruct (lineXToIndex _ _) as [idx trailing].
    destruct (jumpUTF8Chars _ idx trailing) as [i| |]; simpl; try discriminate.
    destruct ((0 <=? i) && (i <=? size (text (textLayout_ o)))) eqn:Hi; simpl;
      [|discriminate].
    intros [= <-]. apply andb_true_iff in Hi. destruct Hi as [H0%Z.leb_le H1%Z.leb_le]. lia.
  - intros idx forward r. unfold visualMoveIdx, TextLayout_visualMoveIdx.
    destruct ((0 <=? idx) && (idx <=? size (text (textLayout_ o)))); simpl;
      [|discriminate].
    destruct (moveCursorVisually _ _ _) as [idx' trailing].
    pose proof (size_nonneg (text (textLayout_ o))) as Hs.
    destruct (idx' =? -1); [intros [= <-]; lia|].
    destruct (idx' =? G_MAXINT); [intros [= <-]; lia|].
    destruct ((0 <=? idx') && (idx' <=? size (text (textLayout_ o)))); simpl;
      [|discriminate].
    intros H. pose proof (jumpUTF8Chars_lands (text (textLayout_ o)) idx' trailing) as Hl.
    rewrite H in Hl. simpl in Hl. lia.
Qed.

(** ** The properties of the text functions on concrete texts *)

Lemma jumpUTF8Chars_result_example :
  jumpUTF8Chars exampleText 1 2 = Returns 4 /\
  (0 <= 1 /\ 0 <= 2 /\ 1 + 2 <= 4 <= 1 + 4 * 2 /\ 4 <= size exampleText /\
   startsCharacter exampleText 4).
Proof.
  split; [reflexivity|].
  apply (jumpUTF8Chars_result exampleText 1 2 4). reflexivity.
Defined.

Lemma jumpUTF8Chars_add_example :
  jumpUTF8Chars exampleText 1 (1 + 2)
  = jumpUTF8Chars exampleText 1 1 ≫= fun i => jumpUTF8Chars exampleText i 2.
Proof. apply (jumpUTF8Chars_add exampleText 1 1 2); lia. Defined.

Lemma jumpUTF8Chars_utf8_example :
  jumpUTF8Chars (utf8_all ([104] ++ [233; 8364] ++ [128512]))
                (size (utf8_all [104])) (Z.of_nat (length [233; 8364]))
  = Returns (size (utf8_all ([104] ++ [233; 8364]))).
Proof.
  apply (jumpUTF8Chars_utf8 [104] [233; 8364] [128512]).
  repeat (apply List.Forall_cons; [unfold codePoint; lia|]). apply List.Forall_nil.
Defined.

Lemma makeVisible_shows_index_example :
  exists o' x',
    makeVisible 8 (exampleWindow 0) = Returns o' /\
    width_ o' = width_ (exampleWindow 0) /\
    indexToXCoord 8 o' = Returns x' /\
    0 <= x' < width_ o'.
Proof.
  apply (makeVisible_shows_index 8 80 (exampleWindow 0)).
  - simpl. lia.
  - reflexivity.
  - vm_compute. split; discriminate.
Defined.

Lemma makeVisible_keeps_visible_example :
  makeVisible 8 (exampleWindow 31) = Returns (exampleWindow 31).
Proof.
  apply (makeVisible_keeps_visible 8 80 (exampleWindow 31)).
  - vm_compute. split; [discriminate|]. right. discriminate.
  - reflexivity.
  - simpl. lia.
Defined.

(** An x whose product with PANGO_SCALE does not fit an int reaches Pango
    as a negative number, left of the line. *)
Example xCoordToIndex_wraps :
  xCoordToIndex 35 (exampleWindow 0) = Returns 3 /\
  wrapInt (2097152 * PANGO_SCALE) = - 2 ^ 31 /\
  xCoordToIndex 2097152 (exampleWindow 0) = Returns 0.
Proof. repeat split; vm_compute; reflexivity. Qed.

End TextProperties.

(** * Properties of the command line options *)

Section ConfigProperties.
(** * Properties of the command line options *)

Import Config.

Lemma cappend_String c a b :
  String.append (String c a) b = String c (String.append a b).
Proof. reflexivity. Qed.

Lemma cappend_assoc a b c :
  String.append (String.append a b) c = String.append a (String.append b c).
Proof.
  induction a as [|x a IH]; [reflexivity|].
  rewrite !cappend_String, IH. reflexivity.
Qed.

Lemma cappend_Empty_r a : String.append a EmptyString = a.
Proof. induction a as [|x a IH]; [reflexivity|]. rewrite cappend_String, IH. reflexivity. Qed.

Lemma csize_append a b : size (String.append a b) = size a + size b.
Proof.
  unfold size. induction a as [|c a IH].
  - change (String.append EmptyString b) with b. simpl. lia.
  - rewrite cappend_String. simpl String.length. lia.
Qed.

Lemma csize_nonneg s : 0 <= size s.
Proof. unfold size. lia. Qed.

(** ** The layout of a help line *)

Lemma visible_append a b :
  visible (String.append a b) = String.append (visible a) (visible b).
Proof.
  induction a as [|c a IH]; [reflexivity|].
  rewrite cappend_String. simpl. destruct (isspace c); rewrite IH; reflexivity.
Qed.

Lemma visible_spaces n : visible (spaces n) = EmptyString.
Proof. induction n as [|n IH]; [reflexivity|]. simpl. exact IH. Qed.

Lemma visible_dropSpaces a : visible (dropSpaces a) = visible a.
Proof.
  induction a as [|c a IH]; [reflexivity|].
  simpl. destruct (isspace c) eqn:Hc; [exact IH|]. simpl. rewrite Hc. reflexivity.
Qed.

Lemma visible_writeAtom l atom :
  visible (ss (writeAtom l atom)) = String.append (visible (ss l)) (visible atom).
Proof.
  unfold writeAtom.
  destruct ((MaxWidth <? linePos l + size atom) && (DescStartIndented <? linePos l)); simpl.
  - rewrite !visible_append, visible_dropSpaces. reflexivity.
  - apply visible_append.
Qed.

Lemma visible_fold atoms_ : forall l,
  visible (ss (fold_left writeAtom atoms_ l))
  = String.append (visible (ss l)) (visible (String.concat EmptyString atoms_)).
Proof.
  induction atoms_ as [|atom atoms_ IH]; intros l.
  - simpl. symmetry. apply cappend_Empty_r.
  - simpl fold_left. rewrite IH, visible_writeAtom, cappend_assoc. f_equal.
    destruct atoms_ as [|atom2 atoms_].
    + simpl. rewrite cappend_Empty_r. reflexivity.
    + change (String.concat EmptyString (atom :: atom2 :: atoms_))
        with (String.append atom (String.append EmptyString
                (String.concat EmptyString (atom2 :: atoms_)))).
      change (String.append EmptyString ?x) with x.
      rewrite visible_append. reflexivity.
Qed.

Lemma concat_cons atom atoms_ :
  String.concat EmptyString (atom :: atoms_)
  = String.append atom (String.concat EmptyString atoms_).
Proof.
  destruct atoms_ as [|atom2 atoms_]; simpl.
  - symmetry. apply cappend_Empty_r.
  - reflexivity.
Qed.

(** The atoms are the description cut into pieces. *)
Lemma atomsFrom_concat rest : forall atom,
  String.concat EmptyString (atomsFrom atom rest) = String.append atom rest.
Proof.
  induction rest as [|c rest IH]; intros atom.
  - simpl. rewrite cappend_Empty_r. reflexivity.
  - cbn [atomsFrom]. destruct (isspace c).
    + rewrite concat_cons, IH. reflexivity.
    + rewrite IH, cappend_assoc. reflexivity.
Qed.

Lemma atoms_concat desc : String.concat EmptyString (atoms desc) = desc.
Proof. destruct desc as [|c rest]; [reflexivity|]. apply atomsFrom_concat. Qed.

(** X10: laying out a help line changes whitespace only: without its
    whitespace the line reads "--name=valSpec", the description and
    "[default:...]" exactly as before the layout, with no character lost,
    repeated or moved. *)
Theorem helpLine_keeps_text (name valSpec desc formatted : string) :
  visible (helpLine name valSpec desc formatted)
  = visible (unwrapped name valSpec desc formatted).
Proof.
  unfold helpLine, unwrapped, defaultValStr.
  rewrite visible_writeAtom, visible_fold, atoms_concat. cbn [ss].
  rewrite !visible_append, visible_spaces, !cappend_assoc.
  reflexivity.
Qed.

Lemma endColumn_append a : forall col b,
  endColumn col (String.append a b) = endColumn (endColumn col a) b.
Proof.
  induction a as [|c a IH]; intros col b; [reflexivity|].
  rewrite cappend_String. simpl. destruct (Ascii.eqb c "010"); apply IH.
Qed.

Lemma endedLinesFit_append limit a : forall col b,
  endedLinesFit limit col (String.append a b)
  <-> endedLinesFit limit col a /\ endedLinesFit limit (endColumn col a) b.
Proof.
  induction a as [|c a IH]; intros col b.
  - simpl. change (String.append EmptyString b) with b. tauto.
  - rewrite cappend_String. simpl. destruct (Ascii.eqb c "010").
    + rewrite IH. tauto.
    + apply IH.
Qed.

Lemma endColumn_bound s : forall col, 0 <= col -> 0 <= endColumn col s <= col + size s.
Proof.
  induction s as [|c s IH]; intros col Hcol.
  - simpl. unfold size. simpl. lia.
  - simpl. unfold size in *. simpl String.length.
    destruct (Ascii.eqb c "010").
    + specialize (IH 0 ltac:(lia)). lia.
    + specialize (IH (col + 1) ltac:(lia)). lia.
Qed.

Lemma endedLinesFit_short limit s : forall col,
  0 <= col -> col + size s <= limit -> endedLinesFit limit col s.
Proof.
  induction s as [|c s IH]; intros col Hcol Hfit; simpl; [exact I|].
  unfold size in *. simpl String.length in Hfit.
  destruct (Ascii.eqb c "010").
  - split; [lia|]. apply IH; lia.
  - apply IH; lia.
Qed.

Lemma size_dropSpaces a : size (dropSpaces a) <= size a.
Proof.
  induction a as [|c a IH]; [reflexivity|].
  simpl. destruct (isspace c); [|reflexivity].
  unfold size in *. simpl String.length. lia.
Qed.

Lemma size_spaces n : size (spaces n) = Z.of_nat n.
Proof. unfold size. induction n as [|n IH]; simpl; lia. Qed.

Lemma writeAtom_fits l atom :
  lineFits l -> size atom <= MaxWidth - DescStartIndented -> lineFits (writeAtom l atom).
Proof.
  unfold lineFits, writeAtom, MaxWidth, DescStartIndented. intros [Hended Hcol] Hatom.
  pose proof (csize_nonneg atom) as Hn.
  pose proof (endColumn_bound (ss l) 0 ltac:(lia)) as Hend.
  destruct (Z.ltb_spec 90 (linePos l + size atom)) as [Hover|Hok];
    [destruct (Z.ltb_spec 35 (linePos l)) as [Hpast|Hnot]|]; cbn [andb ss linePos].
  - pose proof (size_dropSpaces atom) as Hd.
    pose proof (csize_nonneg (dropSpaces atom)) as Hdn.
    rewrite cappend_String, endColumn_append, endedLinesFit_append.
    remember (String.append (spaces (Z.to_nat 35)) (dropSpaces atom)) as tail eqn:Etail.
    assert (Htail : size tail = 35 + size (dropSpaces atom))
      by (subst tail; rewrite csize_append, size_spaces; lia).
    cbn [endColumn endedLinesFit]. change (Ascii.eqb "010" "010") with true. cbv iota.
    pose proof (endColumn_bound tail 0 ltac:(lia)) as Ht.
    split; [split; [exact Hended|split; [lia|apply endedLinesFit_short; lia]]|lia].
  - rewrite endColumn_append, endedLinesFit_append.
    pose proof (endColumn_bound atom (endColumn 0 (ss l)) ltac:(lia)) as Ha.
    split; [split; [exact Hended|apply endedLinesFit_short; lia]|lia].
  - rewrite endColumn_append, endedLinesFit_append.
    pose proof (endColumn_bound atom (endColumn 0 (ss l)) ltac:(lia)) as Ha.
    split; [split; [exact Hended|apply endedLinesFit_short; lia]|lia].
Qed.

Lemma fold_writeAtom_fits atoms_ : forall l,
  lineFits l -> Forall (fun atom => size atom <= MaxWidth - DescStartIndented) atoms_ ->
  lineFits (fold_left writeAtom atoms_ l).
Proof.
  induction atoms_ as [|atom atoms_ IH]; intros l Hl Hall; [exact Hl|].
  inversion Hall; subst. simpl. apply IH; [apply writeAtom_fits|]; assumption.
Qed.

(** A text whose ended lines fit and whose last line fits has lines that
    all fit. *)
Lemma lines_fit limit s : forall col,
  0 <= col -> endedLinesFit limit col s -> endColumn col s <= limit ->
  match lines s with
  | first :: more =>
      col + size first <= limit /\ Forall (fun line => size line <= limit) more
  | [] => False
  end.
Proof.
  induction s as [|c s IH]; intros col Hcol Hended Hend; simpl in *.
  - unfold size. simpl. split; [lia|constructor].
  - destruct (Ascii.eqb c "010").
    + destruct Hended as [Hc Hended]. specialize (IH 0 ltac:(lia) Hended Hend).
      destruct (lines s) as [|first more]; [contradiction|].
      destruct IH as [Hfirst Hmore]. split; [unfold size; simpl; lia|].
      constructor; [lia|exact Hmore].
    + specialize (IH (col + 1) ltac:(lia) Hended Hend).
      destruct (lines s) as [|first more]; [contradiction|].
      destruct IH as [Hfirst Hmore]. split; [|exact Hmore].
      unfold size in *. simpl String.length. lia.
Qed.

(** X11: a help line is laid out within 90 columns: when the option's name
    and value spec leave room ("  --name=valSpec " is at most 90 wide) and
    no atom of the description or of the default (a whitespace character
    with the word after it) is wider than the 55 columns right of the
    indent, every line of the result is at most 90 characters wide. *)
Theorem helpLine_within_width (name valSpec desc formatted : string) :
  size name + size valSpec + 6 <= MaxWidth ->
  Forall (fun atom => size atom <= MaxWidth - DescStartIndented) (atoms desc) ->
  size formatted + 12 <= MaxWidth - DescStartIndented ->
  Forall (fun line => size line <= MaxWidth) (lines (helpLine name valSpec desc formatted)).
Proof.
  intros Hhead Hatoms Hdefault. unfold helpLine.
  set (head0 := String.append "  --"
                  (String.append name (String.append "=" (String.append valSpec " ")))).
  set (head := String.append head0 (spaces (Z.to_nat (DescStart - size head0)))).
  assert (Hsize0 : size head0 = size name + size valSpec + 6).
  { unfold head0. rewrite !csize_append. unfold size. simpl. lia. }
  assert (Hsize : size head <= MaxWidth).
  { unfold head. rewrite csize_append, size_spaces. unfold DescStart, MaxWidth in *. lia. }
  pose proof (csize_nonneg head) as Hn.
  assert (Hstart : lineFits {| ss := head; linePos := size head |}).
  { unfold lineFits. cbn [ss linePos].
    pose proof (endColumn_bound head 0 ltac:(lia)).
    split; [apply endedLinesFit_short; lia|lia]. }
  pose proof (fold_writeAtom_fits _ _ Hstart Hatoms) as Hfold.
  pose proof (writeAtom_fits _
    (String.append " [" (String.append (defaultValStr formatted) "]")) Hfold) as Hlast.
  destruct Hlast as [Hended Hcol].
  { unfold defaultValStr. rewrite !csize_append. unfold size in *. simpl. lia. }
  pose proof (lines_fit MaxWidth _ 0 ltac:(lia) Hended ltac:(lia)) as Hlines.
  destruct (lines _) as [|first more]; [contradiction|].
  destruct Hlines as [Hfirst Hmore]. constructor; [lia|exact Hmore].
Qed.

(** ** Reading the command line *)

(** X12: what DefaultValFormatter<bool> prints reads back through
    OptParser<bool> as the same value, in any mix of upper and lower case
    (YES, No, ...). *)
Theorem bool_option_round_trip (val : bool) (str : string) :
  lowered str = DefaultValFormatter_bool_format val ->
  OptParser_bool_parse str = Some val.
Proof.
  intros H. unfold OptParser_bool_parse. rewrite H. destruct val; reflexivity.
Qed.

Section ReadProperties.

Context {Value : Type}.
Variable options : list (OptInfo Value).

#[local] Abbreviation handlers := (optHandlers Value options).

Lemma optHandlers_name optName o : handlers !! optName = Some o -> name Value o = optName.
Proof.
  unfold optHandlers.
  assert (Hgen : forall opts (m : gmap string (OptInfo Value)),
            (forall n o, m !! n = Some o -> name Value o = n) ->
            forall n o,
              fold_left (fun handlers o => <[name Value o := o]> handlers) opts m !! n
              = Some o ->
              name Value o = n).
  { induction opts as [|o' opts IH]; intros m Hm n o'' H; simpl in H; [eauto|].
    eapply IH; [|exact H]. intros n' o3 Hl.
    destruct (decide (name Value o' = n')) as [<-|Hne].
    - rewrite lookup_insert_eq in Hl. congruence.
    - rewrite lookup_insert_ne in Hl by exact Hne. eauto. }
  apply Hgen. intros n o'. rewrite lookup_empty. discriminate.
Qed.

Lemma splitAtEq_argument optName optVal :
  noEq optName = true ->
  splitAtEq (String.append optName (String.append "=" optVal)) = Some (optName, optVal).
Proof.
  unfold noEq. induction optName as [|c optName IH]; intros Hno; [reflexivity|].
  simpl in Hno. apply andb_true_iff in Hno. destruct Hno as [Hc Hno].
  rewrite cappend_String. simpl. apply negb_true_iff in Hc. rewrite Hc, IH by exact Hno.
  reflexivity.
Qed.

Lemma splitAtEq_inv s : forall optName optVal,
  splitAtEq s = Some (optName, optVal) ->
  s = String.append optName (String.append "=" optVal) /\ noEq optName = true.
Proof.
  induction s as [|c s IH]; intros optName optVal; simpl; [discriminate|].
  destruct (Ascii.eqb_spec c "=") as [->|Hne].
  - intros [= <- <-]. split; reflexivity.
  - destruct (splitAtEq s) as [[n v]|]; [|discriminate].
    intros [= <- <-]. destruct (IH n v eq_refl) as [-> Hno].
    split; [reflexivity|]. unfold noEq in *. simpl. rewrite Hno.
    destruct (Ascii.eqb_spec c "="); [contradiction|reflexivity].
Qed.

Lemma substring_all s : substring 0 (String.length s) s = s.
Proof. induction s as [|c s IH]; [reflexivity|]. simpl. rewrite IH. reflexivity. Qed.

Lemma dashes_inv arg :
  String.eqb (substring 0 2 arg) "--" = true ->
  arg = String.append "--" (substring 2 (String.length arg - 2) arg).
Proof.
  destruct arg as [|c1 [|c2 rest]]; simpl; try discriminate.
  - destruct (Ascii.eqb c1 "-"); discriminate.
  - destruct (Ascii.eqb_spec c1 "-") as [->|]; [|discriminate].
    destruct (Ascii.eqb_spec c2 "-") as [->|]; [|discriminate].
    intros _. rewrite Nat.sub_0_r, substring_all. reflexivity.
Qed.

Lemma argOf_dashes setting : substring 0 2 (argOf Value setting) = "--".
Proof.
  unfold argOf.
  generalize (String.append (name Value (fst setting)) (String.append "=" (snd setting))).
  intros s. change (String.append "--" s) with (String "-" (String "-" s)).
  destruct s; reflexivity.
Qed.

Lemma argOf_rest setting :
  substring 2 (String.length (argOf Value setting) - 2) (argOf Value setting)
  = String.append (name Value (fst setting)) (String.append "=" (snd setting)).
Proof.
  unfold argOf.
  generalize (String.append (name Value (fst setting)) (String.append "=" (snd setting))).
  intros s. change (String.append "--" s) with (String "-" (String "-" s)).
  simpl. rewrite Nat.sub_0_r. apply substring_all.
Qed.

Lemma argOf_not_word setting word :
  splitAtEq word = None -> String.eqb (argOf Value setting) (String.append "--" word) = false.
Proof.
  intros Hword. apply String.eqb_neq. unfold argOf. intros H.
  injection H as H.
  change (String.append EmptyString ?x) with x in H.
  destruct (noEq (name Value (fst setting))) eqn:Hno.
  - rewrite <- H, splitAtEq_argument in Hword by exact Hno. discriminate.
  - clear Hno. revert word Hword H.
    generalize (snd setting). generalize (name Value (fst setting)).
    induction s as [|c s IH]; intros v word Hword H.
    + rewrite <- H in Hword. discriminate.
    + rewrite cappend_String in H. subst word. simpl in Hword.
      destruct (Ascii.eqb c "="); [discriminate|].
      destruct (splitAtEq (String.append s (String.append "=" v))) as [[? ?]|] eqn:E;
        [discriminate|].
      eapply IH; [exact E|reflexivity].
Qed.

Lemma handle_valueOf o valStr (src : Src Value) :
  handle Value o valStr src
  = match valueOf Value o valStr with
    | Some val => Some (<[var Value o := val]> src)
    | None => None
    end.
Proof.
  unfold handle, valueOf. destruct (parse Value o valStr) as [v|]; [|reflexivity].
  destruct (validate Value o v); reflexivity.
Qed.

Lemma applied_cons setting settings (src : Src Value) :
  applied Value (setting :: settings) src
  = applied Value settings
      match valueOf Value (fst setting) (snd setting) with
      | Some val => <[var Value (fst setting) := val]> src
      | None => src
      end.
Proof. reflexivity. Qed.

Lemma readArgs_accepts argv0 settings : forall src optsSeen,
  Forall (accepted Value options) settings ->
  NoDup (names settings) ->
  (forall n, n ∈ names settings -> n ∉ optsSeen) ->
  readArgs Value options argv0 (map (argOf Value) settings) src optsSeen
  = Created Value (applied Value settings src).
Proof.
  induction settings as [|setting settings IH]; intros src optsSeen Hacc Hnodup Hfresh.
  - reflexivity.
  - inversion Hacc as [|? ? (Hhandler & Hno & [val Hval]) Hacc']; subst.
    inversion Hnodup as [|? ? Hnotin Hnodup']; subst.
    cbn [map readArgs].
    pose proof (argOf_not_word setting "help" eq_refl) as Hhelp.
    pose proof (argOf_not_word setting "version" eq_refl) as Hversion.
    change (String.append "--" "help") with "--help" in Hhelp.
    change (String.append "--" "version") with "--version" in Hversion.
    rewrite Hhelp, Hversion.
    rewrite argOf_dashes, argOf_rest. cbn [String.eqb Ascii.eqb Bool.eqb].
    change (String.eqb "--" "--") with true. cbv iota.
    rewrite splitAtEq_argument by exact Hno. rewrite Hhandler.
    rewrite bool_decide_eq_false_2 by (apply Hfresh, list_elem_of_here).
    rewrite handle_valueOf, applied_cons, Hval.
    apply IH; [exact Hacc'|exact Hnodup'|].
    intros n Hn. apply not_elem_of_union. split.
    + apply not_elem_of_singleton. intros ->. apply Hnotin. exact Hn.
    + apply Hfresh, list_elem_of_further. exact Hn.
Qed.

Lemma readArgs_created argv0 args : forall src optsSeen src',
  readArgs Value options argv0 args src optsSeen = Created Value src' ->
  exists settings,
    args = map (argOf Value) settings /\
    Forall (accepted Value options) settings /\
    NoDup (names settings) /\
    (forall n, n ∈ names settings -> n ∉ optsSeen) /\
    src' = applied Value settings src.
Proof.
  induction args as [|arg args IH]; intros src optsSeen src' H.
  - injection H as <-. exists []. repeat split; [constructor|constructor|].
    intros n Hn. inversion Hn.
  - cbn [readArgs] in H.
    destruct (String.eqb arg "--help"); [discriminate|].
    destruct (String.eqb arg "--version"); [discriminate|].
    unfold reject in H.
    destruct (String.eqb (substring 0 2 arg) "--") eqn:Hdash.
    2:{ simpl in H. discriminate. }
    destruct (splitAtEq (substring 2 (String.length arg - 2) arg))
      as [[optName optVal]|] eqn:Hsplit.
    2:{ simpl in H. destruct (bool_decide _); discriminate. }
    destruct (handlers !! optName) as [o|] eqn:Hhandler.
    2:{ simpl in H. destruct (bool_decide _); discriminate. }
    destruct (bool_decide (optName ∈ optsSeen)) eqn:Hseen; [discriminate|].
    apply bool_decide_eq_false in Hseen.
    rewrite handle_valueOf in H.
    destruct (valueOf Value o optVal) as [v|] eqn:Hvalue; [|discriminate].
    apply IH in H. destruct H as (settings & -> & Hacc & Hnodup & Hfresh & ->).
    apply splitAtEq_inv in Hsplit. destruct Hsplit as [Hrest Hno].
    pose proof (optHandlers_name _ _ Hhandler) as Hname.
    exists ((o, optVal) :: settings).
    assert (Hfresh' : forall n, n ∈ names settings -> n <> optName /\ n ∉ optsSeen).
    { intros n Hn. specialize (Hfresh n Hn). apply not_elem_of_union in Hfresh.
      destruct Hfresh as [Hne Hns]. apply not_elem_of_singleton in Hne. auto. }
    split; [|split; [|split; [|split]]].
    + cbn [map]. f_equal. unfold argOf. cbn [fst snd]. rewrite Hname, <- Hrest.
      apply dashes_inv. exact Hdash.
    + constructor; [|exact Hacc]. unfold accepted. cbn [fst snd].
      rewrite Hname, Hvalue. eauto.
    + cbn [names map fst]. constructor; [|exact Hnodup].
      rewrite Hname. intros Hin. destruct (Hfresh' _ Hin) as [Hne _]. congruence.
    + cbn [names map fst]. intros n [->|Hn]%elem_of_cons.
      * rewrite Hname. exact Hseen.
      * apply (Hfresh' n Hn).
    + rewrite applied_cons. cbn [fst snd]. rewrite Hvalue. reflexivity.
Qed.

(** X13: Config::read makes a Config exactly when every argument after
    argv[0] is a setting --name=value whose name (the text up to the first
    '=') is the name of an option, whose value parses and validates for
    that option, and no name comes twice; the members are then the
    defaults with the settings applied.  Anything else on the command line
    (--help, --version, an unknown or repeated name, a missing or invalid
    value) ends in an empty pointer. *)
Theorem read_creates_config_iff (argv0 : string) (args : list string) (src : Src Value) :
  read Value options (argv0 :: args) = Created Value src
  <-> exists settings,
        args = map (argOf Value) settings /\
        Forall (accepted Value options) settings /\
        NoDup (names settings) /\
        src = applied Value settings (Src_new Value options).
Proof.
  unfold read. split.
  - intros H. apply readArgs_created in H.
    destruct H as (settings & ? & ? & ? & _ & ?). eauto.
  - intros (settings & -> & Hacc & Hnodup & ->).
    apply readArgs_accepts; [exact Hacc|exact Hnodup|].
    intros n _. apply not_elem_of_empty.
Qed.

(** *** Members and the order of the arguments *)

(** Every member of Config belongs to one option. *)
Hypothesis one_option_per_member : NoDup (map (var Value) options).

Lemma optHandlers_option optName o : handlers !! optName = Some o -> o ∈ options.
Proof.
  unfold optHandlers.
  assert (Hgen : forall opts (m : gmap string (OptInfo Value)),
            (forall n o, m !! n = Some o -> o ∈ options) ->
            (forall o, o ∈ opts -> o ∈ options) ->
            forall n o,
              fold_left (fun handlers o => <[name Value o := o]> handlers) opts m !! n
              = Some o ->
              o ∈ options).
  { induction opts as [|o' opts IH]; intros m Hm Hin n o'' H; simpl in H; [eauto|].
    eapply IH; [| |exact H].
    - intros n' o3 Hl. destruct (decide (name Value o' = n')) as [<-|Hne].
      + rewrite lookup_insert_eq in Hl. injection Hl as <-. apply Hin, list_elem_of_here.
      + rewrite lookup_insert_ne in Hl by exact Hne. eauto.
    - intros o3 Ho3. apply Hin, list_elem_of_further, Ho3. }
  apply Hgen; [|auto]. intros n o'. rewrite lookup_empty. discriminate.
Qed.

Lemma var_injective o1 o2 :
  o1 ∈ options -> o2 ∈ options -> var Value o1 = var Value o2 -> o1 = o2.
Proof.
  revert one_option_per_member. generalize options as opts.
  induction opts as [|o opts IH]; intros Hnodup H1 H2 Hvar; [inversion H1|].
  cbn [map] in Hnodup. apply NoDup_cons in Hnodup. destruct Hnodup as [Hnotin Hnodup].
  assert (Hin : forall o', o' ∈ opts -> var Value o' ∈ map (var Value) opts).
  { intros o' Ho'. apply list_elem_of_In, in_map, list_elem_of_In, Ho'. }
  apply elem_of_cons in H1. apply elem_of_cons in H2.
  destruct H1 as [->|H1], H2 as [->|H2]; auto.
  - exfalso. apply Hnotin. rewrite Hvar. apply Hin, H2.
  - exfalso. apply Hnotin. rewrite <- Hvar. apply Hin, H1.
Qed.

Lemma members_NoDup settings :
  Forall (accepted Value options) settings -> NoDup (names settings) ->
  NoDup (members settings).
Proof.
  induction settings as [|setting settings IH]; intros Hacc Hnodup; [constructor|].
  inversion Hacc as [|? ? (Hhandler & _) Hacc']; subst.
  cbn [names map] in Hnodup. apply NoDup_cons in Hnodup. destruct Hnodup as [Hnotin Hnodup].
  cbn [members map]. apply NoDup_cons. split; [|apply IH; assumption].
  intros Hin. apply list_elem_of_In, in_map_iff in Hin.
  destruct Hin as (setting' & Hvar & Hin').
  apply list_elem_of_In in Hin'.
  rewrite Forall_forall in Hacc'. destruct (Hacc' _ Hin') as (Hhandler' & _).
  apply optHandlers_option in Hhandler, Hhandler'.
  pose proof (var_injective _ _ Hhandler' Hhandler Hvar) as Heq.
  apply Hnotin. unfold names. apply list_elem_of_In, in_map_iff.
  exists setting'. split; [rewrite Heq; reflexivity|apply list_elem_of_In, Hin'].
Qed.

Lemma applied_Permutation settings settings' :
  settings ≡ₚ settings' -> NoDup (members settings) ->
  forall src : Src Value, applied Value settings src = applied Value settings' src.
Proof.
  induction 1 as [|setting l l' Hperm IH|s1 s2 l|l1 l2 l3 H12 IH12 H23 IH23];
    intros Hnodup src.
  - reflexivity.
  - rewrite !applied_cons. apply IH.
    cbn [members map] in Hnodup. apply NoDup_cons in Hnodup. tauto.
  - rewrite !applied_cons.
    cbn [members map] in Hnodup. apply NoDup_cons in Hnodup. destruct Hnodup as [Hne _].
    apply not_elem_of_cons in Hne. destruct Hne as [Hne _].
    destruct (valueOf Value (fst s1) (snd s1)), (valueOf Value (fst s2) (snd s2));
      try reflexivity.
    f_equal. apply (insert_insert_ne (M := gmap string)). congruence.
  - rewrite IH12 by exact Hnodup. apply IH23.
    unfold members in *. rewrite <- H12. exact Hnodup.
Qed.

(** X14: the order of the arguments does not matter: when Config::read
    makes a Config from a command line, it makes the same Config from
    every reordering of the arguments after argv[0]. *)
Theorem read_order_independent (argv0 argv0' : string) (args args' : list string)
    (src : Src Value) :
  args ≡ₚ args' ->
  read Value options (argv0 :: args) = Created Value src ->
  read Value options (argv0' :: args') = Created Value src.
Proof.
  intros Hperm H. unfold read in *. apply readArgs_created in H.
  destruct H as (settings & -> & Hacc & Hnodup & _ & ->).
  symmetry in Hperm. apply Permutation_map_inv in Hperm.
  destruct Hperm as (settings' & -> & Hperm).
  rewrite (applied_Permutation settings settings' Hperm)
    by (apply members_NoDup; assumption).
  apply readArgs_accepts.
  - rewrite <- Hperm. exact Hacc.
  - unfold names. rewrite <- Hperm. exact Hnodup.
  - intros n _. apply not_elem_of_empty.
Qed.

Lemma Src_new_default o :
  o ∈ options -> Src_new Value options !! var Value o = Some (defaultVal Value o).
Proof.
  unfold Src_new. revert one_option_per_member. generalize (∅ : Src Value).
  generalize options as opts.
  induction opts as [|o' opts IH]; intros m Hnodup Hin; [inversion Hin|].
  cbn [map] in Hnodup. apply NoDup_cons in Hnodup. destruct Hnodup as [Hnotin Hnodup].
  cbn [fold_left]. apply elem_of_cons in Hin. destruct Hin as [->|Hin].
  - clear IH. revert m Hnotin. clear Hnodup. unfold Src.
    induction opts as [|o2 opts IH]; intros m Hnotin.
    + apply lookup_insert_eq.
    + cbn [fold_left map] in *. apply not_elem_of_cons in Hnotin.
      destruct Hnotin as [Hne Hnotin].
      rewrite insert_insert_ne by congruence. apply IH. exact Hnotin.
  - apply IH; assumption.
Qed.

Lemma applied_lookup_other settings : forall (src : Src Value) member,
  member ∉ members settings -> applied Value settings src !! member = src !! member.
Proof.
  induction settings as [|setting settings IH]; intros src member Hnotin; [reflexivity|].
  cbn [members map] in Hnotin. apply not_elem_of_cons in Hnotin.
  destruct Hnotin as [Hne Hnotin].
  rewrite applied_cons, IH by exact Hnotin.
  destruct (valueOf Value (fst setting) (snd setting)); [|reflexivity].
  apply (lookup_insert_ne (M := gmap string)). congruence.
Qed.

Lemma applied_lookup settings : forall (src : Src Value) setting val,
  NoDup (members settings) -> setting ∈ settings ->
  valueOf Value (fst setting) (snd setting) = Some val ->
  applied Value settings src !! var Value (fst setting) = Some val.
Proof.
  induction settings as [|s settings IH]; intros src setting val Hnodup Hin Hval;
    [inversion Hin|].
  cbn [members map] in Hnodup. apply NoDup_cons in Hnodup. destruct Hnodup as [Hnotin Hnodup].
  rewrite applied_cons. apply elem_of_cons in Hin. destruct Hin as [->|Hin].
  - rewrite applied_lookup_other by exact Hnotin. rewrite Hval. apply (lookup_insert_eq (M := gmap string)).
  - apply IH; assumption.
Qed.

Lemma argOf_inj setting setting' :
  noEq (name Value (fst setting)) = true -> noEq (name Value (fst setting')) = true ->
  argOf Value setting = argOf Value setting' ->
  name Value (fst setting) = name Value (fst setting') /\ snd setting = snd setting'.
Proof.
  intros Hno Hno' H. unfold argOf in H. injection H as H.
  change (String.append EmptyString ?x) with x in H.
  pose proof (splitAtEq_argument _ (snd setting) Hno) as H1.
  rewrite H, splitAtEq_argument in H1 by exact Hno'. injection H1 as -> ->. auto.
Qed.

(** X15: the members of the Config that Config::read makes, for an option
    that its name stands for (no later option has the same name) and
    whose name holds no '=': when an argument --name=value sets it, its
    member has the value the text parses to, and when no argument names it,
    its member has the default. *)
Theorem read_sets_members (argv0 : string) (args : list string) (src : Src Value)
    (o : OptInfo Value) :
  read Value options (argv0 :: args) = Created Value src ->
  handlers !! name Value o = Some o -> noEq (name Value o) = true ->
  (forall valStr, argOf Value (o, valStr) ∈ args ->
     exists val, valueOf Value o valStr = Some val /\ src !! var Value o = Some val) /\
  ((forall valStr, argOf Value (o, valStr) ∉ args) ->
     src !! var Value o = Some (defaultVal Value o)).
Proof.
  intros H Hhandler Hno. unfold read in H. apply readArgs_created in H.
  destruct H as (settings & -> & Hacc & Hnodup & _ & ->).
  pose proof (members_NoDup settings Hacc Hnodup) as Hmembers.
  pose proof (optHandlers_option _ _ Hhandler) as Hin.
  split.
  - intros valStr Harg. apply list_elem_of_In, in_map_iff in Harg.
    destruct Harg as (setting & Heq & Hs). apply list_elem_of_In in Hs.
    rewrite Forall_forall in Hacc. destruct (Hacc _ Hs) as (Hh & Hn & [val Hval]).
    destruct (argOf_inj setting (o, valStr) Hn Hno Heq) as [Hname Htext].
    cbn [fst snd] in Hname, Htext.
    assert (fst setting = o) as Ho by congruence.
    exists val. rewrite <- Htext, <- Ho. split; [exact Hval|].
    apply applied_lookup; assumption.
  - intros Hnone. rewrite applied_lookup_other; [apply Src_new_default, Hin|].
    intros Hmem. apply list_elem_of_In, in_map_iff in Hmem.
    destruct Hmem as (setting & Hvar & Hs). apply list_elem_of_In in Hs.
    rewrite Forall_forall in Hacc. destruct (Hacc _ Hs) as (Hh & _).
    apply optHandlers_option in Hh.
    pose proof (var_injective _ _ Hh Hin Hvar) as Ho.
    apply (Hnone (snd setting)). apply list_elem_of_In, in_map_iff.
    exists setting. split; [|apply list_elem_of_In, Hs].
    rewrite <- Ho. destruct setting; reflexivity.
Qed.

End ReadProperties.

(** ** The properties of the option handling on a concrete option table *)

Lemma helpLine_within_width_example :
  Forall (fun line => size line <= MaxWidth)
    (lines (helpLine "use-dedicated-xvfb" "YES/NO"
              "if enabled, the browser is run in its own Xvfb X server" "yes")).
Proof.
  apply helpLine_within_width.
  - vm_compute. discriminate.
  - vm_compute. repeat (apply List.Forall_cons; [discriminate|]). apply List.Forall_nil.
  - vm_compute. discriminate.
Defined.

Lemma bool_option_round_trip_example :
  OptParser_bool_parse "Yes" = Some true /\ OptParser_bool_parse "NO" = Some false.
Proof.
  split.
  - apply (bool_option_round_trip true "Yes"). reflexivity.
  - apply (bool_option_round_trip false "NO"). reflexivity.
Defined.

Lemma exampleOptions_members : NoDup (map (var ExampleValue) exampleOptions).
Proof.
  simpl. repeat (apply NoDup_cons_2; [rewrite ?elem_of_cons, elem_of_nil; intuition discriminate|]).
  apply NoDup_nil_2.
Qed.

Lemma read_example :
  read ExampleValue exampleOptions
       ["browservice"; "--data-dir=/tmp/b"; "--use-dedicated-xvfb=No"]
  = Created ExampleValue exampleSrc.
Proof. reflexivity. Qed.

Lemma read_order_independent_example :
  read ExampleValue exampleOptions
       ["./browservice"; "--use-dedicated-xvfb=No"; "--data-dir=/tmp/b"]
  = Created ExampleValue exampleSrc.
Proof.
  apply (read_order_independent exampleOptions exampleOptions_members
           "browservice" "./browservice"
           ["--data-dir=/tmp/b"; "--use-dedicated-xvfb=No"]).
  - apply perm_swap.
  - exact read_example.
Defined.

Lemma read_sets_members_example :
  (forall valStr,
     argOf ExampleValue (xvfbOption, valStr)
       ∈ ["--data-dir=/tmp/b"; "--use-dedicated-xvfb=No"] ->
     exists val, valueOf ExampleValue xvfbOption valStr = Some val /\
                 exampleSrc !! "useDedicatedXvfb" = Some val) /\
  ((forall valStr,
      argOf ExampleValue (xvfbOption, valStr)
        ∉ ["--data-dir=/tmp/b"; "--use-dedicated-xvfb=No"]) ->
   exampleSrc !! "useDedicatedXvfb" = Some (BoolValue true)).
Proof.
  apply (read_sets_members exampleOptions exampleOptions_members "browservice"
           ["--data-dir=/tmp/b"; "--use-dedicated-xvfb=No"] exampleSrc xvfbOption).
  - exact read_example.
  - reflexivity.
  - reflexivity.
Defined.

End ConfigProperties.

(** * Properties of the application object and the id registry *)

Section AppProperties.
Import App.

Lemma callAll_app cs1 : forall cs2 app,
  callAll (cs1 ++ cs2) app =
  match callAll cs1 app with
  | Some (app', t) =>
      match callAll cs2 app' with
      | Some (app'', t') => Some (app'', t ++ t')
      | None => None
      end
  | None => None
  end.
Proof.
  induction cs1 as [|c cs1 IH]; intros cs2 app; simpl.
  - destruct (callAll cs2 app) as [[? ?]|]; reflexivity.
  - destruct (call c app) as [[app1 t1]|]; [|reflexivity].
    rewrite IH. destruct (callAll cs1 app1) as [[app2 t2]|]; [|reflexivity].
    destruct (callAll cs2 app2) as [[app3 t3]|]; [|reflexivity].
    rewrite app_assoc. reflexivity.
Qed.

Lemma callAll_before_created n : forall requested,
  callAll (repeat Shutdown n) {| server_ := false; shutdown_ := requested |} =
  Some ({| server_ := false; shutdown_ := requested || (0 <? n)%nat |}, []).
Proof.
  induction n as [|n IH]; intros requested; simpl.
  - rewrite orb_false_r. reflexivity.
  - rewrite IH. simpl. rewrite orb_true_r. destruct n; reflexivity.
Qed.

Lemma callAll_after_created cs : forall app,
  server_ app = true ->
  callAll cs app =
  (if forallb isShutdown cs
   then Some (app, repeat ServerShutdown (length cs))
   else None).
Proof.
  induction cs as [|c cs IH]; intros app Hs; simpl; [reflexivity|].
  destruct c; simpl; unfold shutdown, OnContextInitialized; rewrite Hs; [|reflexivity].
  rewrite (IH _ Hs). destruct (forallb isShutdown cs); reflexivity.
Qed.

(** X26: a shutdown is never lost and never reaches a server that does
    not exist.  While the context is not initialised, shutdown calls only
    set the flag; OnContextInitialized creates the server and shuts it down
    at once if the flag is set; every later shutdown call is passed to the
    server; a second OnContextInitialized aborts. *)
Theorem shutdown_request_never_lost (n : nat) (after : list Call) :
  (callAll (repeat Shutdown n) App_new =
     Some ({| server_ := false; shutdown_ := (0 <? n)%nat |}, [])) /\
  (callAll (repeat Shutdown n ++ ContextInitialized :: after) App_new =
     (if forallb isShutdown after
      then Some ({| server_ := true; shutdown_ := (0 <? n)%nat |},
                 ServerCreate ::
                 (if (0 <? n)%nat then [ServerShutdown] else []) ++
                 repeat ServerShutdown (length after))
      else None)).
Proof.
  unfold App_new. split; [apply callAll_before_created|].
  rewrite callAll_app, callAll_before_created. simpl.
  rewrite callAll_after_created by reflexivity.
  destruct (forallb isShutdown after); reflexivity.
Qed.

End AppProperties.

Section SessionIDProperties.
Import SessionIDs.

Lemma drawID_free used draws id :
  drawID used draws = Some id -> id ∈ draws /\ id ∉ used.
Proof.
  induction draws as [|d draws IH]; simpl; [discriminate|].
  destruct (bool_decide (d ∈ used)) eqn:Hd.
  - intros H. destruct (IH H). split; [apply list_elem_of_further|]; assumption.
  - intros [= ->]. apply bool_decide_eq_false in Hd.
    split; [apply list_elem_of_here|assumption].
Qed.

Lemma step_registered st r r' :
  step st r = Some r' -> registered r -> registered r'.
Proof.
  unfold registered. intros H [Hnd Hused].
  destruct st as [draws|i|]; simpl in H.
  - unfold construct in H.
    destruct (drawID (usedSessionIDs r) draws) as [id|] eqn:Hd; [|discriminate].
    injection H as <-. simpl. apply drawID_free in Hd. destruct Hd as [_ Hfree].
    split.
    + apply NoDup_cons. split; [|exact Hnd]. intros Hin. apply Hfree, Hused, Hin.
    + intros id' Hin. apply elem_of_cons in Hin. destruct Hin as [->|Hin].
      * set_solver.
      * apply Hused in Hin. set_solver.
  - unfold destruct_ in H. destruct (sessions r !! i) as [id|] eqn:Hi; [|discriminate].
    injection H as <-. simpl.
    assert (Hperm : delete i (sessions r) ++ posted r ++ [id] ≡ₚ sessions r ++ posted r).
    { transitivity (delete i (sessions r) ++ id :: posted r).
      - apply Permutation_app_head. symmetry. apply Permutation_cons_append.
      - transitivity (id :: delete i (sessions r) ++ posted r).
        + symmetry. apply Permutation_middle.
        + change ((id :: delete i (sessions r)) ++ posted r ≡ₚ sessions r ++ posted r).
          apply Permutation_app_tail. symmetry.
          apply (delete_Permutation _ _ _ Hi). }
    split.
    + rewrite Hperm. exact Hnd.
    + intros id' Hin. rewrite Hperm in Hin. apply Hused, Hin.
  - unfold runErase in H. destruct (posted r) as [|id rest] eqn:Hp; [discriminate|].
    injection H as <-. simpl.
    assert (Hperm : sessions r ++ id :: rest ≡ₚ id :: sessions r ++ rest)
      by (symmetry; apply Permutation_middle).
    rewrite Hperm in Hnd. apply NoDup_cons in Hnd. destruct Hnd as [Hfresh Hnd].
    split; [exact Hnd|].
    intros id' Hin. apply elem_of_difference. split.
    + apply Hused. rewrite Hperm. apply list_elem_of_further, Hin.
    + intros Heq. apply elem_of_singleton in Heq. subst id'. exact (Hfresh Hin).
Qed.

Lemma steps_registered sts : forall r r',
  steps sts r = Some r' -> registered r -> registered r'.
Proof.
  induction sts as [|st sts IH]; intros r r' H Hr; simpl in H.
  - injection H as <-. exact Hr.
  - destruct (step st r) as [r1|] eqn:H1; [|discriminate].
    exact (IH _ _ H (step_registered _ _ _ H1 Hr)).
Qed.

(** X27: no two sessions that exist have the same id.  Whatever values
    the generator yields and in whatever order sessions are constructed,
    destroyed and the posted erase tasks run, the ids of the existing
    sessions are pairwise distinct and all counted by usedSessionIDs; the
    id of a destroyed session stays taken until its erase task has run. *)
Theorem session_ids_unique sts r :
  steps sts Registry_new = Some r ->
  NoDup (sessions r ++ posted r) /\
  (forall id, id ∈ sessions r ++ posted r -> id ∈ usedSessionIDs r) /\
  (forall draws r', construct draws r = Some r' ->
     exists id, sessions r' = id :: sessions r /\ id ∈ draws /\
       (id ∉ sessions r) /\ (id ∉ posted r)).
Proof.
  intros H.
  assert (Hr : registered r).
  { apply (steps_registered _ _ _ H). split; [apply NoDup_nil_2|].
    intros id Hin. simpl in Hin. inversion Hin. }
  destruct Hr as [Hnd Hused]. split; [exact Hnd|]. split; [exact Hused|].
  intros draws r' Hc. unfold construct in Hc.
  destruct (drawID (usedSessionIDs r) draws) as [id|] eqn:Hd; [|discriminate].
  injection Hc as <-. simpl. apply drawID_free in Hd. destruct Hd as [Hin Hfree].
  exists id. repeat split; try assumption.
  - intros Hs. apply Hfree, Hused, elem_of_app. left. exact Hs.
  - intros Hs. apply Hfree, Hused, elem_of_app. right. exact Hs.
Qed.


Lemma example_session_ids :
  match steps exampleSteps Registry_new with
  | Some r =>
      sessions r = [7; 9] /\
      NoDup (sessions r ++ posted r) /\
      (forall id, id ∈ sessions r ++ posted r -> id ∈ usedSessionIDs r) /\
      (forall draws r', construct draws r = Some r' ->
         exists id, sessions r' = id :: sessions r /\ id ∈ draws /\
           (id ∉ sessions r) /\ (id ∉ posted r))
  | None => False
  end.
Proof.
  destruct (steps exampleSteps Registry_new) as [r|] eqn:H.
  - split; [|exact (session_ids_unique exampleSteps r H)].
    vm_compute in H. injection H as <-. reflexivity.
  - vm_compute in H. discriminate H.
Defined.

End SessionIDProperties.
